(** * The LaTeX-to-HTML conversion engine of [simple-latex-parser.js]

    A shallow embedding of the conversion core: label-table parsing
    ([parseAuxFile]), environment extraction ([extractTheorems],
    [extractProofs], [extractFigures], ...), the content transformers
    ([convertListsInContent], [processNestedProofs]), the splice loop of
    [convertLaTeXToHTML] and its two reference passes.

    Conventions of the model.
    - A JavaScript string is a [list ascii]; positions are [nat], the
      running splice offset (which can be negative) is a [Z].  On ASCII
      text a character of the model is a character of the source.  The
      few glyphs of the generated fragments are carried as opaque bytes.
      The classes [\s] and [trim] of the source also take blanks outside
      ASCII (the no-break space, the byte order mark, ...); the model
      has them on ASCII ([is_space]), and the statements about trimming
      and about the blanks between items or paragraphs are made for
      ASCII text ([ascii_text]).
    - Each regular expression of the source is written out as the matcher
      it denotes: a function that tries to match at the head of a suffix
      and returns its capture groups and the length of the match.  The
      global [replace] and [exec] loops of the regex engine are the
      scanners [replace_all] and [exec_all].
    - [labels] (a JS object used as a dictionary) is a [gmap] of the
      records stored in it; [usedIds] (a JS [Set]) is a [gset].  Reading
      [labels[label]] also finds the names the object inherits:
      [labelsAt] is that reading, with the prototype chain written out.
    - The start number of a nested enumerate is computed on natural
      numbers; the source computes it in double precision, which is the
      same below [2^53], and the statement about it carries that bound.
    - [Date.now()] is an explicit clock: a function from the number of
      readings taken so far to the value read.
    - The figure renderers multiply parsed floating-point widths; they are
      parameters of the sections that call them. *)

From Stdlib Require Import Ascii String ZArith DecimalString DecimalNat.
From stdpp Require Import gmap list strings.

Local Open Scope list_scope.

(** ** Text *)

Abbreviation text := (list ascii).

Definition dquote : ascii := ascii_of_nat 34.
Definition newline : ascii := ascii_of_nat 10.

(** Literals of the source.  A Rocq literal cannot hold the characters
    34 and 10 conveniently, so in a literal a backquote stands for the
    double quote and a vertical bar for a line feed; no literal of the
    source contains either stand-in. *)
Definition lit_char (c : ascii) : ascii :=
  if Ascii.eqb c "`" then dquote
  else if Ascii.eqb c "|" then newline
  else c.

Definition lit (s : string) : text := map lit_char (list_ascii_of_string s).
Arguments lit _ : simpl never.

(** The ASCII characters, and the texts made of them. *)
Definition is_ascii (c : ascii) : bool := nat_of_ascii c <? 128.

Definition ascii_text (s : text) : bool := forallb is_ascii s.

(** [\s] and [trim] on ASCII text: TAB, LF, VT, FF, CR, space.  Outside
    ASCII the source knows more blanks; see [ascii_text]. *)
Definition is_space (c : ascii) : bool :=
  let n := nat_of_ascii c in
  ((9 <=? n) && (n <=? 13)) || (n =? 32).

Definition is_digit (c : ascii) : bool :=
  let n := nat_of_ascii c in (48 <=? n) && (n <=? 57).

Definition is_lower (c : ascii) : bool :=
  let n := nat_of_ascii c in (97 <=? n) && (n <=? 122).

Definition is_upper (c : ascii) : bool :=
  let n := nat_of_ascii c in (65 <=? n) && (n <=? 90).

Definition to_lower (c : ascii) : ascii :=
  if is_upper c then ascii_of_nat (nat_of_ascii c + 32) else c.

(** [String.prototype.toLowerCase] on ASCII. *)
Definition toLowerCase (s : text) : text := map to_lower s.

Fixpoint take_while (p : ascii -> bool) (s : text) : text :=
  match s with
  | c :: s' => if p c then c :: take_while p s' else []
  | [] => []
  end.

Fixpoint drop_while (p : ascii -> bool) (s : text) : text :=
  match s with
  | c :: s' => if p c then drop_while p s' else s
  | [] => []
  end.

Definition trimStart (s : text) : text := drop_while is_space s.
Definition trimEnd (s : text) : text := rev (drop_while is_space (rev s)).

(** [String.prototype.trim]. *)
Definition trim (s : text) : text := trimEnd (trimStart s).

Definition text_eqb (a b : text) : bool := bool_decide (a = b).

Fixpoint startsWith (p s : text) : bool :=
  match p, s with
  | [], _ => true
  | a :: p', b :: s' => Ascii.eqb a b && startsWith p' s'
  | _ :: _, [] => false
  end.

Definition endsWith (p s : text) : bool := startsWith (rev p) (rev s).

(** [s.search(/literal/)] and [s.indexOf(literal)]: offset of the first
    occurrence, [None] for the source's [-1]. *)
Fixpoint indexOf (p s : text) : option nat :=
  if startsWith p s then Some 0
  else match s with
       | [] => None
       | _ :: s' => S <$> indexOf p s'
       end.

Definition includes (p s : text) : bool :=
  match indexOf p s with Some _ => true | None => false end.

(** [s.substring(a, b)] on non-negative arguments: both ends are clamped
    to the length and swapped when [a > b]. *)
Definition substring (s : text) (a b : nat) : text :=
  take (Nat.max a b - Nat.min a b) (drop (Nat.min a b) s).

(** [s.substring(a)]. *)
Definition substringFrom (s : text) (a : nat) : text := drop a s.

(** [s.substring(a, b)] on arbitrary integers: negatives count as 0. *)
Definition substringZ (s : text) (a b : Z) : text :=
  substring s (Z.to_nat a) (Z.to_nat b).

Definition substringFromZ (s : text) (a : Z) : text := drop (Z.to_nat a) s.

(** [' '.repeat(n)]. *)
Definition spaces (n : nat) : text := replicate n " "%char.

(** Template interpolation of a non-negative integer. *)
Definition decimal (n : nat) : text :=
  list_ascii_of_string (NilEmpty.string_of_uint (Nat.to_uint n)).

(** [parseInt] on a string of decimal digits, as a natural number: the
    value the source gets while the number is below [2^53]. *)
Definition parseInt (ds : text) : nat :=
  fold_left (fun acc c => 10 * acc + (nat_of_ascii c - 48)) ds 0.

(** ** The regex engine's loops

    A matcher is one regular expression tried at the head of a suffix: on
    success it gives the capture groups and the number of characters
    consumed.  Every expression of the source consumes at least one
    character, so the scanners below never meet an empty match. *)

Definition matcher (A : Type) : Type := text -> option (A * nat).

Section Scan.
Context {A : Type} (m : matcher A).

(** [s.match(re)] and a first [re.exec(s)]: the leftmost match, as
    (index, captures, length). *)
Fixpoint find_match (s : text) : option (nat * A * nat) :=
  match m s with
  | Some (a, n) => Some (0, a, n)
  | None =>
      match s with
      | [] => None
      | _ :: s' =>
          match find_match s' with
          | Some (i, a, n) => Some (S i, a, n)
          | None => None
          end
      end
  end.

(** [s.replace(re_g, callback)]: matches are found left to right and do
    not overlap; the callback gets the ordinal of the match, the capture
    groups and the matched text.  [skip] counts the characters of the
    current match still to be passed over. *)
Fixpoint replace_go (f : nat -> A -> text -> text) (k skip : nat) (s : text) : text :=
  match s with
  | [] => []
  | c :: s' =>
      match skip with
      | S j => replace_go f k j s'
      | O =>
          match m s with
          | Some (a, n) => f k a (take n s) ++ replace_go f (S k) (n - 1) s'
          | None => c :: replace_go f k 0 s'
          end
      end
  end.

Definition replace_all (f : nat -> A -> text -> text) (s : text) : text :=
  replace_go f 0 0 s.

(** [while ((match = re_g.exec(s)) !== null)]: every match with its
    index, captures and matched text. *)
Fixpoint exec_go (i skip : nat) (s : text) : list (nat * A * text) :=
  match s with
  | [] => []
  | _ :: s' =>
      match skip with
      | S j => exec_go (S i) j s'
      | O =>
          match m s with
          | Some (a, n) => (i, a, take n s) :: exec_go (S i) (n - 1) s'
          | None => exec_go (S i) 0 s'
          end
      end
  end.

Definition exec_all (s : text) : list (nat * A * text) := exec_go 0 0 s.

(** [s.replace(re, callback)] without the [g] flag: the first match only. *)
Definition replace_first (f : A -> text -> text) (s : text) : text :=
  match find_match s with
  | Some (i, a, n) => take i s ++ f a (take n (drop i s)) ++ drop (i + n) s
  | None => s
  end.
End Scan.

(** ** Pieces of regular expressions *)

(** A literal prefix: the rest of the suffix after it. *)
Definition after (p s : text) : option text :=
  if startsWith p s then Some (drop (length p) s) else None.

Definition not_char (stop : ascii) (c : ascii) : bool := negb (Ascii.eqb c stop).

(** An opening character, a non-empty run of characters other than the
    closing one, and the closing character, at the head: the captured run
    and what follows the closing character. *)
Definition delimited1 (opn cls : ascii) (s : text) : option (text * text) :=
  match s with
  | c :: r =>
      if Ascii.eqb c opn then
        let t := take_while (not_char cls) r in
        match t, drop (length t) r with
        | _ :: _, d :: rest => if Ascii.eqb d cls then Some (t, rest) else None
        | _, _ => None
        end
      else None
  | [] => None
  end.

(** The same with a possibly empty run (a starred character class). *)
Definition delimited0 (opn cls : ascii) (s : text) : option (text * text) :=
  match s with
  | c :: r =>
      if Ascii.eqb c opn then
        let t := take_while (not_char cls) r in
        match drop (length t) r with
        | d :: rest => if Ascii.eqb d cls then Some (t, rest) else None
        | [] => None
        end
      else None
  | [] => None
  end.

(** [([\s\S]*?)stop]: the text before the first occurrence of [stop], and
    the characters consumed through the end of [stop]. *)
Definition lazy_until (stop s : text) : option (text * nat) :=
  match indexOf stop s with
  | Some i => Some (take i s, i + length stop)
  | None => None
  end.

(** [open(?:\[([^\]]+)\])?([\s\S]*?)close]: an environment with an
    optional bracketed argument.  The optional group is greedy; when no
    [close] follows the bracket the engine backtracks and matches without
    it. *)
Definition env_opt (opn cls : text) : matcher (option text * text) := fun s =>
  match after opn s with
  | None => None
  | Some r =>
      let plain :=
        match lazy_until cls r with
        | Some (c, n) => Some ((None, c), length opn + n)
        | None => None
        end in
      match delimited1 "[" "]" r with
      | Some (t, r') =>
          match lazy_until cls r' with
          | Some (c, n) => Some ((Some t, c), length opn + (length t + 2) + n)
          | None => plain
          end
      | None => plain
      end
  end.

(** [open([\s\S]*?)close]. *)
Definition env_plain (opn cls : text) : matcher text := fun s =>
  match after opn s with
  | None => None
  | Some r =>
      match lazy_until cls r with
      | Some (c, n) => Some (c, length opn + n)
      | None => None
      end
  end.

(** ** Content transformers *)

(** [/\\item\s*/] *)
Definition m_item : matcher unit := fun s =>
  match after (lit "\item") s with
  | Some r => Some (tt, 5 + length (take_while is_space r))
  | None => None
  end.

(** [/\\CMD\{enumi+\}/], followed for [\setcounter] and [\addtocounter]
    by a braced non-empty argument. *)
Definition m_enum_counter (cmd : text) (arg : bool) : matcher unit := fun s =>
  match after (cmd ++ lit "{enum") s with
  | None => None
  | Some r =>
      let run := take_while (Ascii.eqb "i") r in
      match run, after (lit "}") (drop (length run) r) with
      | _ :: _, Some r' =>
          let n := length cmd + 5 + length run + 1 in
          if arg then
            match delimited1 "{" "}" r' with
            | Some (t, _) => Some (tt, n + (length t + 2))
            | None => None
            end
          else Some (tt, n)
      | _, _ => None
      end
  end.

(** [/\\setcounter\{enumi\}\{(\d+)\}/] *)
Definition m_setcounter_enumi : matcher text := fun s =>
  match after (lit "\setcounter{enumi}{") s with
  | None => None
  | Some r =>
      let ds := take_while is_digit r in
      match ds, after (lit "}") (drop (length ds) r) with
      | _ :: _, Some _ => Some (ds, 19 + length ds + 1)
      | _, _ => None
      end
  end.

Definition erase {A : Type} : nat -> A -> text -> text := fun _ _ _ => [].

(** The item rewriting shared, as repeated code, by [convertListsInContent],
    [generateEnumerateHTML] and [generateItemizeHTML]: every [\item] with
    its trailing blanks becomes an item boundary, a leading close tag is
    dropped and a final one supplied. *)
Definition itemsToLi (content : text) : text :=
  let c := replace_all m_item (fun _ _ _ => lit "</li><li>") content in
  let c := if startsWith (lit "</li>") c then drop 5 c else c in
  if endsWith (lit "</li>") c then c else c ++ lit "</li>".

(** The [typeAttr] chosen from the optional bracketed enumerate style. *)
Definition listStyleAttr (optType : option text) : text :=
  match optType with
  | None => []
  | Some t =>
      if includes (lit "(a)") t then lit " style=`list-style-type: lower-alpha;`"
      else if includes (lit "(i)") t then lit " style=`list-style-type: lower-roman;`"
      else if includes (lit "(A)") t then lit " style=`list-style-type: upper-alpha;`"
      else if includes (lit "(I)") t then lit " style=`list-style-type: upper-roman;`"
      else []
  end.

Definition beginEnumerate : text := lit "\begin{enumerate}".
Definition endEnumerate : text := lit "\end{enumerate}".
Definition beginItemize : text := lit "\begin{itemize}".
Definition endItemize : text := lit "\end{itemize}".

(** The callback of the enumerate replacement in [convertListsInContent]. *)
Definition nestedEnumerateHTML (whole : text) (optType : option text) (enumContent : text) : text :=
  let listContent := trim enumContent in
  let listContent := replace_all (m_enum_counter (lit "\setcounter") true) erase listContent in
  let listContent := replace_all (m_enum_counter (lit "\stepcounter") false) erase listContent in
  let listContent := replace_all (m_enum_counter (lit "\addtocounter") true) erase listContent in
  let listContent := itemsToLi listContent in
  let startAttr :=
    match find_match m_setcounter_enumi whole with
    | Some (_, ds, _) => lit " start=`" ++ decimal (parseInt ds + 1) ++ lit "`"
    | None => []
    end in
  lit "<ol" ++ listStyleAttr optType ++ startAttr ++ lit ">" ++ listContent ++ lit "</ol>".

Definition convertListsInContent (content : text) : text :=
  let content :=
    replace_all (env_opt beginEnumerate endEnumerate)
      (fun _ '(optType, enumContent) whole => nestedEnumerateHTML whole optType enumContent)
      content in
  replace_all (env_plain beginItemize endItemize)
    (fun _ itemContent _ => lit "<ul>" ++ itemsToLi (trim itemContent) ++ lit "</ul>")
    content.

Definition beginProof : text := lit "\begin{proof}".
Definition endProof : text := lit "\end{proof}".
Definition beginFigure : text := lit "\begin{figure}".
Definition endFigure : text := lit "\end{figure}".

(** [/\\begin\{figure\}\s*([\s\S]*?)\\end\{figure\}/] *)
Definition m_figure_in_content : matcher text := fun s =>
  match after beginFigure s with
  | None => None
  | Some r =>
      let ws := take_while is_space r in
      match lazy_until endFigure (drop (length ws) r) with
      | Some (c, n) => Some (c, 14 + length ws + n)
      | None => None
      end
  end.

(** The subproof block of [processNestedProofs]; [now] is the value read
    from the clock and [k] the value of [subproofCounter]. *)
Definition subproofHTML (now k : nat) (title : option text) (proofContent : text) : text :=
  let cleanContent := convertListsInContent (trim proofContent) in
  let subproofId := lit "subproof-" ++ decimal now ++ lit "-" ++ decimal k in
  lit "<div class=`subproof collapsed` data-subproof-id=`" ++ subproofId ++ lit "`>|"
  ++ lit "      <div class=`subproof-header`>|"
  ++ lit "        <button class=`subproof-toggle` onclick=`toggleSubproof('" ++ subproofId
  ++ lit "')` aria-expanded=`false`>|"
  ++ lit "          <span class=`subproof-toggle-icon`>▼</span>|"
  ++ lit "          <strong>" ++ default (lit "Proof") title ++ lit "</strong>|"
  ++ lit "        </button>|"
  ++ lit "      </div>|"
  ++ lit "      <div class=`subproof-content` id=`" ++ subproofId ++ lit "`>|"
  ++ lit "        " ++ cleanContent ++ lit "|"
  ++ lit "        <span class=`proof-end`>□</span>|"
  ++ lit "      </div>|"
  ++ lit "    </div>".

(** [processNestedProofs]: the clock is read once per replaced block, so
    block number [k] sees reading number [ticks + k]. *)
Definition processNestedProofs (clock : nat -> nat) (ticks : nat) (content : text) : text :=
  replace_all (env_opt beginProof endProof)
    (fun k '(title, proofContent) _ => subproofHTML (clock (ticks + k)) k title proofContent)
    content.

(** The number of clock readings [processNestedProofs] takes. *)
Definition nestedProofCount (content : text) : nat :=
  length (exec_all (env_opt beginProof endProof) content).

(** ** Extracted elements *)

Record theoremElement := {
  th_envName : text;
  th_number : option text;
  th_label : option text;
  th_title : option text;
  th_content : text;
  th_fullMatch : text;
  th_startIndex : nat;
  th_typeCount : nat
}.

Record proofElement := {
  pf_title : text;
  pf_content : text;
  pf_fullMatch : text;
  pf_startIndex : nat;
  pf_proofNumber : nat;
  pf_stableId : text
}.

Record sectionElement := {
  sec_level : text;
  sec_title : text;
  sec_fullMatch : text;
  sec_startIndex : nat
}.

Record figureElement := {
  fig_content : text;
  fig_fullMatch : text;
  fig_startIndex : nat
}.

Record enumerateElement := {
  en_listType : option text;
  en_content : text;
  en_fullMatch : text;
  en_startIndex : nat
}.

Record itemizeElement := {
  it_content : text;
  it_fullMatch : text;
  it_startIndex : nat
}.

(** The objects pushed by the extractors, tagged by their [type] field. *)
Inductive element :=
| ElTheorem (t : theoremElement)
| ElProof (p : proofElement)
| ElSection (s : sectionElement)
| ElFigure (f : figureElement)
| ElEnumerate (e : enumerateElement)
| ElItemize (i : itemizeElement).

Definition fullMatch (e : element) : text :=
  match e with
  | ElTheorem t => th_fullMatch t
  | ElProof p => pf_fullMatch p
  | ElSection s => sec_fullMatch s
  | ElFigure f => fig_fullMatch f
  | ElEnumerate e => en_fullMatch e
  | ElItemize i => it_fullMatch i
  end.

Definition startIndex (e : element) : nat :=
  match e with
  | ElTheorem t => th_startIndex t
  | ElProof p => pf_startIndex p
  | ElSection s => sec_startIndex s
  | ElFigure f => fig_startIndex f
  | ElEnumerate e => en_startIndex e
  | ElItemize i => it_startIndex i
  end.

(** ** extractProofs *)

(** [/\\begin\{proof\}(?:\[([^\]]+)\])?/] *)
Definition m_begin_proof : matcher (option text) := fun s =>
  match after beginProof s with
  | None => None
  | Some r =>
      match delimited1 "[" "]" r with
      | Some (t, _) => Some (Some t, length beginProof + (length t + 2))
      | None => Some (None, length beginProof)
      end
  end.

(** The environment names of the negative lookahead in the label search. *)
Definition labelGuardNames : list text :=
  map lit ["theorem"; "lemma"; "proposition"; "corollary"; "definition";
           "example"; "remark"; "exercise"; "problem"]%string.

(** [/\\label\{([^}]+)\}(?![\s\S]*\\end\{(?:theorem|...|problem)\})/]: a
    label after which none of the guarded environments ends. *)
Definition m_free_label : matcher text := fun s =>
  match after (lit "\label") s with
  | None => None
  | Some r =>
      match delimited1 "{" "}" r with
      | Some (l, rest) =>
          if existsb (fun e => includes (lit "\end{" ++ e ++ lit "}") rest) labelGuardNames
          then None
          else Some (l, 6 + (length l + 2))
      | None => None
      end
  end.

(** [/[^a-z0-9]+/] *)
Definition m_non_slug : matcher unit := fun s =>
  match take_while (fun c => negb (is_lower c || is_digit c)) s with
  | [] => None
  | run => Some (tt, length run)
  end.

(** [title.toLowerCase().replace(/[^a-z0-9]+/g, '-')] *)
Definition sanitize (title : text) : text :=
  replace_all m_non_slug (fun _ _ _ => lit "-") (toLowerCase title).

(** [while (usedIds.has(stableId)) { stableId = `${base}-${counter}`; counter++ }].
    [None] when the fuel runs out. *)
Fixpoint firstUnused (fuel : nat) (usedIds : gset text) (base stableId : text) (counter : nat)
  : option text :=
  match fuel with
  | O => None
  | S fuel' =>
      if bool_decide (stableId ∈ usedIds)
      then firstUnused fuel' usedIds base (base ++ lit "-" ++ decimal counter) (S counter)
      else Some stableId
  end.

(** The inner loop of [extractProofs], from [depth] and [searchPos]: the
    depth on leaving the loop and the position of the closing
    [\end{proof}] when the loop left through the extraction branch.
    [None] when the fuel runs out. *)
Fixpoint scanProofEnd (fuel : nat) (txt : text) (depth searchPos : nat)
  : option (nat * option nat) :=
  match fuel with
  | O => None
  | S fuel' =>
      if (0 <? depth) && (searchPos <? length txt) then
        let nextBegin := indexOf beginProof (substringFrom txt searchPos) in
        let nextEnd := indexOf endProof (substringFrom txt searchPos) in
        match nextEnd with
        | None => Some (depth, None)
        | Some e =>
            let opens :=
              match nextBegin with
              | Some b => b <? e
              | None => false
              end in
            if opens then
              scanProofEnd fuel' txt (S depth)
                (searchPos + default 0 nextBegin + length beginProof)
            else if depth - 1 =? 0 then Some (depth - 1, Some (searchPos + e))
            else scanProofEnd fuel' txt (depth - 1) (searchPos + e + length endProof)
        end
      else Some (depth, None)
  end.

(** One turn of a [while] loop that may leave through [break]. *)
Inductive turn (S : Type) :=
| Exit
| Continue (s : S)
| Stuck.
Arguments Exit {S}.
Arguments Continue {S} s.
Arguments Stuck {S}.

(** The variables of [extractProofs], with the number of clock readings
    taken so far. *)
Record proofScan := {
  pos : nat;
  proofs : list proofElement;
  usedIds : gset text;
  proofCounter : nat;
  ticks : nat
}.

Definition proofScan0 : proofScan :=
  {| pos := 0; proofs := []; usedIds := ∅; proofCounter := 0; ticks := 0 |}.

Section Extraction.
(** The callback of [processFiguresInContent], from the captured figure
    body to the figure block. *)
Variable figureInContentHTML : text -> text.
(** [Date.now()], by number of earlier readings. *)
Variable clock : nat -> nat.

Definition processFiguresInContent (content : text) : text :=
  replace_all m_figure_in_content (fun _ figContent _ => figureInContentHTML figContent) content.

(** The stable id of the proof starting at [startPos]. *)
Definition chooseStableId (txt : text) (startPos : nat) (optionalTitle : option text)
    (used : gset text) (counter : nat) : option text :=
  let textBefore := substring txt 0 startPos in
  let fuel := S (size used) in
  match find_match m_free_label textBefore, optionalTitle with
  | Some (_, label, _), _ =>
      let baseId := lit "proof-for-" ++ label in
      firstUnused fuel used baseId baseId 1
  | None, Some title =>
      let baseId := lit "proof-" ++ sanitize title in
      firstUnused fuel used baseId baseId 1
  | None, None => Some (lit "proof-num-" ++ decimal counter)
  end.

(** One turn of the outer loop of [extractProofs]. *)
Definition extractProofsTurn (txt : text) (st : proofScan) : turn proofScan :=
  if pos st <? length txt then
    match find_match m_begin_proof (substringFrom txt (pos st)) with
    | None => Exit
    | Some (index, optionalTitle, len) =>
        let startPos := pos st + index in
        match scanProofEnd (S (length txt)) txt 1 (startPos + len) with
        | None => Stuck
        | Some (depth, Some endPos) =>
            let full := substring txt startPos (endPos + length endProof) in
            let content := substring txt (startPos + len) endPos in
            let cleanContent := convertListsInContent (trim content) in
            let cleanContent := processFiguresInContent cleanContent in
            let nested := processNestedProofs clock (ticks st) cleanContent in
            match chooseStableId txt startPos optionalTitle (usedIds st) (proofCounter st) with
            | None => Stuck
            | Some stableId =>
                Continue
                  {| pos := endPos + length endProof;
                     proofs := proofs st ++
                       [ {| pf_title := default (lit "Proof") optionalTitle;
                            pf_content := nested;
                            pf_fullMatch := full;
                            pf_startIndex := startPos;
                            pf_proofNumber := proofCounter st;
                            pf_stableId := stableId |} ];
                     usedIds := {[ stableId ]} ∪ usedIds st;
                     proofCounter := S (proofCounter st);
                     ticks := ticks st + nestedProofCount cleanContent |}
            end
        | Some (depth, None) =>
            if 0 <? depth
            then Continue
                   {| pos := startPos + len; proofs := proofs st; usedIds := usedIds st;
                      proofCounter := proofCounter st; ticks := ticks st |}
            else Continue st
        end
    end
  else Exit.

Fixpoint extractProofsLoop (fuel : nat) (txt : text) (st : proofScan) : option proofScan :=
  match fuel with
  | O => None
  | S fuel' =>
      match extractProofsTurn txt st with
      | Exit => Some st
      | Continue st' => extractProofsLoop fuel' txt st'
      | Stuck => None
      end
  end.

(** [extractProofs]: the loop is given one turn per character and one
    more to leave; [None] would mean that a loop outran its fuel. *)
Definition extractProofsFrom (txt : text) (st : proofScan) : option proofScan :=
  extractProofsLoop (S (length txt)) txt st.

Definition extractProofs (txt : text) : option (list proofElement) :=
  proofs <$> extractProofsFrom txt proofScan0.
End Extraction.

(** ** parseAuxFile *)

Record labelEntry := {
  number : text;
  page : text;
  title : text;
  anchor : text
}.

(** [labelRegex]: [\newlabel], a braced non-empty label, an opening
    brace, a braced number and a braced page (either may be empty) and,
    optionally, a braced title followed by a braced anchor.  The captures
    are the label, the number, the page and, when present, the title and
    the anchor. *)
Definition m_newlabel : matcher (text * text * text * option (text * text)) := fun s =>
  r ← after (lit "\newlabel") s;
  '(label, r1) ← delimited1 "{" "}" r;
  r2 ← after (lit "{") r1;
  '(num, r3) ← delimited0 "{" "}" r2;
  '(pg, r4) ← delimited0 "{" "}" r3;
  let n := 9 + (length label + 2) + 1 + (length num + 2) + (length pg + 2) in
  let short := Some ((label, num, pg, None), n) in
  match delimited0 "{" "}" r4 with
  | Some (ttl, r5) =>
      match delimited0 "{" "}" r5 with
      | Some (anc, _) =>
          Some ((label, num, pg, Some (ttl, anc)), n + (length ttl + 2) + (length anc + 2))
      | None => short
      end
  | None => short
  end.

(** [/\\@input\{([^}]+)\}/] *)
Definition m_input : matcher text := fun s =>
  r ← after (lit "\@input") s;
  '(file, _) ← delimited1 "{" "}" r;
  Some (file, 7 + (length file + 2)).

(** [{ number, page, title: title || '', anchor: anchor || label }] *)
Definition mkEntry (label num pg : text) (extra : option (text * text)) : labelEntry :=
  {| number := num;
     page := pg;
     title := match extra with Some (ttl, _) => ttl | None => [] end;
     anchor := match extra with
               | Some (_, (_ :: _) as anc) => anc
               | _ => label
               end |}.

(** The [\newlabel] records of one file, in file order. *)
Definition recordsOf (content : text) : list (text * labelEntry) :=
  map (fun '(_, (label, num, pg, extra), _) => (label, mkEntry label num pg extra))
      (exec_all m_newlabel content).

(** The file names of the [\@input] directives of one file, in file order. *)
Definition inputsOf (content : text) : list text :=
  map (fun '(_, file, _) => file) (exec_all m_input content).

(** [labels[label] = ...] for every record of a list. *)
Definition addRecords (recs : list (text * labelEntry)) (labels : gmap text labelEntry)
  : gmap text labelEntry :=
  fold_left (fun acc '(label, entry) => <[label := entry]> acc) recs labels.

Section AuxFiles.
(** The file system: [fs p] is the content of the file at path [p], and
    [None] when [fs.existsSync(p)] is false. *)
Variable fs : text -> option text.
(** [path.dirname] and [path.join] of Node. *)
Variable path_dirname : text -> text.
Variable path_join : text -> text -> text.

(** One turn of the [\@input] loop. *)
Definition addChapter (auxDir : text) (labels : gmap text labelEntry) (chapterAuxFile : text)
  : gmap text labelEntry :=
  match fs (path_join auxDir chapterAuxFile) with
  | Some chapterContent => addRecords (recordsOf chapterContent) labels
  | None => labels
  end.


(** [parseAuxFile(auxPath).labels]; a missing or empty [auxPath] and a
    missing file give the empty table. *)
Definition parseAuxFile (auxPath : option text) : gmap text labelEntry :=
  match auxPath with
  | None | Some [] => ∅
  | Some auxPath =>
      match fs auxPath with
      | None => ∅
      | Some content =>
          let auxDir := path_dirname auxPath in
          let labels := addRecords (recordsOf content) ∅ in
          fold_left (addChapter auxDir) (inputsOf content) labels
      end
  end.
End AuxFiles.

(** ** Reading the label table

    [labels] is created as [{}], so [auxData.labels[label]] finds what
    the object holds and, failing that, what it inherits.  The table of
    the model holds the records assigned by [labels[label] = ...].  One
    of these assignments does not store a property: under the name
    [__proto__] it makes the record the prototype of [labels], which is
    read back under the same name, and whose four fields are then found
    under their names.  At the end of the chain is [Object.prototype]. *)

(** The names [Object.prototype] defines. *)
Definition objectPrototypeNames : list text :=
  map lit [ "constructor"; "__defineGetter__"; "__defineSetter__"; "hasOwnProperty";
            "__lookupGetter__"; "__lookupSetter__"; "isPrototypeOf"; "propertyIsEnumerable";
            "toString"; "valueOf"; "__proto__"; "toLocaleString" ]%string.

(** What [auxData.labels[label]] can be when it is not a falsy value: a
    stored record, or an inherited value (a function, an object or a
    non-empty string), on which [number] and [anchor] are [undefined]. *)
Inductive labelValue :=
| Stored (entry : labelEntry)
| Inherited.

(** The field of a record by its name. *)
Definition fieldOf (entry : labelEntry) (name : text) : option text :=
  if text_eqb name (lit "number") then Some (number entry)
  else if text_eqb name (lit "page") then Some (page entry)
  else if text_eqb name (lit "title") then Some (title entry)
  else if text_eqb name (lit "anchor") then Some (anchor entry)
  else None.

(** [auxData.labels[label]]; [None] stands for a falsy value, that is
    [undefined] or the empty string. *)
Definition labelsAt (labels : gmap text labelEntry) (label : text) : option labelValue :=
  match labels !! label with
  | Some entry => Some (Stored entry)
  | None =>
      match labels !! lit "__proto__" ≫= (fun proto => fieldOf proto label) with
      | Some (_ :: _) => Some Inherited
      | Some [] => None
      | None =>
          if bool_decide (label ∈ objectPrototypeNames) then Some Inherited else None
      end
  end.

(** [labelData.number] and [labelData.anchor]; [None] is [undefined]. *)
Definition numberOf (labelData : labelValue) : option text :=
  match labelData with
  | Stored entry => Some (number entry)
  | Inherited => None
  end.

Definition anchorOf (labelData : labelValue) : option text :=
  match labelData with
  | Stored entry => Some (anchor entry)
  | Inherited => None
  end.

(** A value that is a string or [undefined], as a template or
    [replace] turns it into a string. *)
Definition toText (v : option text) : text := default (lit "undefined") v.

(** ** The extractors of [convertLaTeXToHTML] *)

Fixpoint first_some {A B : Type} (f : A -> option B) (l : list A) : option B :=
  match l with
  | [] => None
  | x :: l' =>
      match f x with
      | Some y => Some y
      | None => first_some f l'
      end
  end.

Definition theoremTypes : list text :=
  map lit ["theorem"; "lemma"; "proposition"; "corollary"; "definition"; "example";
           "remark"; "conjecture"; "claim"; "fact"; "notation"; "axiom";
           "construction"; "exercise"; "problem"]%string.

(** [theoremRegex]: a [\begin] of one of [theoremTypes], an optional
    bracketed title, and the shortest body up to the [\end] of the same
    name.  The captures are the name, the title and the body. *)
Definition m_theorem : matcher (text * option text * text) := fun s =>
  first_some
    (fun env =>
       '((ttl, body), n) ← env_opt (lit "\begin{" ++ env ++ lit "}") (lit "\end{" ++ env ++ lit "}") s;
       Some ((env, ttl, body), n))
    theoremTypes.

(** [/\\label\{([^}]+)\}/] *)
Definition m_label : matcher text := fun s =>
  r ← after (lit "\label") s;
  '(l, _) ← delimited1 "{" "}" r;
  Some (l, 6 + (length l + 2)).

(** [sectionRegex]: a backslash, one of [section], [subsection],
    [subsubsection], an optional star and a braced non-empty title. *)
Definition m_section : matcher (text * text) := fun s =>
  first_some
    (fun level =>
       r ← after (lit "\" ++ level) s;
       let star := match r with "*"%char :: _ => 1 | _ => 0 end in
       '(ttl, _) ← delimited1 "{" "}" (drop star r);
       Some ((level, ttl), 1 + length level + star + (length ttl + 2)))
    (map lit ["section"; "subsection"; "subsubsection"]%string).

(** [figureRegex]: [\begin{figure}], optionally blanks and a bracketed
    placement (possibly empty), and the shortest body up to
    [\end{figure}]; the optional group is given up when no [\end{figure}]
    follows it. *)
Definition m_figure : matcher text := fun s =>
  r ← after beginFigure s;
  let plain :=
    '(c, n) ← lazy_until endFigure r;
    Some (c, length beginFigure + n) in
  let ws := take_while is_space r in
  match delimited0 "[" "]" (drop (length ws) r) with
  | Some (opt, r') =>
      match lazy_until endFigure r' with
      | Some (c, n) => Some (c, length beginFigure + (length ws + (length opt + 2)) + n)
      | None => plain
      end
  | None => plain
  end.

Definition extractSections (txt : text) : list sectionElement :=
  map (fun '(index, (level, ttl), full) =>
         {| sec_level := level; sec_title := ttl; sec_fullMatch := full; sec_startIndex := index |})
      (exec_all m_section txt).

Definition extractFigures (txt : text) : list figureElement :=
  map (fun '(index, content, full) =>
         {| fig_content := trim content; fig_fullMatch := full; fig_startIndex := index |})
      (exec_all m_figure txt).

Definition extractEnumerates (txt : text) : list enumerateElement :=
  map (fun '(index, (optionalType, content), full) =>
         {| en_listType := optionalType; en_content := trim content;
            en_fullMatch := full; en_startIndex := index |})
      (exec_all (env_opt beginEnumerate endEnumerate) txt).

Definition extractItemizes (txt : text) : list itemizeElement :=
  map (fun '(index, content, full) =>
         {| it_content := trim content; it_fullMatch := full; it_startIndex := index |})
      (exec_all (env_plain beginItemize endItemize) txt).

Section Theorems.
Variable figureInContentHTML : text -> text.
Variable labels : gmap text labelEntry.

(** One turn of the loop of [extractTheorems], on the counters per
    environment name and the list built so far. *)
Definition extractTheoremsTurn (st : gmap text nat * list theoremElement)
    (found : nat * (text * option text * text) * text)
  : gmap text nat * list theoremElement :=
  let '(typeCounts, theorems) := st in
  let '(index, (envName, optionalTitle, content), full) := found in
  let label := (fun '(_, l, _) => l) <$> find_match m_label content in
  let num :=
    match label with
    | Some l =>
        match labelsAt labels l with
        | Some labelData => numberOf labelData
        | None => Some (lit "?")
        end
    | None => Some (lit "?")
    end in
  let cleanContent := trim (replace_first m_label (fun _ _ => []) content) in
  let cleanContent := convertListsInContent cleanContent in
  let cleanContent := processFiguresInContent figureInContentHTML cleanContent in
  let count := S (default 0 (typeCounts !! envName)) in
  (<[envName := count]> typeCounts,
   theorems ++
     [ {| th_envName := envName; th_number := num; th_label := label;
          th_title := optionalTitle; th_content := cleanContent; th_fullMatch := full;
          th_startIndex := index; th_typeCount := count |} ]).

Definition extractTheorems (txt : text) : list theoremElement :=
  snd (fold_left extractTheoremsTurn (exec_all m_theorem txt) (∅, [])).
End Theorems.

(** ** The generators *)

Definition to_upper (c : ascii) : ascii :=
  if is_lower c then ascii_of_nat (nat_of_ascii c - 32) else c.

(** [s.charAt(0).toUpperCase() + s.slice(1)] *)
Definition capitalize (s : text) : text :=
  match s with
  | [] => []
  | c :: r => to_upper c :: r
  end.

(** The id under which the open state of a collapsible box is stored. *)
Definition collapsibleId (element : theoremElement) : text :=
  match th_label element, th_title element with
  | Some l, _ => lit "collapsible-" ++ l
  | None, Some ttl => lit "collapsible-" ++ th_envName element ++ lit "-" ++ sanitize ttl
  | None, None =>
      lit "collapsible-" ++ th_envName element ++ lit "-" ++ decimal (th_typeCount element)
  end.

Definition generateTheoremHTML (element : theoremElement) : text :=
  let envClass := th_envName element in
  let envLabel := capitalize (th_envName element) in
  let anchor :=
    default (th_envName element ++ lit "-" ++ toText (th_number element)) (th_label element) in
  let header :=
    lit "<strong>" ++ envLabel ++ lit " " ++ toText (th_number element) ++ lit "</strong>" ++
    match th_title element with
    | Some ttl => lit " (" ++ ttl ++ lit ")"
    | None => []
    end in
  if text_eqb (th_envName element) (lit "remark") || text_eqb (th_envName element) (lit "example")
  then
    let cid := collapsibleId element in
    lit "|<div class=`theorem-box " ++ envClass
    ++ lit "-box collapsible-box collapsed` id=`" ++ anchor
    ++ lit "` data-collapsible-id=`" ++ cid
    ++ lit "`>|  <div class=`theorem-header clickable` onclick=`toggleCollapsible('" ++ cid
    ++ lit "')`>|    <span class=`collapsible-icon`>▼</span>|    " ++ header
    ++ lit "|  </div>|  <div class=`theorem-content collapsible-content` id=`" ++ cid
    ++ lit "`>" ++ th_content element ++ lit "</div>|</div>|"
  else
    lit "|<div class=`theorem-box " ++ envClass ++ lit "-box` id=`" ++ anchor
    ++ lit "`>|  <div class=`theorem-header`>" ++ header
    ++ lit "</div>|  <div class=`theorem-content`>" ++ th_content element
    ++ lit "</div>|</div>|".

Definition generateProofHTML (element : proofElement) : text :=
  let proofId := pf_stableId element in
  lit "|<div class=`proof-box collapsed` data-proof-id=`" ++ proofId
  ++ lit "`>|  <div class=`proof-header`>|    <button class=`proof-toggle` onclick=`toggleProof('"
  ++ proofId
  ++ lit "')` aria-expanded=`false`>|      <span class=`proof-toggle-icon`>▼</span>|      <strong>"
  ++ pf_title element
  ++ lit "</strong>|    </button>|  </div>|  <div class=`proof-content` id=`" ++ proofId
  ++ lit "`>|    " ++ pf_content element
  ++ lit "|    <span class=`proof-end`>□</span>|  </div>|</div>|".

Definition generateSectionHTML (element : sectionElement) : text :=
  let tag :=
    if text_eqb (sec_level element) (lit "section") then lit "h2"
    else if text_eqb (sec_level element) (lit "subsection") then lit "h3"
    else if text_eqb (sec_level element) (lit "subsubsection") then lit "h4"
    else lit "h2" in
  lit "<" ++ tag ++ lit ">" ++ sec_title element ++ lit "</" ++ tag ++ lit ">".

Definition generateEnumerateHTML (element : enumerateElement) : text :=
  let content := itemsToLi (en_content element) in
  let listTag := lit "ol" in
  let typeAttr := listStyleAttr (en_listType element) in
  lit "<" ++ listTag ++ typeAttr ++ lit ">" ++ content ++ lit "</" ++ listTag ++ lit ">".

Definition generateItemizeHTML (element : itemizeElement) : text :=
  lit "<ul>" ++ itemsToLi (it_content element) ++ lit "</ul>".

(** ** Masking, merging and splicing in [convertLaTeXToHTML] *)

(** One turn of the masking loop: the span of [box] is blanked. *)
Definition maskBox (maskedText : text) (box : element) : text :=
  substring maskedText 0 (startIndex box)
  ++ spaces (length (fullMatch box))
  ++ substringFrom maskedText (startIndex box + length (fullMatch box)).

(** The masking loop runs over [allBoxes] from the last box to the first. *)
Definition maskBoxes (txt : text) (allBoxes : list element) : text :=
  fold_left maskBox (rev allBoxes) txt.

(** [array.sort((a, b) => a.startIndex - b.startIndex)]; the sort of the
    engine is stable. *)
Fixpoint insertByStart (e : element) (l : list element) : list element :=
  match l with
  | [] => [e]
  | x :: r => if startIndex e <=? startIndex x then e :: l else x :: insertByStart e r
  end.

Definition sortByStart (l : list element) : list element :=
  fold_right insertByStart [] l.

(** The four [console.error] lines of a skipped element. *)
Inductive diagnostic :=
| Mismatch (index : Z) (expected found : text).

(** The variables of the splice loop and the errors written so far. *)
Record splice := {
  html : text;
  offset : Z;
  errors : list diagnostic
}.

Section Splice.
(** The replacement chosen by the [type] of the element. *)
Variable generate : element -> text.

(** One turn of [for (const element of allElements)]. *)
Definition spliceTurn (st : splice) (element : element) : splice :=
  let index := (Z.of_nat (startIndex element) + offset st)%Z in
  let len := Z.of_nat (length (fullMatch element)) in
  let textAtPosition := substringZ (html st) index (index + len) in
  if text_eqb textAtPosition (fullMatch element) then
    let before := substringZ (html st) 0 index in
    let after := substringFromZ (html st) (index + len) in
    let replacement := generate element in
    {| html := before ++ replacement ++ after;
       offset := (offset st + (Z.of_nat (length replacement) - len))%Z;
       errors := errors st |}
  else
    {| html := html st;
       offset := offset st;
       errors := errors st ++ [Mismatch index (fullMatch element) textAtPosition] |}.

Definition spliceFrom (st : splice) (allElements : list element) : splice :=
  fold_left spliceTurn allElements st.

Definition spliceElements (texContent : text) (allElements : list element) : splice :=
  spliceFrom {| html := texContent; offset := 0; errors := [] |} allElements.
End Splice.

Section Convert.
Variable figureInContentHTML : text -> text.
(** [generateFigureHTML(element, imageBasePath)] *)
Variable generateFigureHTML : figureElement -> text.
Variable clock : nat -> nat.
Variable labels : gmap text labelEntry.

Definition generate (element : element) : text :=
  match element with
  | ElTheorem t => generateTheoremHTML t
  | ElProof p => generateProofHTML p
  | ElSection s => generateSectionHTML s
  | ElFigure f => generateFigureHTML f
  | ElEnumerate e => generateEnumerateHTML e
  | ElItemize i => generateItemizeHTML i
  end.

(** [maskedText], from the theorems and proofs found in [texContent]. *)
Definition maskedTextOf (texContent : text) (theorems : list theoremElement)
    (proofs : list proofElement) : text :=
  maskBoxes texContent (sortByStart (map ElTheorem theorems ++ map ElProof proofs)).

(** [allElements]: what the six extractors return, merged by start
    index.  The figures, theorems, proofs and sections are read from
    [texContent], the two kinds of lists from [maskedText]. *)
Definition collectElements (texContent : text) : option (list element) :=
  let figures := extractFigures texContent in
  let theorems := extractTheorems figureInContentHTML labels texContent in
  proofs ← extractProofs figureInContentHTML clock texContent;
  let sections := extractSections texContent in
  let maskedText := maskedTextOf texContent theorems proofs in
  let enumerates := extractEnumerates maskedText in
  let itemizes := extractItemizes maskedText in
  Some (sortByStart
          (map ElTheorem theorems ++ map ElProof proofs ++ map ElSection sections
           ++ map ElFigure figures ++ map ElEnumerate enumerates ++ map ElItemize itemizes)).

(** The text after the splice loop. *)
Definition spliceDocument (texContent : text) : option splice :=
  allElements ← collectElements texContent;
  Some (spliceElements generate texContent allElements).
End Convert.

(** ** The two reference passes *)

Definition refCommands : list text := map lit ["\ref"; "\eqref"; "\cref"; "\Cref"]%string.

(** [/\\(?:ref|eqref|cref|Cref)\{([^}]+)\}/] *)
Definition m_ref : matcher text := fun s =>
  first_some
    (fun cmd =>
       r ← after cmd s;
       '(l, _) ← delimited1 "{" "}" r;
       Some (l, length cmd + (length l + 2)))
    refCommands.

Definition mathNames : list text := map lit ["align"; "equation"; "gather"]%string.

(** [kw(?:align|equation|gather)[*]?\}] for [kw] one of [\begin{] and
    [\end{]. *)
Definition m_math_delim (kw : text) : matcher unit := fun s =>
  first_some
    (fun name =>
       r ← after (kw ++ name) s;
       match r with
       | "*"%char :: "}"%char :: _ => Some (tt, length kw + length name + 2)
       | "}"%char :: _ => Some (tt, length kw + length name + 1)
       | _ => None
       end)
    mathNames.

(** A display-math block: an opening delimiter and the shortest text
    through a closing delimiter; the names need not agree. *)
Definition m_math_block : matcher unit := fun s =>
  '(_, nb) ← m_math_delim (lit "\begin{") s;
  '(i, _, ne) ← find_match (m_math_delim (lit "\end{")) (drop nb s);
  Some (tt, nb + i + ne).

Section References.
Variable labels : gmap text labelEntry.

(** The callback of the pass over the math blocks. *)
Definition mathRef (label : text) : text :=
  match labelsAt labels label with
  | None => lit "[" ++ label ++ lit "?]"
  | Some labelData => toText (numberOf labelData)
  end.

(** The callback of [processReferences]. *)
Definition proseRef (label : text) : text :=
  match labelsAt labels label with
  | None =>
      lit "<span class=`ref-unknown` title=`Reference not found: " ++ label
      ++ lit "`>[" ++ label ++ lit "?]</span>"
  | Some labelData =>
      let number := numberOf labelData in
      let anchor := match anchorOf labelData with Some ((_ :: _) as a) => a | _ => label end in
      lit "<a href=`#" ++ anchor ++ lit "` class=`ref-link`>" ++ toText number ++ lit "</a>"
  end.

(** The first pass: the reference commands inside display math. *)
Definition mathReferences (html : text) : text :=
  replace_all m_math_block
    (fun _ _ mathBlock => replace_all m_ref (fun _ label _ => mathRef label) mathBlock)
    html.

Definition processReferences (txt : text) : text :=
  replace_all m_ref (fun _ label _ => proseRef label) txt.

(** The two passes in the order of [convertLaTeXToHTML]. *)
Definition linkReferences (html : text) : text :=
  processReferences (mathReferences html).
End References.

(** ** Statements about the splice loop *)

(** The elements lie in the text in list order without overlapping, from
    [cursor] on, and each records the text of its own span. *)
Fixpoint well_placed (txt : text) (cursor : nat) (els : list element) : Prop :=
  match els with
  | [] => True
  | e :: rest =>
      cursor <= startIndex e /\
      startIndex e + length (fullMatch e) <= length txt /\
      substring txt (startIndex e) (startIndex e + length (fullMatch e)) = fullMatch e /\
      well_placed txt (startIndex e + length (fullMatch e)) rest
  end.

(** The stretches of [txt] outside the spans of [els], from [cursor] on:
    one before each element and one after the last. *)
Fixpoint gapsOf (txt : text) (cursor : nat) (els : list element) : list text :=
  match els with
  | [] => [substringFrom txt cursor]
  | e :: rest =>
      substring txt cursor (startIndex e)
      :: gapsOf txt (startIndex e + length (fullMatch e)) rest
  end.

(** Gaps and fillings in alternation, starting and ending with a gap. *)
Fixpoint weave (gaps fillings : list text) : text :=
  match gaps, fillings with
  | g :: gaps', f :: fillings' => g ++ f ++ weave gaps' fillings'
  | g :: _, [] => g
  | [], _ => []
  end.

(** The invariant of the splice loop on well-placed elements: the working
    text is the output built so far followed by the unread rest of the
    original, and [offset] is the difference of their positions. *)
Definition in_step (txt : text) (done_ : text) (cursor : nat) (st : splice) : Prop :=
  html st = done_ ++ drop cursor txt /\
  offset st = (Z.of_nat (length done_) - Z.of_nat cursor)%Z /\
  cursor <= length txt.

(** The [type] field of an element. *)
Inductive elementType := TTheorem | TProof | TSection | TFigure | TEnumerate | TItemize.

Definition type (e : element) : elementType :=
  match e with
  | ElTheorem _ => TTheorem
  | ElProof _ => TProof
  | ElSection _ => TSection
  | ElFigure _ => TFigure
  | ElEnumerate _ => TEnumerate
  | ElItemize _ => TItemize
  end.

(** An element without its rendered content. *)
Definition outline (e : element) : elementType * nat * text :=
  (type e, startIndex e, fullMatch e).







(** ** Statements about reference commands *)

(** One of the texts [ps] starts at the head of [s]. *)
Definition occurs_at (ps : list text) (s : text) : bool :=
  existsb (fun p => startsWith p s) ps.

(** None of the texts [ps] occurs in [x]. *)
Definition free_of (ps : list text) (x : text) : bool :=
  forallb (fun p => negb (includes p x)) ps.

(** None of the texts [ps] starts inside [x] when [rest] follows it. *)
Definition quiet (ps : list text) (x rest : text) : Prop :=
  forall j, j < length x -> occurs_at ps (drop j x ++ rest) = false.












Section Linked.
Variable labels : gmap text labelEntry.







End Linked.

(** ** Statements about nested proofs *)

(** The body of a proof environment: text without proof delimiters,
    possibly followed by a nested proof (with its own body) and more
    body. *)
Inductive nesting :=
| Plain (filler : text)
| Nested (filler : text) (inner rest : nesting).

Fixpoint nestingSource (n : nesting) : text :=
  match n with
  | Plain f => f
  | Nested f inner rest =>
      f ++ beginProof ++ nestingSource inner ++ endProof ++ nestingSource rest
  end.

(** No filler holds a proof delimiter. *)
Fixpoint ok_nesting (n : nesting) : bool :=
  match n with
  | Plain f => free_of [beginProof; endProof] f
  | Nested f inner rest =>
      free_of [beginProof; endProof] f && ok_nesting inner && ok_nesting rest
  end.

(** The nesting depth of a body. *)
Fixpoint nestingDepth (n : nesting) : nat :=
  match n with
  | Plain _ => 0
  | Nested _ inner rest => Nat.max (S (nestingDepth inner)) (nestingDepth rest)
  end.

(** How the close of a proof at depth [depth], found at [endPos], goes on
    in [scanProofEnd]. *)
Definition closeAt (fuel : nat) (txt : text) (depth endPos : nat) : option (nat * option nat) :=
  if depth - 1 =? 0 then Some (depth - 1, Some endPos)
  else scanProofEnd fuel txt (depth - 1) (endPos + length endProof).

(** The ids in use are those of the proofs found, and two proofs share an
    id only if the later one took the numeric fallback. *)
Definition ids_tracked (st : proofScan) : Prop :=
  (forall x, x ∈ usedIds st <-> x ∈ map pf_stableId (proofs st)) /\
  (forall i j p q,
     i < j -> proofs st !! i = Some p -> proofs st !! j = Some q ->
     pf_stableId p = pf_stableId q ->
     pf_stableId q = lit "proof-num-" ++ decimal (pf_proofNumber q)).

(** ** Statements about spans *)

(** Position [i] lies in the source span of [e]. *)
Definition in_span (e : element) (i : nat) : Prop :=
  startIndex e <= i < startIndex e + length (fullMatch e).

(** The source span of [e] lies in a text of length [n]. *)
Definition within (n : nat) (e : element) : Prop :=
  startIndex e + length (fullMatch e) <= n.


(** ** Sample documents *)

(** A proof in a proof in a proof. *)
Definition proofInProofInProof : text :=
  lit "\begin{proof}a\begin{proof}b\begin{proof}c\end{proof}d\end{proof}e\end{proof}".

(** Its body: [a], a proof with body [b], a proof with body [c], [d], and
    then [e]. *)
Definition bodyOfThree : nesting :=
  Nested (lit "a") (Nested (lit "b") (Plain (lit "c")) (Plain (lit "d"))) (Plain (lit "e")).

(** A proof whose bracketed title holds an opening delimiter. *)
Definition delimiterInTitle : text :=
  lit "\begin{proof}[\begin{proof}]\end{proof} \end{proof}".


(** A figure in a proof. *)
Definition figureInProof : text :=
  lit "\begin{proof}\begin{figure}x\end{figure}\end{proof}".

(** A proof titled [num 1] followed by a proof without title or label. *)
Definition titledThenPlain : text :=
  lit "\begin{proof}[num 1]a\end{proof}\begin{proof}b\end{proof}".

(** An enumerate whose counter is set to 2 before its first item. *)
Definition enumerateFromThree : text :=
  lit "\begin{enumerate}\setcounter{enumi}{2}\item a\end{enumerate}".




(** Two section headers between plain text. *)
Definition twoSections : text := lit "ab\section{One}cd\subsection*{Two}ef".

Definition twoSectionElements : list element := map ElSection (extractSections twoSections).

(** A working text that does not hold the section header an element
    records at offset 2. *)
Definition driftedState : splice :=
  {| html := lit "abXsection{One}cd"; offset := 0; errors := [] |}.

Definition sectionOne : element :=
  ElSection {| sec_level := lit "section"; sec_title := lit "One";
               sec_fullMatch := lit "\section{One}"; sec_startIndex := 2 |}.

(** A label table with one entry, and a text of prose and display math
    that refers to it and to unknown labels. *)
Definition oneLabel : gmap text labelEntry :=
  {[ lit "e:1" := {| number := lit "1.2"; page := lit "3"; title := [];
                     anchor := lit "equation.1" |} ]}.


(** Prose and display math that refer to [constructor] and [toString],
    names of [Object.prototype], and to [zz]. *)
Definition inheritedReferences : text :=
  lit "See \ref{constructor} and \ref{zz}: \begin{align}x = \ref{toString} + \ref{zz}\end{align}".

(** Renderers and a label table for documents without figures or labels. *)
Definition noFigure : text -> text := fun _ => [].
Definition noTopFigure : figureElement -> text := fun _ => [].
Definition noLabels : gmap text labelEntry := ∅.

(** ** The envelope of the document

    [convertLaTeXToHTML] first cuts the preamble and everything from
    [\end{document}] on out of the text it has read. *)

Definition beginDocument : text := lit "\begin{document}".
Definition endDocument : text := lit "\end{document}".

(** [/\\documentclass[\s\S]*?\\begin\{document\}/] *)
Definition m_preamble : matcher unit := fun s =>
  r ← after (lit "\documentclass") s;
  '(_, n) ← lazy_until beginDocument r;
  Some (tt, 14 + n).

(** [/\\end\{document\}[\s\S]*$/]: from [\end{document}] through the end
    of the text. *)
Definition m_postamble : matcher unit := fun s =>
  _ ← after endDocument s;
  Some (tt, length s).

(** The two replacements applied to [texContent] before the extractors
    run; neither expression carries the [g] flag. *)
Definition stripEnvelope (texContent : text) : text :=
  let texContent := replace_first m_preamble (fun _ _ => []) texContent in
  replace_first m_postamble (fun _ _ => []) texContent.

(** ** The closing passes of [convertLaTeXToHTML] *)

(** [s.split(re)] for an expression without capture groups that consumes
    at least one character: the stretches between the matches, of which
    there is always one more than there are matches. *)
Fixpoint split_go {A : Type} (m : matcher A) (skip : nat) (s : text) : list text :=
  match s with
  | [] => [[]]
  | c :: s' =>
      match skip with
      | S j => split_go m j s'
      | O =>
          match m s with
          | Some (_, n) => [] :: split_go m (n - 1) s'
          | None =>
              match split_go m 0 s' with
              | piece :: pieces => (c :: piece) :: pieces
              | [] => [[c]]
              end
          end
      end
  end.

Definition split_all {A : Type} (m : matcher A) (s : text) : list text := split_go m 0 s.

(** [array.join(sep)] *)
Fixpoint join (sep : text) (l : list text) : text :=
  match l with
  | [] => []
  | [x] => x
  | x :: rest => x ++ sep ++ join sep rest
  end.

(** A callback that ignores the match, for a replacement string without
    dollar patterns. *)
Definition constant {A : Type} (replacement : text) : nat -> A -> text -> text :=
  fun _ _ _ => replacement.

(** A literal expression. *)
Definition m_literal (p : text) : matcher unit := fun s =>
  _ ← after p s;
  Some (tt, length p).

(** [s.replace(/literal/g, replacement)] *)
Definition replaceLiteral (p replacement : text) (s : text) : text :=
  replace_all (m_literal p) (constant replacement) s.

(** A command followed by blanks, as in [/\\noindent\s*/]. *)
Definition m_then_blanks (cmd : text) : matcher unit := fun s =>
  r ← after cmd s;
  Some (tt, length cmd + length (take_while is_space r)).

(** A command with a braced non-empty argument, as in
    [/\\emph\{([^}]+)\}/]; with [star], a star may stand before the brace,
    as in [/\\vspace\*?\{[^}]+\}/].  The argument is captured. *)
Definition m_braced (cmd : text) (star : bool) : matcher text := fun s =>
  r ← after cmd s;
  let st := match r with
            | "*"%char :: _ => if star then 1 else 0
            | _ => 0
            end in
  '(arg, _) ← delimited1 "{" "}" (drop st r);
  Some (arg, length cmd + st + (length arg + 2)).

(** [html.replace(/<figure[\s\S]*?<\/figure>/g, (match) => '\n\n' + match + '\n\n')] *)
Definition padFigures (html : text) : text :=
  replace_all (env_plain (lit "<figure") (lit "</figure>"))
    (fun _ _ whole => lit "||" ++ whole ++ lit "||") html.

(** [/\n\s*\n/]: a line feed, blanks and a line feed.  The run of blanks
    is greedy, so the match ends at the last line feed of the blanks that
    follow the first one. *)
Definition m_blank_line : matcher unit := fun s =>
  match s with
  | c :: r =>
      if Ascii.eqb c newline then
        match drop_while (not_char newline) (rev (take_while is_space r)) with
        | [] => None
        | upto => Some (tt, 1 + length upto)
        end
      else None
  | [] => None
  end.

(** [/^<(figure|h\d|div|ol|ul)/] *)
Definition isBlock (para : text) : bool :=
  match after (lit "<") para with
  | Some r =>
      startsWith (lit "figure") r
      || match after (lit "h") r with
         | Some (d :: _) => is_digit d
         | _ => false
         end
      || startsWith (lit "div") r
      || startsWith (lit "ol") r
      || startsWith (lit "ul") r
  | None => false
  end.

(** The callback of the last [map] of the paragraph pass. *)
Definition wrapParagraph (para : text) : text :=
  if isBlock para then para else lit "<p>" ++ para ++ lit "</p>".

(** [html.split(/\n\s*\n/).map(trim).filter(non-empty).map(wrap).join('\n')] *)
Definition paragraphs (html : text) : text :=
  join (lit "|")
    (map wrapParagraph
       (filter (fun para => 0 < length para) (map trim (split_all m_blank_line html)))).

(** The twenty umlaut replacements, in the order of the source: a
    backslash, a double quote and a vowel, bare or braced, become the
    vowel with a diaeresis. *)
Definition umlauts : list (text * text) :=
  [ (lit "\`o", lit "ö"); (lit "\`O", lit "Ö"); (lit "\`a", lit "ä"); (lit "\`A", lit "Ä");
    (lit "\`u", lit "ü"); (lit "\`U", lit "Ü"); (lit "\`i", lit "ï"); (lit "\`I", lit "Ï");
    (lit "\`e", lit "ë"); (lit "\`E", lit "Ë");
    (lit "\`{o}", lit "ö"); (lit "\`{O}", lit "Ö"); (lit "\`{a}", lit "ä");
    (lit "\`{A}", lit "Ä"); (lit "\`{u}", lit "ü"); (lit "\`{U}", lit "Ü");
    (lit "\`{i}", lit "ï"); (lit "\`{I}", lit "Ï"); (lit "\`{e}", lit "ë");
    (lit "\`{E}", lit "Ë") ].

(** [\w]: a letter, a digit or an underscore. *)
Definition is_word (c : ascii) : bool :=
  is_lower c || is_upper c || is_digit c || Ascii.eqb c "_".

(** [/\\sub\b/]: [\sub] not followed by a word character. *)
Definition m_sub : matcher unit := fun s =>
  r ← after (lit "\sub") s;
  match r with
  | c :: _ => if is_word c then None else Some (tt, 4)
  | [] => Some (tt, 4)
  end.

(** The inline markup [\cmd{...}] becomes [<tag>...</tag>]. *)
Definition inlineMarkup (cmd tag : text) (html : text) : text :=
  replace_all (m_braced cmd false)
    (fun _ arg _ => lit "<" ++ tag ++ lit ">" ++ arg ++ lit "</" ++ tag ++ lit ">") html.

(** The spacing and page commands, from [\begin{center}] to
    [\pagebreak]. *)
Definition layoutPasses (html : text) : text :=
  let html :=
    replace_all (env_plain (lit "\begin{center}") (lit "\end{center}"))
      (fun _ body _ => lit "<div style=`text-align: center;`>" ++ body ++ lit "</div>") html in
  let html :=
    replace_all (m_braced (lit "\vspace") true)
      (constant (lit "<div style=`margin: 1em 0;`></div>")) html in
  let html := replace_all (m_braced (lit "\hspace") false) (constant []) html in
  let html :=
    replace_all (m_then_blanks (lit "\noindent"))
      (constant (lit "<span class=`noindent`></span>")) html in
  let html := replaceLiteral (lit "\medskip") (lit "<br>") html in
  let html := replaceLiteral (lit "\bigskip") (lit "<br><br>") html in
  let html := replaceLiteral (lit "\newpage") [] html in
  let html := replaceLiteral (lit "\clearpage") [] html in
  replaceLiteral (lit "\pagebreak") [] html.

Definition umlautPasses (html : text) : text :=
  fold_left (fun html '(p, glyph) => replaceLiteral p glyph html) umlauts html.

Definition markupPasses (html : text) : text :=
  let html := inlineMarkup (lit "\emph") (lit "em") html in
  let html := inlineMarkup (lit "\textbf") (lit "strong") html in
  let html := inlineMarkup (lit "\textit") (lit "em") html in
  inlineMarkup (lit "\texttt") (lit "code") html.

(** [html.replace(/\\sub\b/g, '\\sub')] *)
Definition subPass (html : text) : text :=
  replace_all m_sub (constant (lit "\sub")) html.

(** Everything [convertLaTeXToHTML] does to [html] after
    [processReferences], up to the call of [generateHTMLDocument]. *)
Definition closingPasses (html : text) : text :=
  subPass (markupPasses (umlautPasses (layoutPasses (paragraphs (padFigures html))))).

Section Body.
Variable figureInContentHTML : text -> text.
Variable generateFigureHTML : figureElement -> text.
Variable clock : nat -> nat.
Variable labels : gmap text labelEntry.

(** The [bodyContent] handed to [generateHTMLDocument], from the text of
    the source file and the label table. *)
Definition bodyContent (texContent : text) : option text :=
  out ← spliceDocument figureInContentHTML generateFigureHTML clock labels
         (stripEnvelope texContent);
  Some (closingPasses (linkReferences labels (html out))).
End Body.

(** ** processImages and the file name of an image *)

(** The extensions of [/\.(png|jpg|jpeg|gif|svg|pdf)$/i]. *)
Definition imageExtensions : list text :=
  map lit [".png"; ".jpg"; ".jpeg"; ".gif"; ".svg"; ".pdf"]%string.

Definition hasImageExtension (filename : text) : bool :=
  existsb (fun ext => endsWith ext (toLowerCase filename)) imageExtensions.

(** [/\.pdf$/i] *)
Definition isPdf (filename : text) : bool := endsWith (lit ".pdf") (toLowerCase filename).

(** What [processImages], [generateFigureHTML] and
    [processFiguresInContent] each make of a captured file name: it is
    trimmed, given the extension [.png] when it has none of the known
    ones, and a final [.pdf] becomes [.png]. *)
Definition imageFile (filename : text) : text :=
  let cleanFilename := trim filename in
  let cleanFilename :=
    if hasImageExtension cleanFilename then cleanFilename else cleanFilename ++ lit ".png" in
  if isPdf cleanFilename
  then take (length cleanFilename - 4) cleanFilename ++ lit ".png"
  else cleanFilename.

(** [/\\includegraphics\s*(?:\[[^\]]*\])?\s*\{([^}]+)\}/]: the command,
    blanks, optionally bracketed options (possibly empty) and blanks, and
    a braced non-empty file name, which is captured. *)
Definition m_includegraphics : matcher text := fun s =>
  r ← after (lit "\includegraphics") s;
  let ws1 := take_while is_space r in
  let r1 := drop (length ws1) r in
  let '(nopt, r2) :=
    match delimited0 "[" "]" r1 with
    | Some (opt, r') => (length opt + 2, r')
    | None => (0, r1)
    end in
  let ws2 := take_while is_space r2 in
  '(filename, _) ← delimited1 "{" "}" (drop (length ws2) r2);
  Some (filename, 16 + length ws1 + nopt + length ws2 + (length filename + 2)).

Definition imageTag (cleanFilename : text) : text :=
  lit "<img src=`" ++ cleanFilename
  ++ lit "` alt=`Figure` class=`latex-image` onerror=`console.error('Failed to load image: "
  ++ cleanFilename ++ lit "'); this.style.border='2px solid red';`>".

Definition processImages (html : text) : text :=
  replace_all m_includegraphics (fun _ filename _ => imageTag (imageFile filename)) html.

(** ** getPathDepth and the path prefix of [generateHTMLDocument] *)

Section Paths.
(** [path.sep] *)
Variable sep : ascii.

(** [s.split(path.sep)] *)
Fixpoint splitPath (s : text) : list text :=
  match s with
  | [] => [[]]
  | c :: s' =>
      if Ascii.eqb c sep then [] :: splitPath s'
      else match splitPath s' with
           | part :: parts => (c :: part) :: parts
           | [] => [[c]]
           end
  end.

(** [parts.indexOf(name)] *)
Fixpoint indexOfPart (name : text) (parts : list text) : option nat :=
  match parts with
  | [] => None
  | part :: rest => if text_eqb part name then Some 0 else S <$> indexOfPart name rest
  end.

Definition getPathDepth (outputPath : text) : Z :=
  let parts := splitPath outputPath in
  match indexOfPart (lit "html_preview") parts with
  | None => 1
  | Some htmlPreviewIndex => Z.of_nat (length parts) - Z.of_nat htmlPreviewIndex - 2
  end%Z.

(** [pathPrefix] in [generateHTMLDocument]: [outputPath] may be missing
    or empty, and [repeat] throws a [RangeError], here [None], on a
    negative count. *)
Definition pathPrefix (outputPath : option text) : option text :=
  let depth :=
    match outputPath with
    | Some ((_ :: _) as p) => getPathDepth p
    | _ => 1%Z
    end in
  if (depth <? 0)%Z then None
  else Some (concat (replicate (Z.to_nat depth) (lit "../"))).

(** The path with the given components. *)
Definition joinPath (parts : list text) : text := join [sep] parts.
End Paths.

(** ** Statements about the passes *)

(** The alphabet of a slug: lower-case letters, digits and the dash. *)
Definition is_slug (c : ascii) : bool :=
  is_lower c || is_digit c || Ascii.eqb c "-".

(** The expression [m] matches nowhere in [s]. *)
Definition matchless {A : Type} (m : matcher A) (s : text) : Prop :=
  forall j, m (drop j s) = None.

(** A paragraph as the paragraph pass leaves it: not empty, no blank at
    either end and no blank line inside. *)
Definition ok_paragraph (para : text) : bool :=
  negb (text_eqb para []) && text_eqb (trim para) para
  && match find_match m_blank_line para with
     | None => true
     | Some _ => false
     end.

(** Prose: paragraphs without a backslash and without an opening angle
    bracket. *)
Definition ok_prose (para : text) : bool :=
  ok_paragraph para && forallb (fun c => not_char "\" c && not_char "<" c) para.

(** The items of a list environment: each [\item], the blanks after it
    and the text up to the next one. *)
Definition itemsSource (items : list (text * text)) : text :=
  concat (map (fun it => lit "\item" ++ fst it ++ snd it) items).

Definition itemsHTML (items : list (text * text)) : text :=
  concat (map (fun it => lit "<li>" ++ snd it ++ lit "</li>") items).

Definition ok_items (items : list (text * text)) : bool :=
  forallb (fun it => forallb is_space (fst it) && text_eqb (trimStart (snd it)) (snd it)
                     && free_of [lit "\item"] (snd it)) items
  && match last items with
     | Some it => negb (endsWith (lit "</li>") (snd it))
     | None => false
     end.

(** The source span an element records: where it starts and its raw
    text. *)
Definition span (e : element) : nat * text := (startIndex e, fullMatch e).

(** Where the cursor of the splice loop stands after the elements. *)
Definition cursorAfter (cursor : nat) (els : list element) : nat :=
  fold_left (fun _ e => startIndex e + length (fullMatch e)) els cursor.

(** The line of an aux file that defines a label, with and without the
    title and the anchor. *)
Definition newlabelLine (label : text) (entry : labelEntry) : text :=
  lit "\newlabel{" ++ label ++ lit "}{{" ++ number entry ++ lit "}{" ++ page entry
  ++ lit "}{" ++ title entry ++ lit "}{" ++ anchor entry ++ lit "}{}}|".

Definition ok_field (x : text) : bool := forallb (not_char "}") x.

Definition ok_record (r : text * labelEntry) : bool :=
  negb (text_eqb (fst r) []) && ok_field (fst r)
  && ok_field (number (snd r)) && ok_field (page (snd r)) && ok_field (title (snd r))
  && negb (text_eqb (anchor (snd r)) []) && ok_field (anchor (snd r)).

Definition auxSource (recs : list (text * labelEntry)) : text :=
  concat (map (fun r => newlabelLine (fst r) (snd r)) recs).

(** What the outer loop of [extractProofs] keeps true of the proofs found
    so far: they are well placed and end at or before the cursor, and the
    proof at index [i] carries the number [i]. *)
Definition proofs_placed (txt : text) (st : proofScan) : Prop :=
  well_placed txt 0 (map ElProof (proofs st)) /\
  cursorAfter 0 (map ElProof (proofs st)) <= pos st /\
  proofCounter st = length (proofs st) /\
  (forall i p, proofs st !! i = Some p -> pf_proofNumber p = i).

(** What the loop of [extractTheorems] keeps true of its counters and of
    the theorems found so far: no theorem carries a count above the
    counter of its environment, and of two theorems of one environment
    the later one carries the higher count. *)
Definition counts_ordered (st : gmap text nat * list theoremElement) : Prop :=
  (forall t, t ∈ snd st -> 0 < th_typeCount t <= default 0 (fst st !! th_envName t)) /\
  (forall i j t u,
     i < j -> snd st !! i = Some t -> snd st !! j = Some u ->
     th_envName t = th_envName u -> th_typeCount t < th_typeCount u).

(** ** Statements about proofs nested one level deep *)





(** ** Statements about a theorem-like environment *)

(** How the environments of [theoremTypes] open. *)
Definition theoremOpeners : list text :=
  map (fun env => lit "\begin{" ++ env ++ lit "}") theoremTypes.

(** A bracketed title is not empty and holds no closing bracket; without
    a title the body does not begin with a bracket. *)
Definition ok_title (ttl : option text) (body : text) : bool :=
  match ttl with
  | Some t => negb (text_eqb t []) && forallb (not_char "]") t
  | None =>
      match body with
      | "["%char :: _ => false
      | _ => true
      end
  end.

(** A theorem-like environment: its name, its optional title and its
    body. *)
Definition theoremSource (env : text) (ttl : option text) (body : text) : text :=
  (lit "\begin{" ++ env ++ lit "}")
  ++ match ttl with
     | Some t => lit "[" ++ t ++ lit "]"
     | None => []
     end
  ++ body ++ (lit "\end{" ++ env ++ lit "}").

(** A body with a label: the text before the label, the label and the
    text behind it. *)
Definition labelledBody (before label behind : text) : text :=
  before ++ lit "\label{" ++ label ++ lit "}" ++ behind.

(** ** Statements about inline markup *)

(** The four commands of the markup passes with their tags, in the order
    of the source. *)
Definition markups : list (text * text) :=
  [ (lit "\emph", lit "em"); (lit "\textbf", lit "strong"); (lit "\textit", lit "em");
    (lit "\texttt", lit "code") ].

(** Stretches of text, each followed by the command [cmd] with an
    argument, and the text after the last. *)
Definition markupSource (cmd : text) (segs : list (text * text)) (ending : text) : text :=
  concat (map (fun seg => fst seg ++ cmd ++ lit "{" ++ snd seg ++ lit "}") segs) ++ ending.

Definition markupOutput (tag : text) (segs : list (text * text)) (ending : text) : text :=
  concat (map (fun seg => fst seg ++ lit "<" ++ tag ++ lit ">" ++ snd seg
                          ++ lit "</" ++ tag ++ lit ">") segs)
  ++ ending.

(** * Properties *)

(** ** Prefixes, occurrences and runs *)

Lemma startsWith_app (p r : text) : startsWith p (p ++ r) = true.
Proof.
  induction p as [|a p IH]; simpl; [done|].
  by rewrite Ascii.eqb_refl, IH.
Qed.

Lemma startsWith_inv (p s : text) :
  startsWith p s = true -> s = p ++ drop (length p) s.
Proof.
  revert s; induction p as [|a p IH]; intros [|b s]; simpl; try done.
  intros [Hab Hps]%andb_true_iff.
  apply Ascii.eqb_eq in Hab as ->. f_equal. by apply IH.
Qed.

Lemma startsWith_length (p s : text) :
  startsWith p s = true -> length p <= length s.
Proof.
  intros H%startsWith_inv. rewrite H, length_app. lia.
Qed.

Lemma after_Some (p s r : text) : after p s = Some r -> s = p ++ r.
Proof.
  unfold after. destruct (startsWith p s) eqn:E; [|done].
  intros [= <-]. by apply startsWith_inv.
Qed.

Lemma after_app (p r : text) : after p (p ++ r) = Some r.
Proof.
  unfold after. rewrite startsWith_app. by rewrite drop_app_length.
Qed.

Lemma take_while_drop (p : ascii -> bool) (s : text) :
  s = take_while p s ++ drop (length (take_while p s)) s.
Proof.
  induction s as [|c s IH]; simpl; [done|].
  destruct (p c); simpl; [by f_equal|done].
Qed.

Lemma take_while_length (p : ascii -> bool) (s : text) :
  length (take_while p s) <= length s.
Proof.
  induction s as [|c s IH]; simpl; [done|]. destruct (p c); simpl; lia.
Qed.

Lemma take_while_Forall (p : ascii -> bool) (s : text) :
  Forall (fun c => p c = true) (take_while p s).
Proof.
  induction s as [|c s IH]; simpl; [constructor|].
  destruct (p c) eqn:E; [by constructor|constructor].
Qed.

Lemma delimited1_Some (o c : ascii) (s t rest : text) :
  delimited1 o c s = Some (t, rest) ->
  s = o :: t ++ c :: rest /\ t <> [] /\ Forall (fun x => x <> c) t.
Proof.
  unfold delimited1. destruct s as [|a r]; [done|].
  destruct (Ascii.eqb a o) eqn:Ea; [|done]. apply Ascii.eqb_eq in Ea as ->.
  pose proof (take_while_drop (not_char c) r) as Hsplit.
  pose proof (take_while_Forall (not_char c) r) as Hall.
  destruct (take_while (not_char c) r) as [|x t'] eqn:Et; [done|].
  destruct (drop (length (x :: t')) r) as [|d rest'] eqn:Ed; [done|].
  destruct (Ascii.eqb d c) eqn:Edc; [|done]. apply Ascii.eqb_eq in Edc as ->.
  intros [= <- <-]. split_and!; [by rewrite Hsplit at 1|done|].
  eapply Forall_impl; [exact Hall|]. intros y Hy ->.
  unfold not_char in Hy. by rewrite Ascii.eqb_refl in Hy.
Qed.

Lemma substring_from_to (s : text) (a b : nat) :
  a <= b -> substring s a b = take (b - a) (drop a s).
Proof.
  intros H. unfold substring. by rewrite Nat.max_r, Nat.min_l by lia.
Qed.

Lemma indexOf_bound (p s : text) (i : nat) :
  indexOf p s = Some i -> i + length p <= length s.
Proof.
  revert i; induction s as [|c s IH]; intros i; simpl.
  - destruct (startsWith p []) eqn:E; [|done].
    intros [= <-]. apply startsWith_length in E. simpl in *. lia.
  - destruct (startsWith p (c :: s)) eqn:E.
    + intros [= <-]. apply startsWith_length in E. simpl in *. lia.
    + destruct (indexOf p s) as [j|]; [|done]. intros [= <-].
      specialize (IH j eq_refl). simpl. lia.
Qed.

Lemma indexOf_startsWith (p s : text) (i : nat) :
  indexOf p s = Some i -> startsWith p (drop i s) = true.
Proof.
  revert i; induction s as [|c s IH]; intros i; simpl.
  - destruct (startsWith p []) eqn:E; [|done]. by intros [= <-].
  - destruct (startsWith p (c :: s)) eqn:E.
    + by intros [= <-].
    + destruct (indexOf p s) as [j|]; [|done]. intros [= <-]. by apply IH.
Qed.

Lemma indexOf_first (p s : text) (i j : nat) :
  indexOf p s = Some i -> j < i -> startsWith p (drop j s) = false.
Proof.
  revert i j; induction s as [|c s IH]; intros i j; simpl.
  - destruct (startsWith p []) eqn:E; [|done]. intros [= <-]. lia.
  - destruct (startsWith p (c :: s)) eqn:E.
    + intros [= <-]. lia.
    + destruct (indexOf p s) as [k|] eqn:Ek; [|done]. intros [= <-] Hj.
      destruct j as [|j]; [done|]. simpl. apply (IH k); [done|lia].
Qed.

Lemma indexOf_None (p s : text) (j : nat) :
  indexOf p s = None -> startsWith p (drop j s) = false.
Proof.
  revert j; induction s as [|c s IH]; intros j; simpl.
  - destruct (startsWith p []) eqn:E; [done|]. by rewrite drop_nil.
  - destruct (startsWith p (c :: s)) eqn:E; [done|].
    destruct (indexOf p s) as [k|] eqn:Ek; [done|]. intros _.
    destruct j as [|j]; [done|]. simpl. by apply IH.
Qed.

Section ScanFacts.
Context {A : Type} (m : matcher A).

Lemma find_match_Some (s : text) (i : nat) (a : A) (n : nat) :
  find_match m s = Some (i, a, n) ->
  i <= length s /\ m (drop i s) = Some (a, n) /\ forall j, j < i -> m (drop j s) = None.
Proof.
  revert i; induction s as [|c s IH]; intros i; simpl.
  - destruct (m []) as [[a' n']|] eqn:E; [|done].
    intros [= <- <- <-]. split_and!; [done|done|lia].
  - destruct (m (c :: s)) as [[a' n']|] eqn:E.
    + intros [= <- <- <-]. split_and!; [lia|done|lia].
    + destruct (find_match m s) as [[[k a'] n']|] eqn:Ek; [|done].
      intros [= <- <- <-]. destruct (IH k eq_refl) as (Hk & Hm & Hfirst).
      split_and!; [simpl; lia|done|].
      intros [|j] Hj; [done|]. simpl. apply Hfirst. lia.
Qed.

Lemma find_match_None (s : text) (j : nat) :
  find_match m s = None -> j <= length s -> m (drop j s) = None.
Proof.
  revert j; induction s as [|c s IH]; intros j; simpl.
  - destruct (m []) as [[a' n']|] eqn:E; [done|]. by rewrite drop_nil.
  - destruct (m (c :: s)) as [[a' n']|] eqn:E; [done|].
    destruct (find_match m s) as [[[k a'] n']|] eqn:Ek; [done|]. intros _ Hj.
    destruct j as [|j]; [done|]. simpl. apply IH; [done|lia].
Qed.
End ScanFacts.

(** ** Termination of [extractProofs] *)

Lemma decimal_inj (a b : nat) : decimal a = decimal b -> a = b.
Proof.
  unfold decimal. intros H.
  apply (f_equal string_of_list_ascii) in H.
  rewrite !string_of_list_ascii_of_string in H.
  apply (f_equal NilEmpty.uint_of_string) in H.
  rewrite !NilEmpty.usu in H. injection H as H.
  by apply Unsigned.to_uint_inj.
Qed.

Lemma beginProof_length : length beginProof = 13.
Proof. reflexivity. Qed.

Lemma endProof_length : length endProof = 11.
Proof. reflexivity. Qed.

Ltac token_lia :=
  pose proof beginProof_length; pose proof endProof_length; lia.

Lemma m_begin_proof_bound (s : text) (t : option text) (n : nat) :
  m_begin_proof s = Some (t, n) -> length beginProof <= n <= length s.
Proof.
  unfold m_begin_proof. destruct (after beginProof s) as [r|] eqn:Er; [|done].
  apply after_Some in Er as ->. rewrite length_app.
  destruct (delimited1 "[" "]" r) as [[t' rest]|] eqn:Ed.
  - apply delimited1_Some in Ed as (-> & _ & _). intros [= <- <-].
    rewrite length_cons, length_app, length_cons.
    token_lia.
  - intros [= <- <-]. token_lia.
Qed.

(** The suffix scanned by the inner loop shrinks at every turn, so one unit
    of fuel per remaining character is enough. *)
Lemma scanProofEnd_total (fuel : nat) (txt : text) (depth searchPos : nat) :
  length txt - searchPos < fuel -> is_Some (scanProofEnd fuel txt depth searchPos).
Proof.
  revert depth searchPos; induction fuel as [|fuel IH]; intros depth sp Hf; [lia|].
  simpl. destruct ((0 <? depth) && (sp <? length txt)) eqn:Ec; [|by eexists].
  apply andb_true_iff in Ec as [_ Hsp%Nat.ltb_lt].
  unfold substringFrom.
  destruct (indexOf endProof (drop sp txt)) as [e|] eqn:Ee; [|by eexists].
  destruct (indexOf beginProof (drop sp txt)) as [b|] eqn:Eb; simpl.
  - destruct (b <? e).
    + apply IH. token_lia.
    + destruct (depth - 1 =? 0); [by eexists|]. apply IH. token_lia.
  - destruct (depth - 1 =? 0); [by eexists|]. apply IH. token_lia.
Qed.

(** What the inner loop hands back: either the position of a closing
    [\end{proof}] lying inside the text at or after [searchPos], with depth
    0, or a positive depth. *)
Lemma scanProofEnd_result (fuel : nat) (txt : text) (depth searchPos d : nat) (r : option nat) :
  0 < depth ->
  scanProofEnd fuel txt depth searchPos = Some (d, r) ->
  match r with
  | Some endPos => d = 0 /\ searchPos <= endPos /\ endPos + length endProof <= length txt
  | None => 0 < d
  end.
Proof.
  revert depth searchPos; induction fuel as [|fuel IH]; intros depth sp Hd; [done|].
  simpl. destruct ((0 <? depth) && (sp <? length txt)) eqn:Ec; [|by intros [= <- <-]].
  apply andb_true_iff in Ec as [_ Hsp%Nat.ltb_lt].
  unfold substringFrom.
  destruct (indexOf endProof (drop sp txt)) as [e|] eqn:Ee; [|by intros [= <- <-]].
  pose proof (indexOf_bound _ _ _ Ee) as Hbe. rewrite length_drop in Hbe.
  assert (Hclose :
    (if depth - 1 =? 0 then Some (depth - 1, Some (sp + e))
     else scanProofEnd fuel txt (depth - 1) (sp + e + length endProof)) = Some (d, r) ->
    match r with
    | Some endPos => d = 0 /\ sp <= endPos /\ endPos + length endProof <= length txt
    | None => 0 < d
    end).
  { destruct (depth - 1 =? 0) eqn:E0.
    - apply Nat.eqb_eq in E0. intros [= <- <-]. split_and!; token_lia.
    - apply Nat.eqb_neq in E0. intros H. apply IH in H; [|token_lia].
      destruct r as [endPos|]; [|done]. token_lia. }
  destruct (indexOf beginProof (drop sp txt)) as [b|] eqn:Eb; simpl; [|done].
  destruct (b <? e); [|done].
  intros H. apply IH in H; [|token_lia]. destruct r as [endPos|]; [|done]. token_lia.
Qed.

(** The position the inner loop hands back is that of an [\end{proof}]. *)
Lemma scanProofEnd_closes (fuel : nat) (txt : text) (depth searchPos d endPos : nat) :
  0 < depth ->
  scanProofEnd fuel txt depth searchPos = Some (d, Some endPos) ->
  startsWith endProof (drop endPos txt) = true.
Proof.
  revert depth searchPos; induction fuel as [|fuel IH]; intros depth sp Hd; [done|].
  simpl. destruct ((0 <? depth) && (sp <? length txt)) eqn:Ec; [|done].
  unfold substringFrom.
  destruct (indexOf endProof (drop sp txt)) as [e|] eqn:Ee; [|done].
  assert (Hclose :
    (if depth - 1 =? 0 then Some (depth - 1, Some (sp + e))
     else scanProofEnd fuel txt (depth - 1) (sp + e + length endProof)) = Some (d, Some endPos) ->
    startsWith endProof (drop endPos txt) = true).
  { destruct (depth - 1 =? 0) eqn:E0.
    - intros [= <- <-]. apply indexOf_startsWith in Ee. by rewrite drop_drop in Ee.
    - apply Nat.eqb_neq in E0. apply IH. lia. }
  destruct (indexOf beginProof (drop sp txt)) as [b|] eqn:Eb; simpl; [|done].
  destruct (b <? e); [|done]. apply IH. lia.
Qed.

(** The disambiguation loop ends: its candidates are pairwise distinct, so
    it cannot find more of them in [usedIds] than the set holds. *)
Lemma firstUnused_total_gen (used seen : gset text) (base : text) :
  forall (fuel : nat) (cur : text) (counter : nat),
    seen ⊆ used ->
    (forall k, counter <= k ->
       base ++ lit "-" ++ decimal k <> cur /\ base ++ lit "-" ++ decimal k ∉ seen) ->
    cur ∉ seen ->
    size used < fuel + size seen ->
    exists id, firstUnused fuel used base cur counter = Some id /\ id ∉ used.
Proof.
  intros fuel; revert seen; induction fuel as [|fuel IH]; intros seen cur counter Hsub Hfresh Hcur Hsz.
  - apply subseteq_size in Hsub. lia.
  - cbn [firstUnused]. case_bool_decide as Hin; [|by eexists].
    destruct (Hfresh counter) as [Hne Hns]; [lia|].
    apply (IH ({[ cur ]} ∪ seen)).
    + apply union_subseteq. split; [by apply singleton_subseteq_l|done].
    + intros k Hk. split.
      * intros Heq. apply app_inv_head, app_inv_head, decimal_inj in Heq. lia.
      * destruct (Hfresh k) as [Hne' Hns']; [lia|].
        apply not_elem_of_union. split; [by apply not_elem_of_singleton|done].
    + apply not_elem_of_union. split; [by apply not_elem_of_singleton|done].
    + rewrite size_union by (by apply disjoint_singleton_l).
      rewrite size_singleton. lia.
Qed.

Lemma firstUnused_total (used : gset text) (base : text) :
  exists id, firstUnused (S (size used)) used base base 1 = Some id /\ id ∉ used.
Proof.
  apply (firstUnused_total_gen used ∅).
  - apply empty_subseteq.
  - intros k _. split; [|apply not_elem_of_empty].
    intros Heq. apply (f_equal length) in Heq.
    rewrite !length_app in Heq. change (length (lit "-")) with 1 in Heq. lia.
  - apply not_elem_of_empty.
  - rewrite size_empty. lia.
Qed.

Section ExtractionTerminates.
Variable figureInContentHTML : text -> text.
Variable clock : nat -> nat.

Lemma chooseStableId_total (txt : text) (startPos : nat) (title : option text)
    (used : gset text) (counter : nat) :
  is_Some (chooseStableId txt startPos title used counter).
Proof.
  unfold chooseStableId.
  destruct (find_match m_free_label (substring txt 0 startPos)) as [[[i l] n]|].
  - destruct (firstUnused_total used (lit "proof-for-" ++ l)) as (id & -> & _). by eexists.
  - destruct title as [t|]; [|by eexists].
    destruct (firstUnused_total used (lit "proof-" ++ sanitize t)) as (id & -> & _).
    by eexists.
Qed.

(** A turn of the outer loop never runs out of fuel, and when it goes on
    the cursor has moved forward and is still inside the text. *)
Lemma extractProofsTurn_progress (txt : text) (st : proofScan) :
  match extractProofsTurn figureInContentHTML clock txt st with
  | Exit => True
  | Continue st' => pos st < pos st' <= length txt
  | Stuck => False
  end.
Proof.
  unfold extractProofsTurn.
  destruct (pos st <? length txt) eqn:Hpos; [|done]. apply Nat.ltb_lt in Hpos.
  unfold substringFrom.
  destruct (find_match m_begin_proof (drop (pos st) txt)) as [[[index title] len]|] eqn:Ef;
    [|done].
  apply find_match_Some in Ef as (Hindex & Hm & _).
  apply m_begin_proof_bound in Hm.
  rewrite length_drop in Hindex. rewrite !length_drop in Hm.
  destruct (scanProofEnd_total (S (length txt)) txt 1 (pos st + index + len))
    as [[d r] Hscan]; [lia|].
  rewrite Hscan. apply scanProofEnd_result in Hscan; [|lia].
  destruct r as [endPos|].
  - destruct (chooseStableId_total txt (pos st + index) title (usedIds st) (proofCounter st))
      as [id ->].
    cbn [pos]. token_lia.
  - destruct (0 <? d) eqn:Ed; [|apply Nat.ltb_ge in Ed; lia].
    cbn [pos]. token_lia.
Qed.

(** A turn that goes on either pushes one proof, which starts at or after
    the cursor and ends, with its [\end{proof}], where the new cursor
    stands; or it pushes nothing and the new cursor stands behind the
    [\begin{proof}] it met. *)
Lemma extractProofsTurn_shape (txt : text) (st st' : proofScan) :
  extractProofsTurn figureInContentHTML clock txt st = Continue st' ->
  (exists p, proofs st' = proofs st ++ [p] /\ pos st <= pf_startIndex p /\
             pos st' = pf_startIndex p + length (pf_fullMatch p) /\
             endsWith endProof (pf_fullMatch p) = true) \/
  (proofs st' = proofs st /\
   exists index ttl len,
     find_match m_begin_proof (substringFrom txt (pos st)) = Some (index, ttl, len) /\
     pos st' = pos st + index + len).
Proof.
  unfold extractProofsTurn.
  destruct (pos st <? length txt) eqn:Hpos; [|done]. apply Nat.ltb_lt in Hpos.
  destruct (find_match m_begin_proof (substringFrom txt (pos st))) as [[[index ttl] len]|] eqn:Ef;
    [|done].
  pose proof Ef as Ef'. unfold substringFrom in Ef'.
  apply find_match_Some in Ef' as (Hindex & Hm & _). rewrite length_drop in Hindex.
  apply m_begin_proof_bound in Hm.
  destruct (scanProofEnd (S (length txt)) txt 1 (pos st + index + len)) as [[d r]|] eqn:Hscan;
    [|done].
  pose proof Hscan as Hres. apply scanProofEnd_result in Hres; [|lia].
  destruct r as [endPos|].
  - destruct (chooseStableId txt (pos st + index) ttl (usedIds st) (proofCounter st));
      [|done].
    intros [= <-]. left. eexists. cbn [proofs pos]. split; [reflexivity|].
    cbn [pf_startIndex pf_fullMatch]. split; [lia|].
    rewrite substring_from_to by token_lia. split.
    + rewrite length_take, length_drop. token_lia.
    + apply scanProofEnd_closes in Hscan; [|lia].
      replace (endPos + 11 - (pos st + index))
        with ((endPos - (pos st + index)) + length endProof) by token_lia.
      rewrite <- take_take_drop. rewrite drop_drop.
      replace (pos st + index + (endPos - (pos st + index))) with endPos by token_lia.
      apply startsWith_inv in Hscan. rewrite Hscan at 1. rewrite take_app_length.
      unfold endsWith. rewrite rev_app_distr. apply startsWith_app.
  - destruct (0 <? d) eqn:Ed; [|apply Nat.ltb_ge in Ed; lia].
    intros [= <-]. right. cbn [proofs pos]. split; [done|]. by exists index, ttl, len.
Qed.

Lemma extractProofsLoop_total (txt : text) (fuel : nat) (st : proofScan) :
  length txt - pos st < fuel ->
  is_Some (extractProofsLoop figureInContentHTML clock fuel txt st).
Proof.
  revert st; induction fuel as [|fuel IH]; intros st Hf; [lia|].
  cbn [extractProofsLoop].
  pose proof (extractProofsTurn_progress txt st) as Hturn.
  destruct (extractProofsTurn figureInContentHTML clock txt st) as [|st'|];
    [by eexists|apply IH; lia|done].
Qed.
End ExtractionTerminates.

(** C10 — [extractProofs] terminates on every input string.  Every turn of
    the outer scan that goes on has moved the cursor strictly forward,
    without leaving the text: behind the [\end{proof}] that ends the proof
    it extracted, or, when it extracted nothing, behind the
    [\begin{proof}] it met.  A turn that finds no further [\begin{proof}]
    leaves the loop; no inner loop outruns its fuel; and so the scan
    returns a list of proofs whatever the text: unterminated or deeply
    nested proof markup cannot make it loop for ever. *)
Theorem extractProofs_terminates
    (figureInContentHTML : text -> text) (clock : nat -> nat) (txt : text) :
  (forall st st',
     extractProofsTurn figureInContentHTML clock txt st = Continue st' ->
     pos st < pos st' <= length txt /\
     ((exists p, proofs st' = proofs st ++ [p] /\ pos st <= pf_startIndex p /\
                 pos st' = pf_startIndex p + length (pf_fullMatch p) /\
                 endsWith endProof (pf_fullMatch p) = true) \/
      (proofs st' = proofs st /\
       exists index ttl len,
         find_match m_begin_proof (substringFrom txt (pos st)) = Some (index, ttl, len) /\
         pos st' = pos st + index + len))) /\
  (forall st,
     find_match m_begin_proof (substringFrom txt (pos st)) = None ->
     extractProofsTurn figureInContentHTML clock txt st = Exit) /\
  (forall st, extractProofsTurn figureInContentHTML clock txt st <> Stuck) /\
  (forall st, is_Some (extractProofsFrom figureInContentHTML clock txt st)) /\
  is_Some (extractProofs figureInContentHTML clock txt).
Proof.
  split_and!.
  - intros st st' H. split.
    + pose proof (extractProofsTurn_progress figureInContentHTML clock txt st) as Hp.
      by rewrite H in Hp.
    + by apply (extractProofsTurn_shape figureInContentHTML clock).
  - intros st H. unfold extractProofsTurn. rewrite H. by destruct (pos st <? length txt).
  - intros st H.
    pose proof (extractProofsTurn_progress figureInContentHTML clock txt st) as Hp.
    by rewrite H in Hp.
  - intros st. apply extractProofsLoop_total. lia.
  - unfold extractProofs.
    destruct (extractProofsLoop_total figureInContentHTML clock txt (S (length txt)) proofScan0)
      as [final Hfinal]; [lia|].
    unfold extractProofsFrom. rewrite Hfinal. by eexists.
Qed.

(** ** The label table *)




Section AuxFacts.
Variable fs : text -> option text.
Variable path_dirname : text -> text.
Variable path_join : text -> text -> text.


End AuxFacts.




(** ** The splice loop *)

Section SpliceFacts.
Variable generate : element -> text.

Lemma spliceTurn_placed (txt done_ : text) (cursor : nat) (st : splice) (e : element) :
  in_step txt done_ cursor st ->
  cursor <= startIndex e ->
  startIndex e + length (fullMatch e) <= length txt ->
  substring txt (startIndex e) (startIndex e + length (fullMatch e)) = fullMatch e ->
  let st' := spliceTurn generate st e in
  in_step txt (done_ ++ substring txt cursor (startIndex e) ++ generate e)
    (startIndex e + length (fullMatch e)) st' /\
  errors st' = errors st.
Proof.
  intros (Hhtml & Hoff & Hcur) Hle Hin Hraw.
  rewrite substring_from_to in Hraw by lia.
  replace (startIndex e + length (fullMatch e) - startIndex e)
    with (length (fullMatch e)) in Hraw by lia.
  rewrite substring_from_to by lia.
  set (s := startIndex e) in *. set (n := length (fullMatch e)) in *.
  assert (Hidx : Z.to_nat (Z.of_nat s + offset st) = length done_ + (s - cursor)) by lia.
  assert (Hend : Z.to_nat (Z.of_nat s + offset st + Z.of_nat n)
                 = length done_ + (s - cursor) + n) by lia.
  assert (Hat : substringZ (html st) (Z.of_nat s + offset st)
                  (Z.of_nat s + offset st + Z.of_nat n) = fullMatch e).
  { unfold substringZ. rewrite Hidx, Hend, substring_from_to by lia.
    rewrite Hhtml, drop_app_add, drop_drop.
    replace (cursor + (s - cursor)) with s by lia.
    replace (length done_ + (s - cursor) + n - (length done_ + (s - cursor))) with n by lia.
    done. }
  unfold spliceTurn. fold s n. rewrite Hat.
  unfold text_eqb. rewrite bool_decide_eq_true_2 by done.
  split; [|done].
  unfold in_step. cbn [html offset errors]. split_and!.
  - unfold substringZ, substringFromZ. rewrite Hidx, Hend.
    rewrite substring_from_to by lia. rewrite drop_0, Nat.sub_0_r.
    replace (length done_ + (s - cursor) + n) with (length done_ + (s - cursor + n)) by lia.
    rewrite Hhtml, take_app_add, drop_app_add, drop_drop.
    replace (cursor + (s - cursor + n)) with (s + n) by lia.
    by rewrite <- !app_assoc.
  - rewrite !length_app, length_take, length_drop. lia.
  - lia.
Qed.

Lemma spliceFrom_placed (txt : text) (els : list element) :
  forall (done_ : text) (cursor : nat) (st : splice),
    in_step txt done_ cursor st ->
    well_placed txt cursor els ->
    html (spliceFrom generate st els)
      = done_ ++ weave (gapsOf txt cursor els) (map generate els) /\
    errors (spliceFrom generate st els) = errors st /\
    offset (spliceFrom generate st els)
      = (Z.of_nat (length (html (spliceFrom generate st els))) - Z.of_nat (length txt))%Z.
Proof.
  induction els as [|e els IH]; intros done_ cursor st Hst Hwp.
  - destruct Hst as (Hhtml & Hoff & Hcur). simpl. split_and!; [done|done|].
    rewrite Hoff, Hhtml, length_app, length_drop. lia.
  - destruct Hwp as (Hle & Hin & Hraw & Hrest).
    destruct (spliceTurn_placed txt done_ cursor st e Hst Hle Hin Hraw) as [Hst' Herr].
    destruct (IH _ _ _ Hst' Hrest) as (Hh & He & Ho).
    change (spliceFrom generate st (e :: els))
      with (spliceFrom generate (spliceTurn generate st e) els).
    split_and!; [|congruence|done].
    rewrite Hh. simpl. by rewrite <- !app_assoc.
Qed.

Lemma weave_original (txt : text) (els : list element) :
  forall cursor,
    cursor <= length txt ->
    well_placed txt cursor els ->
    weave (gapsOf txt cursor els) (map fullMatch els) = drop cursor txt.
Proof.
  induction els as [|e els IH]; intros cursor Hcur Hwp; [done|].
  destruct Hwp as (Hle & Hin & Hraw & Hrest). simpl.
  rewrite IH by (done || lia).
  rewrite substring_from_to in Hraw by lia.
  replace (startIndex e + length (fullMatch e) - startIndex e)
    with (length (fullMatch e)) in Hraw by lia.
  rewrite substring_from_to by lia. rewrite <- Hraw at 1.
  transitivity (take (startIndex e - cursor) (drop cursor txt)
                ++ drop (startIndex e - cursor) (drop cursor txt)); [|apply take_drop].
  f_equal. rewrite drop_drop.
  replace (cursor + (startIndex e - cursor)) with (startIndex e) by lia.
  rewrite <- drop_drop. apply take_drop.
Qed.
End SpliceFacts.

Lemma gapsOf_length (txt : text) (els : list element) (cursor : nat) :
  length (gapsOf txt cursor els) = S (length els).
Proof.
  revert cursor; induction els as [|e els IH]; intros cursor; [done|].
  simpl. by rewrite IH.
Qed.

(** C2 — the splice loop on a position-ordered list of elements whose
    spans lie in the original text without overlapping and whose recorded
    raw text is the text of their span.  The output is the generated
    fragments, in the order of the elements, woven between the stretches of
    the original that no element covers; the original itself is the
    recorded raw texts woven between the same stretches, so taking the
    fragments out of the output leaves exactly the non-replaced text.  No
    element is skipped, and the final offset is the length difference. *)
Theorem splice_offset_integrity (generate : element -> text) (txt : text) (els : list element) :
  well_placed txt 0 els ->
  let out := spliceElements generate txt els in
  let gaps := gapsOf txt 0 els in
  length gaps = S (length els) /\
  html out = weave gaps (map generate els) /\
  txt = weave gaps (map fullMatch els) /\
  errors out = [] /\
  offset out = (Z.of_nat (length (html out)) - Z.of_nat (length txt))%Z.
Proof.
  intros Hwp out gaps. subst out gaps.
  assert (Hst : in_step txt [] 0 {| html := txt; offset := 0; errors := [] |}).
  { unfold in_step. cbn [html offset]. rewrite drop_0. split_and!; [done|done|lia]. }
  destruct (spliceFrom_placed generate txt els [] 0 _ Hst Hwp) as (Hh & He & Ho).
  split_and!.
  - apply gapsOf_length.
  - exact Hh.
  - rewrite (weave_original txt els 0) by (lia || done). by rewrite drop_0.
  - exact He.
  - exact Ho.
Qed.

Section SkipFacts.
Variable generate : element -> text.

(** The text and the offset after a turn do not depend on the errors
    written before it. *)
Lemma spliceFrom_same_text (els : list element) :
  forall st1 st2,
    html st1 = html st2 -> offset st1 = offset st2 ->
    html (spliceFrom generate st1 els) = html (spliceFrom generate st2 els) /\
    offset (spliceFrom generate st1 els) = offset (spliceFrom generate st2 els).
Proof.
  induction els as [|e els IH]; intros st1 st2 Hh Ho; [done|].
  change (spliceFrom generate ?st (e :: els))
    with (spliceFrom generate (spliceTurn generate st e) els).
  apply IH; unfold spliceTurn; rewrite Hh, Ho; by case_match.
Qed.

(** The loop only ever adds to the errors. *)
Lemma spliceFrom_errors_kept (els : list element) :
  forall st d, d ∈ errors st -> d ∈ errors (spliceFrom generate st els).
Proof.
  induction els as [|e els IH]; intros st d Hd; [done|].
  change (spliceFrom generate st (e :: els))
    with (spliceFrom generate (spliceTurn generate st e) els).
  apply IH. unfold spliceTurn. case_match; cbn [errors]; [done|].
  apply elem_of_app. by left.
Qed.
End SkipFacts.

(** C3 — an element whose recorded raw text is not what the working text
    holds at the offset-adjusted position is skipped: its turn writes one
    diagnostic and leaves the working text and the cumulative offset as
    they were, and the loop goes on with the remaining elements exactly as
    if the element had not been in the list, the diagnostic staying on
    record. *)
Theorem splice_mismatch_skipped
    (generate : element -> text) (st : splice) (el : element) (remaining : list element) :
  let index := (Z.of_nat (startIndex el) + offset st)%Z in
  let found := substringZ (html st) index (index + Z.of_nat (length (fullMatch el))) in
  found <> fullMatch el ->
  html (spliceTurn generate st el) = html st /\
  offset (spliceTurn generate st el) = offset st /\
  errors (spliceTurn generate st el)
    = errors st ++ [Mismatch index (fullMatch el) found] /\
  html (spliceFrom generate st (el :: remaining)) = html (spliceFrom generate st remaining) /\
  offset (spliceFrom generate st (el :: remaining))
    = offset (spliceFrom generate st remaining) /\
  Mismatch index (fullMatch el) found
    ∈ errors (spliceFrom generate st (el :: remaining)).
Proof.
  intros index found Hne.
  assert (Hturn : spliceTurn generate st el =
                  {| html := html st; offset := offset st;
                     errors := errors st ++ [Mismatch index (fullMatch el) found] |}).
  { unfold spliceTurn. fold index. fold found.
    unfold text_eqb. by rewrite bool_decide_eq_false_2. }
  change (spliceFrom generate st (el :: remaining))
    with (spliceFrom generate (spliceTurn generate st el) remaining).
  rewrite Hturn. cbn [html offset errors].
  split_and!; [done|done|done| | |].
  - by apply spliceFrom_same_text.
  - by apply spliceFrom_same_text.
  - apply spliceFrom_errors_kept. cbn [errors]. apply elem_of_app. right. by apply list_elem_of_singleton.
Qed.

(** ** Masking *)

Lemma maskBox_unfold (masked : text) (box : element) :
  maskBox masked box =
  take (startIndex box) masked ++ spaces (length (fullMatch box))
  ++ drop (startIndex box + length (fullMatch box)) masked.
Proof.
  unfold maskBox, substringFrom. rewrite substring_from_to by lia.
  by rewrite drop_0, Nat.sub_0_r.
Qed.

Lemma maskBox_length (masked : text) (box : element) :
  within (length masked) box -> length (maskBox masked box) = length masked.
Proof.
  unfold within. intros H. rewrite maskBox_unfold.
  unfold spaces. rewrite !length_app, length_take, length_replicate, length_drop. lia.
Qed.

Lemma maskBox_outside (masked : text) (box : element) (i : nat) :
  within (length masked) box -> ~ in_span box i -> maskBox masked box !! i = masked !! i.
Proof.
  unfold within, in_span. intros Hin Hout. rewrite maskBox_unfold. unfold spaces.
  destruct (decide (i < startIndex box)) as [Hlt|Hge].
  - rewrite lookup_app_l by (rewrite length_take; lia). by apply lookup_take_lt.
  - rewrite lookup_app_r by (rewrite length_take; lia).
    rewrite length_take, Nat.min_l by lia.
    rewrite lookup_app_r by (rewrite length_replicate; lia).
    rewrite length_replicate, lookup_drop. f_equal. lia.
Qed.

Lemma maskBox_inside (masked : text) (box : element) (i : nat) :
  within (length masked) box -> in_span box i -> maskBox masked box !! i = Some " "%char.
Proof.
  unfold within, in_span. intros Hin Hi. rewrite maskBox_unfold. unfold spaces.
  rewrite lookup_app_r by (rewrite length_take; lia).
  rewrite length_take, Nat.min_l by lia.
  rewrite lookup_app_l by (rewrite length_replicate; lia).
  apply lookup_replicate_2. lia.
Qed.

(** Masking any boxes that lie in the text keeps the length, keeps every
    character outside the boxes and leaves a blank at every position
    inside one. *)
Lemma fold_maskBox_spec (boxes : list element) :
  forall masked,
    Forall (within (length masked)) boxes ->
    length (fold_left maskBox boxes masked) = length masked /\
    (forall i, (forall b, b ∈ boxes -> ~ in_span b i) ->
               fold_left maskBox boxes masked !! i = masked !! i) /\
    (forall i, masked !! i = Some " "%char \/ (exists b, b ∈ boxes /\ in_span b i) ->
               fold_left maskBox boxes masked !! i = Some " "%char).
Proof.
  induction boxes as [|b boxes IH]; intros masked Hall.
  - simpl. split_and!; [done|done|]. intros i [H|(b & Hb & _)]; [done|]. by apply elem_of_nil in Hb.
  - apply Forall_cons in Hall as [Hb Hall]. simpl.
    pose proof (maskBox_length masked b Hb) as Hlen.
    destruct (IH (maskBox masked b)) as (IHlen & IHout & IHin); [by rewrite Hlen|].
    split_and!.
    + by rewrite IHlen.
    + intros i Hi. rewrite IHout.
      * apply maskBox_outside; [done|]. apply Hi. by left.
      * intros b' Hb'. apply Hi. by right.
    + intros i Hi. apply IHin.
      destruct (decide (in_span b i)) as [Hspan|Hspan].
      * left. by apply maskBox_inside.
      * destruct Hi as [Hsp|(b' & Hb' & Hspan')].
        -- left. by rewrite maskBox_outside.
        -- apply elem_of_cons in Hb' as [->|Hb']; [done|]. right. by exists b'.
Qed.

Lemma insertByStart_perm (e : element) (l : list element) : insertByStart e l ≡ₚ e :: l.
Proof.
  induction l as [|x l IH]; simpl; [done|].
  destruct (startIndex e <=? startIndex x); [done|].
  rewrite IH. apply Permutation_swap.
Qed.

Lemma sortByStart_perm (l : list element) : sortByStart l ≡ₚ l.
Proof.
  induction l as [|x l IH]; simpl; [done|].
  by rewrite insertByStart_perm, IH.
Qed.

Lemma elem_of_rev {A : Type} (x : A) (l : list A) : x ∈ rev l <-> x ∈ l.
Proof. rewrite !list_elem_of_In. symmetry. apply in_rev. Qed.

Lemma maskBoxes_spec (txt : text) (boxes : list element) :
  Forall (within (length txt)) boxes ->
  length (maskBoxes txt boxes) = length txt /\
  (forall i, (forall b, b ∈ boxes -> ~ in_span b i) -> maskBoxes txt boxes !! i = txt !! i) /\
  (forall i b, b ∈ boxes -> in_span b i -> maskBoxes txt boxes !! i = Some " "%char).
Proof.
  intros Hall. unfold maskBoxes.
  destruct (fold_maskBox_spec (rev boxes) txt) as (Hlen & Hout & Hin);
    [by apply Forall_rev|].
  split_and!; [done| |].
  - intros i Hi. apply Hout. intros b Hb. apply Hi. by apply elem_of_rev.
  - intros i b Hb Hi. apply Hin. right. exists b. split; [by apply elem_of_rev|done].
Qed.

(** ** The spans the extractors record *)

Lemma exec_go_spec {A : Type} (m : matcher A) (s : text) :
  forall (i skip idx : nat) (a : A) (w : text),
    (idx, a, w) ∈ exec_go m i skip s ->
    i <= idx /\ idx + length w <= i + length s /\
    exists n, m (drop (idx - i) s) = Some (a, n) /\ w = take n (drop (idx - i) s).
Proof.
  induction s as [|c s IH]; intros i skip idx a w Hin; simpl in Hin.
  - by apply elem_of_nil in Hin.
  - assert (Hrec : forall skip', (idx, a, w) ∈ exec_go m (S i) skip' s ->
        i <= idx /\ idx + length w <= i + length (c :: s) /\
        exists n, m (drop (idx - i) (c :: s)) = Some (a, n) /\
                  w = take n (drop (idx - i) (c :: s))).
    { intros skip' H. apply IH in H as (Hle & Hlen & n & Hm & Hw).
      split_and!; [lia|simpl; lia|].
      exists n. replace (idx - i) with (S (idx - S i)) by lia. by simpl. }
    destruct skip as [|j]; [|by apply Hrec in Hin].
    destruct (m (c :: s)) as [[a' n]|] eqn:Em; [|by apply Hrec in Hin].
    apply elem_of_cons in Hin as [[= -> -> ->]|Hin]; [|by apply Hrec in Hin].
    split_and!; [lia|rewrite length_take; lia|].
    exists n. by rewrite Nat.sub_diag.
Qed.

Lemma exec_all_spec {A : Type} (m : matcher A) (s : text) (idx : nat) (a : A) (w : text) :
  (idx, a, w) ∈ exec_all m s ->
  idx + length w <= length s /\
  exists n, m (drop idx s) = Some (a, n) /\ w = take n (drop idx s).
Proof.
  intros H. apply exec_go_spec in H as (_ & Hlen & n & Hm & Hw).
  rewrite Nat.sub_0_r in Hm, Hw. split; [lia|by exists n].
Qed.

Section SpanFacts.
Variable figureInContentHTML : text -> text.
Variable clock : nat -> nat.
Variable labels : gmap text labelEntry.

Lemma extractTheorems_within (txt : text) :
  Forall (within (length txt)) (map ElTheorem (extractTheorems figureInContentHTML labels txt)).
Proof.
  unfold extractTheorems.
  assert (Hgen : forall found st,
    Forall (fun '(idx, _, w) => idx + length w <= length txt) found ->
    Forall (within (length txt)) (map ElTheorem (snd st)) ->
    Forall (within (length txt))
      (map ElTheorem (snd (fold_left (extractTheoremsTurn figureInContentHTML labels) found st)))).
  { induction found as [|[[idx [[env ttl] body]] w] found IH]; intros [counts acc] Hf Hacc;
      [done|].
    apply Forall_cons in Hf as [Hw Hf]. simpl. apply IH; [done|].
    cbn [snd]. rewrite map_app. apply Forall_app. split; [done|].
    simpl. by repeat constructor. }
  apply Hgen; [|by constructor].
  apply Forall_forall. intros [[idx a] w] Hin. by apply exec_all_spec in Hin as [? _].
Qed.

Lemma extractProofsTurn_within (txt : text) (st st' : proofScan) :
  Forall (within (length txt)) (map ElProof (proofs st)) ->
  extractProofsTurn figureInContentHTML clock txt st = Continue st' ->
  Forall (within (length txt)) (map ElProof (proofs st')).
Proof.
  intros Hst. unfold extractProofsTurn.
  destruct (pos st <? length txt) eqn:Hpos; [|done].
  unfold substringFrom.
  destruct (find_match m_begin_proof (drop (pos st) txt)) as [[[index ttl] len]|] eqn:Ef;
    [|done].
  apply find_match_Some in Ef as (Hindex & Hm & _). rewrite length_drop in Hindex.
  destruct (scanProofEnd (S (length txt)) txt 1 (pos st + index + len)) as [[d r]|] eqn:Hscan;
    [|done].
  apply scanProofEnd_result in Hscan; [|lia].
  destruct r as [endPos|].
  - destruct (chooseStableId txt (pos st + index) ttl (usedIds st) (proofCounter st));
      [|done].
    intros [= <-]. cbn [proofs]. rewrite map_app. apply Forall_app. split; [done|].
    simpl. repeat constructor. unfold within. cbn [startIndex fullMatch pf_startIndex pf_fullMatch].
    unfold substring. rewrite length_take, length_drop. apply Nat.ltb_lt in Hpos. lia.
  - destruct (0 <? d); by intros [= <-].
Qed.

Lemma extractProofsLoop_within (txt : text) (fuel : nat) :
  forall st final,
    Forall (within (length txt)) (map ElProof (proofs st)) ->
    extractProofsLoop figureInContentHTML clock fuel txt st = Some final ->
    Forall (within (length txt)) (map ElProof (proofs final)).
Proof.
  induction fuel as [|fuel IH]; intros st final Hst; [done|].
  cbn [extractProofsLoop].
  destruct (extractProofsTurn figureInContentHTML clock txt st) as [|st'|] eqn:Et; [|  |done].
  - by intros [= <-].
  - apply IH. by eapply extractProofsTurn_within.
Qed.

Lemma extractProofs_within (txt : text) (found : list proofElement) :
  extractProofs figureInContentHTML clock txt = Some found ->
  Forall (within (length txt)) (map ElProof found).
Proof.
  unfold extractProofs, extractProofsFrom.
  destruct (extractProofsLoop _ _ _ txt proofScan0) as [final|] eqn:El; [|done].
  intros [= <-]. eapply extractProofsLoop_within; [|exact El]. constructor.
Qed.
End SpanFacts.

Lemma env_opt_head (opn cls s : text) (x : option text * text * nat) :
  env_opt opn cls s = Some x -> exists r, s = opn ++ r.
Proof.
  unfold env_opt. destruct (after opn s) as [r|] eqn:Ea; [|done].
  intros _. exists r. by apply after_Some.
Qed.

Lemma env_plain_head (opn cls s : text) (x : text * nat) :
  env_plain opn cls s = Some x -> exists r, s = opn ++ r.
Proof.
  unfold env_plain. destruct (after opn s) as [r|] eqn:Ea; [|done].
  intros _. exists r. by apply after_Some.
Qed.

Lemma lookup_drop_head (s r : text) (c : ascii) (i : nat) :
  drop i s = c :: r -> s !! i = Some c.
Proof.
  intros H. rewrite <- (Nat.add_0_r i), <- lookup_drop. by rewrite H.
Qed.

(** X11 — what masking achieves in [convertLaTeXToHTML]: the masked copy
    has the length of the original, agrees with it outside the spans of
    the theorems and proofs, and no [enumerate] or [itemize] read from it
    starts inside such a span. *)
Lemma maskedText_spec
    (figureInContentHTML : text -> text) (clock : nat -> nat) (labels : gmap text labelEntry)
    (txt : text) (found : list proofElement) :
  extractProofs figureInContentHTML clock txt = Some found ->
  let theorems := extractTheorems figureInContentHTML labels txt in
  let boxes := map ElTheorem theorems ++ map ElProof found in
  let masked := maskedTextOf txt theorems found in
  length masked = length txt /\
  (forall i, (forall b, b ∈ boxes -> ~ in_span b i) -> masked !! i = txt !! i) /\
  (forall e b, e ∈ extractEnumerates masked -> b ∈ boxes -> ~ in_span b (en_startIndex e)) /\
  (forall e b, e ∈ extractItemizes masked -> b ∈ boxes -> ~ in_span b (it_startIndex e)).
Proof.
  intros Hfound theorems boxes masked.
  assert (Hall : Forall (within (length txt)) (sortByStart boxes)).
  { rewrite sortByStart_perm. apply Forall_app. split.
    - apply extractTheorems_within.
    - by eapply extractProofs_within. }
  destruct (maskBoxes_spec txt (sortByStart boxes) Hall) as (Hlen & Hout & Hin).
  change (maskBoxes txt (sortByStart boxes)) with masked in Hlen, Hout, Hin.
  assert (Hblank : forall b idx r,
            b ∈ boxes -> drop idx masked = lit "\" ++ r -> ~ in_span b idx).
  { intros b idx r Hb Hdrop Hspan.
    apply lookup_drop_head in Hdrop.
    rewrite (Hin idx b) in Hdrop; [done| |done].
    by rewrite sortByStart_perm. }
  split_and!; [done| | |].
  - intros i Hi. apply Hout. intros b Hb. apply Hi. by rewrite sortByStart_perm in Hb.
  - intros e b He Hb. unfold extractEnumerates in He.
    apply list_elem_of_fmap in He as ([[idx [opt body]] w] & -> & Hexec).
    apply exec_all_spec in Hexec as (_ & n & Hm & _).
    apply env_opt_head in Hm as [r Hr]. cbn [en_startIndex].
    by apply (Hblank b idx (drop 1 beginEnumerate ++ r)).
  - intros e b He Hb. unfold extractItemizes in He.
    apply list_elem_of_fmap in He as ([[idx body] w] & -> & Hexec).
    apply exec_all_spec in Hexec as (_ & n & Hm & _).
    apply env_plain_head in Hm as [r Hr]. cbn [it_startIndex].
    by apply (Hblank b idx (drop 1 beginItemize ++ r)).
Qed.

(** ** The code at the sample documents *)

(** C1 — a proof containing a proof containing a proof.  [extractProofs]
    returns one element whose raw text is the whole document, so the
    depth counting is right; but in its rendered content
    [processNestedProofs] has paired the first inner [\begin{proof}] with
    the first [\end{proof}]: one subproof block holds the text
    [b\begin{proof}c] with the innermost opening left as raw LaTeX, and the
    closing of the middle proof is left behind the block.  The two inner
    proofs are not rendered as two nested collapsible blocks. *)
Theorem nested_proofs_depth_three (figureInContentHTML : text -> text) (clock : nat -> nat) :
  extractProofs figureInContentHTML clock proofInProofInProof =
  Some [ {| pf_title := lit "Proof";
            pf_content :=
              lit "a" ++ subproofHTML (clock 0) 0 None (lit "b\begin{proof}c")
              ++ lit "d\end{proof}e";
            pf_fullMatch := proofInProofInProof;
            pf_startIndex := 0;
            pf_proofNumber := 0;
            pf_stableId := lit "proof-num-0" |} ].
Proof. vm_compute. reflexivity. Qed.

(** C4 — a figure inside a proof.  [extractFigures] reads the unmasked
    text, so the figure at offset 13, inside the span of the proof, is
    among the merged elements as an element of its own. *)
Theorem figure_in_proof_is_extracted
    (figureInContentHTML : text -> text) (clock : nat -> nat) (labels : gmap text labelEntry) :
  (map outline <$> collectElements figureInContentHTML clock labels figureInProof) =
    Some [ (TProof, 0, figureInProof);
           (TFigure, 13, lit "\begin{figure}x\end{figure}") ].
Proof. vm_compute. reflexivity. Qed.

(** With renderers that return an empty block, the splice loop meets that
    figure where the proof block now stands and writes a mismatch. *)
Lemma figure_in_proof_mismatch :
  (length ∘ errors <$>
     spliceDocument noFigure noTopFigure (fun _ => 0) noLabels figureInProof) = Some 1.
Proof. vm_compute. reflexivity. Qed.

(** C6 — a proof titled [num 1] followed by a proof with neither label nor
    title.  The title gives the first proof the id [proof-num-1]; the
    second proof, of ordinal 1, takes the numeric fallback, which is not
    checked against the ids in use: both proofs get the same id. *)
Theorem fallback_id_collides (figureInContentHTML : text -> text) (clock : nat -> nat) :
  (map pf_stableId <$> extractProofs figureInContentHTML clock titledThenPlain) =
  Some [lit "proof-num-1"; lit "proof-num-1"].
Proof. vm_compute. reflexivity. Qed.

(** C9 — an enumerate with [\setcounter{enumi}{2}] before its first item.
    Inside a theorem or proof body [convertListsInContent] drops the
    command and starts the list at 3; at top level
    [generateEnumerateHTML] emits no start attribute and leaves the
    command in the first item. *)
Theorem top_level_enumerate_ignores_setcounter :
  convertListsInContent enumerateFromThree = lit "<ol start=`3`><li>a</li></ol>" /\
  map generateEnumerateHTML (extractEnumerates enumerateFromThree) =
    [lit "<ol>\setcounter{enumi}{2}</li><li>a</li></ol>"].
Proof. split; vm_compute; reflexivity. Qed.

(** C8 — references to labels that no aux file defines.  With the table
    of a conversion without aux file, the unknown label [zz] gets the
    flagged marker in prose and the bracketed fallback in display math,
    but [constructor] and [toString], equally undefined, are found on the
    prototype of the table: the prose reference becomes a link to
    [#constructor] that shows [undefined], the reference in display math
    the bare word [undefined]. *)
Theorem inherited_names_are_resolved
    (fs : text -> option text) (path_dirname : text -> text) (path_join : text -> text -> text) :
  parseAuxFile fs path_dirname path_join None = noLabels /\
  linkReferences noLabels inheritedReferences =
    lit "See <a href=`#constructor` class=`ref-link`>undefined</a> and <span class=`ref-unknown` title=`Reference not found: zz`>[zz?]</span>: \begin{align}x = undefined + [zz?]\end{align}".
Proof. split; [reflexivity|]. vm_compute. reflexivity. Qed.


(** ** What the clock can change *)

Section ScanAgree.
Context {A : Type} (m : matcher A).


End ScanAgree.





Section ClockFacts.
Variable figureInContentHTML : text -> text.
Variable labels : gmap text labelEntry.
Variables clock1 clock2 : nat -> nat.






End ClockFacts.









(** ** Scanning a text in pieces *)

Section ReplaceFacts.
Context {A : Type} (m : matcher A) (f : nat -> A -> text -> text).

Lemma replace_go_skip (w rest : text) (k : nat) :
  replace_go m f k (length w) (w ++ rest) = replace_go m f k 0 rest.
Proof.
  induction w as [|c w IH]; simpl; [|done].
  by destruct rest.
Qed.

(** A stretch in which the expression matches nowhere is copied. *)
Lemma replace_go_copy (x rest : text) (k : nat) :
  (forall j, j < length x -> m (drop j x ++ rest) = None) ->
  replace_go m f k 0 (x ++ rest) = x ++ replace_go m f k 0 rest.
Proof.
  induction x as [|c x IH]; intros H; [done|].
  assert (H0 : m (c :: x ++ rest) = None) by (apply (H 0); simpl; lia).
  simpl. rewrite H0. f_equal. apply IH.
  intros j Hj. apply (H (S j)). simpl. lia.
Qed.

(** A match at the head is replaced and the scan resumes behind it. *)
Lemma replace_go_match (w rest : text) (k : nat) (a : A) :
  w <> [] ->
  m (w ++ rest) = Some (a, length w) ->
  replace_go m f k 0 (w ++ rest) = f k a w ++ replace_go m f (S k) 0 rest.
Proof.
  destruct w as [|c w]; [done|]. intros _ Hm.
  change (replace_go m f k 0 ((c :: w) ++ rest))
    with (match m ((c :: w) ++ rest) with
          | Some (a, n) => f k a (take n ((c :: w) ++ rest))
                           ++ replace_go m f (S k) (n - 1) (w ++ rest)
          | None => c :: replace_go m f k 0 (w ++ rest)
          end).
  rewrite Hm. rewrite take_app_length. simpl. rewrite Nat.sub_0_r.
  by rewrite replace_go_skip.
Qed.

Lemma find_match_after (x rest : text) (a : A) (n : nat) :
  (forall j, j < length x -> m (drop j x ++ rest) = None) ->
  m rest = Some (a, n) ->
  find_match m (x ++ rest) = Some (length x, a, n).
Proof.
  induction x as [|c x IH]; intros H Hm.
  - simpl. destruct rest; simpl; by rewrite Hm.
  - assert (H0 : m (c :: x ++ rest) = None) by (apply (H 0); simpl; lia).
    simpl. rewrite H0.
    rewrite IH; [done| |done]. intros j Hj. apply (H (S j)). simpl. lia.
Qed.
End ReplaceFacts.

(** ** Occurrences across a boundary *)

Lemma startsWith_app_r (p x y : text) :
  startsWith p x = true -> startsWith p (x ++ y) = true.
Proof.
  intros H%startsWith_inv. rewrite H, <- app_assoc. apply startsWith_app.
Qed.

(** A text that starts at the head of [y ++ rest] starts at the head of
    [y] or runs from [y] into [rest]. *)
Lemma startsWith_app_cases (p y rest : text) :
  startsWith p (y ++ rest) = true ->
  startsWith p y = true \/
  exists p2, p = y ++ p2 /\ p2 <> [] /\ startsWith p2 rest = true.
Proof.
  revert y; induction p as [|a p IH]; intros y H; [by left|].
  destruct y as [|b y].
  - right. by exists (a :: p).
  - simpl in H. apply andb_true_iff in H as [Hab Hrest].
    apply Ascii.eqb_eq in Hab as <-.
    destruct (IH y Hrest) as [Hl|(p2 & -> & Hne & Hp2)].
    + left. simpl. by rewrite Ascii.eqb_refl.
    + right. by exists p2.
Qed.

Lemma includes_false (p x : text) (j : nat) :
  includes p x = false -> startsWith p (drop j x) = false.
Proof.
  unfold includes. destruct (indexOf p x) eqn:E; [done|]. intros _. by apply indexOf_None.
Qed.

Lemma includes_false_intro (p x : text) :
  (forall j, startsWith p (drop j x) = false) -> includes p x = false.
Proof.
  intros H. unfold includes. destruct (indexOf p x) as [i|] eqn:E; [|done].
  apply indexOf_startsWith in E. by rewrite H in E.
Qed.


Lemma includes_app_r (p x y : text) : includes p (x ++ y) = false -> includes p y = false.
Proof.
  intros H. apply includes_false_intro. intros j.
  rewrite <- (includes_false p (x ++ y) (length x + j) H). by rewrite drop_app_add.
Qed.


Lemma free_of_app_r (ps : list text) (x y : text) :
  free_of ps (x ++ y) = true -> free_of ps y = true.
Proof.
  unfold free_of. rewrite !forallb_forall. intros H p Hp.
  specialize (H p Hp). apply negb_true_iff in H. apply negb_true_iff.
  by eapply includes_app_r.
Qed.


Lemma occurs_at_false (ps : list text) (s : text) :
  occurs_at ps s = false <-> forall p, p ∈ ps -> startsWith p s = false.
Proof.
  unfold occurs_at. induction ps as [|q ps IH]; simpl.
  - split; [|done]. intros _ p Hp. by apply elem_of_nil in Hp.
  - rewrite orb_false_iff, IH. split.
    + intros [Hq Hps] p [->|Hp]%elem_of_cons; [done|by apply Hps].
    + intros H. split; [apply H; by left|]. intros p Hp. apply H. by right.
Qed.

(** Where nothing of [ps] occurs, nothing of [ps] starts either, as long
    as the next character cannot continue any of them. *)
Lemma quiet_free (ps : list text) (x : text) (c : ascii) (rest : text) :
  free_of ps x = true ->
  Forall (fun p => c ∉ tail p) ps ->
  quiet ps x (c :: rest).
Proof.
  intros Hfree Htails j Hj. apply occurs_at_false. intros p Hp.
  unfold free_of in Hfree. rewrite forallb_forall in Hfree.
  specialize (Hfree p (proj1 (list_elem_of_In _ _) Hp)). apply negb_true_iff in Hfree.
  rewrite Forall_forall in Htails. specialize (Htails p Hp).
  destruct (startsWith p (drop j x ++ c :: rest)) eqn:E; [|done].
  apply startsWith_app_cases in E as [E|(p2 & -> & Hne & Hp2)].
  - by rewrite (includes_false p x j Hfree) in E.
  - destruct p2 as [|c' p2]; [done|]. simpl in Hp2.
    apply andb_true_iff in Hp2 as [Hc _]. apply Ascii.eqb_eq in Hc as ->.
    destruct (drop j x) as [|y0 y] eqn:Ed.
    + apply (f_equal length) in Ed. rewrite length_drop in Ed. simpl in Ed. lia.
    + exfalso. apply Htails. simpl. apply elem_of_app. right. by left.
Qed.

Lemma quiet_free_end (ps : list text) (x : text) :
  free_of ps x = true -> quiet ps x [].
Proof.
  intros Hfree j Hj. rewrite app_nil_r. apply occurs_at_false. intros p Hp.
  unfold free_of in Hfree. rewrite forallb_forall in Hfree.
  specialize (Hfree p (proj1 (list_elem_of_In _ _) Hp)). apply negb_true_iff in Hfree.
  by apply includes_false.
Qed.


Lemma tails_clear (c : ascii) (ps : list text) :
  forallb (fun p => forallb (not_char c) (tail p)) ps = true ->
  Forall (fun p => c ∉ tail p) ps.
Proof.
  rewrite forallb_forall. intros H. apply Forall_forall. intros p Hp Hc.
  specialize (H p (proj1 (list_elem_of_In _ _) Hp)). rewrite forallb_forall in H.
  specialize (H c (proj1 (list_elem_of_In _ _) Hc)).
  unfold not_char in H. by rewrite Ascii.eqb_refl in H.
Qed.


(** ** The matchers of the reference passes *)

Lemma first_some_None {A B : Type} (f : A -> option B) (l : list A) :
  (forall x, x ∈ l -> f x = None) -> first_some f l = None.
Proof.
  induction l as [|x l IH]; intros H; [done|].
  simpl. rewrite (H x) by (by left). apply IH. intros y Hy. apply H. by right.
Qed.


Lemma take_while_app (p : ascii -> bool) (t : text) (c : ascii) (rest : text) :
  forallb p t = true -> p c = false -> take_while p (t ++ c :: rest) = t.
Proof.
  intros Ht Hc. induction t as [|a t IH]; simpl in *; [by rewrite Hc|].
  apply andb_true_iff in Ht as [Ha Ht]. rewrite Ha. f_equal. by apply IH.
Qed.

Lemma delimited1_app (o c : ascii) (t rest : text) :
  t <> [] -> forallb (not_char c) t = true ->
  delimited1 o c (o :: t ++ c :: rest) = Some (t, rest).
Proof.
  intros Hne Ht. unfold delimited1. rewrite Ascii.eqb_refl. cbv zeta.
  rewrite take_while_app; [|done|unfold not_char; by rewrite Ascii.eqb_refl].
  destruct t as [|a t]; [done|]. rewrite drop_app_length. by rewrite Ascii.eqb_refl.
Qed.





















(** ** The two passes on a document *)

Section LinkFacts.
Variable labels : gmap text labelEntry.

















End LinkFacts.





(** ** Nested proofs in [extractProofs] *)

Lemma indexOf_intro (p : text) (i : nat) :
  forall s,
    (forall j, j < i -> startsWith p (drop j s) = false) ->
    startsWith p (drop i s) = true ->
    indexOf p s = Some i.
Proof.
  induction i as [|i IH]; intros s Hbefore Hat.
  - rewrite drop_0 in Hat. destruct s; simpl; by rewrite Hat.
  - pose proof (Hbefore 0 ltac:(lia)) as H0. rewrite drop_0 in H0.
    destruct s as [|c s].
    + rewrite drop_nil in Hat. by rewrite Hat in H0.
    + simpl. rewrite H0. rewrite (IH s); [done| |done].
      intros j Hj. apply (Hbefore (S j)). lia.
Qed.

Lemma indexOf_beyond (p s : text) (i k : nat) :
  (forall j, j <= i -> startsWith p (drop j s) = false) ->
  indexOf p s = Some k -> i < k.
Proof.
  intros Hbefore Hk. apply indexOf_startsWith in Hk.
  destruct (decide (i < k)) as [|Hle]; [done|].
  rewrite Hbefore in Hk by lia. done.
Qed.

Lemma indexOf_exists (p s : text) (i : nat) :
  startsWith p (drop i s) = true -> is_Some (indexOf p s).
Proof.
  intros H. destruct (indexOf p s) eqn:E; [by eexists|].
  by rewrite (indexOf_None p s i E) in H.
Qed.

Lemma drop_after (txt a r : text) (sp : nat) :
  drop sp txt = a ++ r -> drop (sp + length a) txt = r.
Proof. intros H. by rewrite <- drop_drop, H, drop_app_length. Qed.

Lemma delimiters_tails_backslash :
  forallb (fun p => forallb (not_char "\") (tail p)) [beginProof; endProof] = true.
Proof. reflexivity. Qed.

(** Before the next delimiter, in a filler, no delimiter starts. *)
Lemma filler_quiet (f r : text) (j : nat) :
  free_of [beginProof; endProof] f = true ->
  j < length f ->
  startsWith beginProof (drop j f ++ "\"%char :: r) = false /\
  startsWith endProof (drop j f ++ "\"%char :: r) = false.
Proof.
  intros Hf Hj.
  pose proof (quiet_free [beginProof; endProof] f "\" r Hf
                (tails_clear _ _ delimiters_tails_backslash) j Hj) as Hq.
  rewrite occurs_at_false in Hq. split; apply Hq; [by left|right; by left].
Qed.

Lemma scan_open (fuel : nat) (txt : text) (d sp : nat) (f r : text) :
  0 < d ->
  free_of [beginProof; endProof] f = true ->
  drop sp txt = f ++ beginProof ++ r ->
  (exists x y, r = x ++ endProof ++ y) ->
  scanProofEnd (S fuel) txt d sp
  = scanProofEnd fuel txt (S d) (sp + length f + length beginProof).
Proof.
  intros Hd Hf Hdrop (x & y & Hr).
  assert (Hsp : sp < length txt).
  { destruct (decide (sp < length txt)) as [|Hge]; [done|].
    rewrite drop_ge in Hdrop by lia. by destruct f. }
  assert (Hbegin : indexOf beginProof (drop sp txt) = Some (length f)).
  { rewrite Hdrop. apply indexOf_intro.
    - intros j Hj. rewrite drop_app_le by lia. by apply filler_quiet.
    - rewrite drop_app_length. apply startsWith_app. }
  assert (Hend : exists e, indexOf endProof (drop sp txt) = Some e /\ length f < e).
  { destruct (indexOf_exists endProof (drop sp txt) (length f + length beginProof + length x))
      as [e He].
    - rewrite Hdrop, Hr. rewrite <- Nat.add_assoc, drop_app_add, drop_app_add, drop_app_length.
      apply startsWith_app.
    - exists e. split; [done|]. eapply indexOf_beyond; [|exact He].
      intros j Hj. rewrite Hdrop.
      destruct (decide (j < length f)) as [Hlt|Hge].
      + rewrite drop_app_le by lia. by apply filler_quiet.
      + replace j with (length f) by lia. by rewrite drop_app_length. }
  destruct Hend as (e & Hend & He).
  cbn [scanProofEnd]. unfold substringFrom. rewrite Hbegin, Hend.
  rewrite (proj2 (Nat.ltb_lt 0 d) Hd), (proj2 (Nat.ltb_lt sp (length txt)) Hsp).
  cbn [andb default]. by rewrite (proj2 (Nat.ltb_lt (length f) e) He).
Qed.

Lemma scan_close (fuel : nat) (txt : text) (d sp : nat) (f r : text) :
  0 < d ->
  free_of [beginProof; endProof] f = true ->
  drop sp txt = f ++ endProof ++ r ->
  scanProofEnd (S fuel) txt d sp = closeAt fuel txt d (sp + length f).
Proof.
  intros Hd Hf Hdrop.
  assert (Hsp : sp < length txt).
  { destruct (decide (sp < length txt)) as [|Hge]; [done|].
    rewrite drop_ge in Hdrop by lia. by destruct f. }
  assert (Hend : indexOf endProof (drop sp txt) = Some (length f)).
  { rewrite Hdrop. apply indexOf_intro.
    - intros j Hj. rewrite drop_app_le by lia. by apply filler_quiet.
    - rewrite drop_app_length. apply startsWith_app. }
  assert (Hbegin : match indexOf beginProof (drop sp txt) with
                   | Some b => b <? length f
                   | None => false
                   end = false).
  { destruct (indexOf beginProof (drop sp txt)) as [b|] eqn:Eb; [|done].
    apply Nat.ltb_ge. apply Nat.lt_le_incl. eapply indexOf_beyond; [|exact Eb].
    intros j Hj. rewrite Hdrop.
    destruct (decide (j < length f)) as [Hlt|Hge].
    - rewrite drop_app_le by lia. by apply filler_quiet.
    - replace j with (length f) by lia. by rewrite drop_app_length. }
  cbn [scanProofEnd]. unfold substringFrom, closeAt. rewrite Hend, Hbegin.
  by rewrite (proj2 (Nat.ltb_lt 0 d) Hd), (proj2 (Nat.ltb_lt sp (length txt)) Hsp).
Qed.

(** From the start of a well-nested body at depth [depth], the inner loop
    arrives at the close of that depth: the [\end{proof}] right behind the
    body. *)
Lemma scan_nesting (n : nesting) :
  ok_nesting n = true ->
  forall txt d sp y fuel res,
    0 < d ->
    drop sp txt = nestingSource n ++ endProof ++ y ->
    scanProofEnd fuel txt d sp = Some res ->
    exists fuel', closeAt fuel' txt d (sp + length (nestingSource n)) = Some res.
Proof.
  induction n as [f|f inner IHinner rest IHrest]; intros Hok txt d sp y fuel res Hd Hdrop Hres.
  - destruct fuel as [|fuel]; [done|]. cbn [ok_nesting nestingSource] in *.
    rewrite (scan_close fuel txt d sp f y) in Hres by done. by exists fuel.
  - destruct fuel as [|fuel]; [done|]. cbn [ok_nesting nestingSource] in *.
    apply andb_true_iff in Hok as [[Hf Hinner]%andb_true_iff Hrest].
    rewrite <- !app_assoc in Hdrop.
    rewrite (scan_open fuel txt d sp f _ Hd Hf Hdrop) in Hres
      by (by exists (nestingSource inner), (nestingSource rest ++ endProof ++ y)).
    assert (Hdrop1 : drop (sp + length f + length beginProof) txt
                     = nestingSource inner ++ endProof ++ nestingSource rest ++ endProof ++ y).
    { apply drop_after. by apply drop_after. }
    destruct (IHinner Hinner txt (S d) _ _ fuel res ltac:(lia) Hdrop1 Hres) as [fuel1 H1].
    unfold closeAt in H1. replace (S d - 1) with d in H1 by lia.
    rewrite (proj2 (Nat.eqb_neq d 0)) in H1 by lia.
    assert (Hdrop2 : drop (sp + length f + length beginProof + length (nestingSource inner)
                           + length endProof) txt
                     = nestingSource rest ++ endProof ++ y).
    { apply drop_after. by apply drop_after. }
    destruct (IHrest Hrest txt d _ _ fuel1 res Hd Hdrop2 H1) as [fuel2 H2].
    exists fuel2. rewrite !length_app. rewrite <- H2. f_equal. lia.
Qed.

Section NestedFacts.
Variable figureInContentHTML : text -> text.
Variable clock : nat -> nat.

(** Every proof the loop pushes starts at or after the cursor it was
    started with. *)
Lemma extractProofsLoop_later (txt : text) (fuel : nat) :
  forall st final,
    extractProofsLoop figureInContentHTML clock fuel txt st = Some final ->
    exists later, proofs final = proofs st ++ later /\
                  Forall (fun q => pos st <= pf_startIndex q) later.
Proof.
  induction fuel as [|fuel IH]; intros st final; [done|].
  cbn [extractProofsLoop].
  pose proof (extractProofsTurn_progress figureInContentHTML clock txt st) as Hprog.
  destruct (extractProofsTurn figureInContentHTML clock txt st) as [|st'|] eqn:Et; [| |done].
  - intros [= <-]. exists []. by rewrite app_nil_r.
  - intros Hloop. destruct (IH st' final Hloop) as (later & Hfinal & Hlater).
    assert (Hlater' : Forall (fun q => pos st <= pf_startIndex q) later).
    { eapply Forall_impl; [exact Hlater|]. intros q Hq. simpl in Hq. lia. }
    destruct (extractProofsTurn_shape figureInContentHTML clock txt st st' Et)
      as [(p & Hp & Hstart & _)|[Hsame _]].
    + exists (p :: later). rewrite Hfinal, Hp, <- app_assoc. split; [done|].
      by constructor.
    + exists later. by rewrite Hfinal, Hsame.
Qed.

(** The turn that meets a proof environment with a well-nested body. *)
Lemma extractProofsTurn_nested
    (txt pre opt post : text) (n : nesting) (ttl : option text) (st : proofScan) :
  let block := beginProof ++ opt ++ nestingSource n ++ endProof in
  drop (pos st) txt = pre ++ block ++ post ->
  free_of [beginProof] pre = true ->
  ok_nesting n = true ->
  m_begin_proof (block ++ post) = Some (ttl, length beginProof + length opt) ->
  exists st' p,
    extractProofsTurn figureInContentHTML clock txt st = Continue st' /\
    proofs st' = proofs st ++ [p] /\
    pf_startIndex p = pos st + length pre /\
    pf_fullMatch p = block /\
    pos st' = pos st + length pre + length block.
Proof.
  intros block Hdrop Hpre Hn Hopt.
  assert (Hpos : pos st < length txt).
  { destruct (decide (pos st < length txt)) as [|Hge]; [done|].
    rewrite drop_ge in Hdrop by lia. by destruct pre. }
  assert (Hfind : find_match m_begin_proof (drop (pos st) txt)
                  = Some (length pre, ttl, length beginProof + length opt)).
  { rewrite Hdrop. apply find_match_after; [|done].
    intros j Hj. unfold m_begin_proof, after.
    assert (Hq : startsWith beginProof (drop j pre ++ block ++ post) = false).
    { pose proof (quiet_free [beginProof] pre "\" (drop 1 block ++ post) Hpre) as Hq.
      assert (Htails : Forall (fun p => "\"%char ∉ tail p) [beginProof]).
      { apply tails_clear. reflexivity. }
      specialize (Hq Htails j Hj). rewrite occurs_at_false in Hq.
      apply (Hq beginProof). by left. }
    by rewrite Hq. }
  assert (Hblock : drop (pos st + length pre) txt = block ++ post) by (by apply drop_after).
  assert (Hbody : drop (pos st + length pre + (length beginProof + length opt)) txt
                  = nestingSource n ++ endProof ++ post).
  { rewrite Nat.add_assoc. apply drop_after, drop_after. rewrite Hblock.
    unfold block. by rewrite <- !app_assoc. }
  destruct (scanProofEnd_total (S (length txt)) txt 1
              (pos st + length pre + (length beginProof + length opt)))
    as [res Hres]; [lia|].
  destruct (scan_nesting n Hn txt 1 _ post _ res ltac:(lia) Hbody Hres) as [fuel' Hclose].
  unfold closeAt in Hclose. change (1 - 1) with 0 in Hclose.
  change (0 =? 0) with true in Hclose. cbv iota in Hclose.
  assert (Hres' : res = (0, Some (pos st + length pre + (length beginProof + length opt)
                                  + length (nestingSource n)))) by congruence.
  subst res. clear Hclose.
  destruct (chooseStableId_total txt (pos st + length pre) ttl (usedIds st) (proofCounter st))
    as [id Hid].
  assert (Hlen : length block
                 = length beginProof + length opt + length (nestingSource n) + length endProof).
  { unfold block. rewrite !length_app. lia. }
  do 2 eexists. unfold extractProofsTurn, substringFrom.
  rewrite (proj2 (Nat.ltb_lt _ _) Hpos), Hfind, Hres, Hid.
  split; [reflexivity|]. cbn [proofs pos]. split; [reflexivity|].
  cbn [pf_startIndex pf_fullMatch]. split_and!; [done| |lia].
  rewrite substring_from_to by lia. rewrite Hblock.
  replace (pos st + length pre + (length beginProof + length opt) + length (nestingSource n)
           + length endProof - (pos st + length pre)) with (length block) by lia.
  by rewrite take_app_length.
Qed.
End NestedFacts.

(** X5 — nested proofs are extracted whole, for every text: a proof
    environment whose body is well nested to any depth, met by the scan
    before any other [\begin{proof}], is returned as one element whose raw
    text runs from its [\begin{proof}] to the [\end{proof}] that closes
    it, and every other element starts behind it; no inner proof is an
    element of its own.  The optional title recognised after the opening
    is required to end before the body. *)
Lemma nested_proof_extracted_whole
    (figureInContentHTML : text -> text) (clock : nat -> nat)
    (pre opt post : text) (n : nesting) (ttl : option text) :
  free_of [beginProof] pre = true ->
  ok_nesting n = true ->
  m_begin_proof ((beginProof ++ opt ++ nestingSource n ++ endProof) ++ post)
    = Some (ttl, length beginProof + length opt) ->
  exists p later,
    extractProofs figureInContentHTML clock
      (pre ++ (beginProof ++ opt ++ nestingSource n ++ endProof) ++ post) = Some (p :: later) /\
    pf_startIndex p = length pre /\
    pf_fullMatch p = beginProof ++ opt ++ nestingSource n ++ endProof /\
    Forall (fun q => length pre + length (pf_fullMatch p) <= pf_startIndex q) later.
Proof.
  intros Hpre Hn Hopt.
  set (block := beginProof ++ opt ++ nestingSource n ++ endProof) in *.
  set (txt := pre ++ block ++ post).
  destruct (extractProofsTurn_nested figureInContentHTML clock txt pre opt post n ttl proofScan0)
    as (st1 & p & Hturn & Hproofs & Hstart & Hfull & Hpos); [by rewrite drop_0|done|done|done|].
  cbn [pos proofs proofScan0] in Hproofs, Hstart, Hpos. simpl in Hproofs.
  destruct (extractProofsLoop_total figureInContentHTML clock txt (length txt) st1)
    as [final Hfinal].
  { rewrite Hpos. unfold txt, block. rewrite !length_app. token_lia. }
  destruct (extractProofsLoop_later figureInContentHTML clock txt _ _ _ Hfinal)
    as (later & Hlater & Hall).
  exists p, later. split_and!; [|done|done|].
  - unfold extractProofs, extractProofsFrom. cbn [extractProofsLoop].
    fold txt. rewrite Hturn, Hfinal. simpl. by rewrite Hlater, Hproofs.
  - rewrite Hfull. eapply Forall_impl; [exact Hall|]. intros q Hq. simpl in Hq. lia.
Qed.

(** The lemma at the proof in a proof in a proof. *)
Example nested_proof_extracted_whole_example :
  exists p later,
    extractProofs noFigure (fun _ => 0) proofInProofInProof = Some (p :: later) /\
    pf_startIndex p = 0 /\
    pf_fullMatch p = proofInProofInProof /\
    Forall (fun q => length proofInProofInProof <= pf_startIndex q) later.
Proof.
  destruct (nested_proof_extracted_whole noFigure (fun _ => 0) [] [] [] bodyOfThree None)
    as (p & later & Hex & Hstart & Hfull & Hlater); [reflexivity|reflexivity|reflexivity|].
  exists p, later. split_and!.
  - rewrite <- Hex. reflexivity.
  - exact Hstart.
  - rewrite Hfull. reflexivity.
  - rewrite Hfull in Hlater. exact Hlater.
Defined.

(** Why the lemma asks the title to end before the body: a bracketed
    title takes everything up to the first closing bracket, delimiters
    included, and the depth count starts behind it. *)
Example title_swallows_a_delimiter :
  (map pf_fullMatch <$> extractProofs noFigure (fun _ => 0) delimiterInTitle)
  = Some [lit "\begin{proof}[\begin{proof}]\end{proof}"].
Proof. vm_compute. reflexivity. Qed.

(** ** Which stable ids can collide *)

Lemma firstUnused_fresh (fuel : nat) (used : gset text) (base : text) :
  forall cur counter id,
    firstUnused fuel used base cur counter = Some id -> id ∉ used.
Proof.
  induction fuel as [|fuel IH]; intros cur counter id; [done|].
  cbn [firstUnused]. case_bool_decide as Hin; [apply IH|]. by intros [= <-].
Qed.

(** An id derived from a label or a title is not in use; only the numeric
    fallback is taken unchecked. *)
Lemma chooseStableId_fresh (txt : text) (startPos : nat) (ttl : option text)
    (used : gset text) (counter : nat) (id : text) :
  chooseStableId txt startPos ttl used counter = Some id ->
  id ∉ used \/ id = lit "proof-num-" ++ decimal counter.
Proof.
  unfold chooseStableId.
  destruct (find_match m_free_label (substring txt 0 startPos)) as [[[i l] n]|].
  - intros H%firstUnused_fresh. by left.
  - destruct ttl as [t|].
    + intros H%firstUnused_fresh. by left.
    + intros [= <-]. by right.
Qed.

Section CollisionFacts.
Variable figureInContentHTML : text -> text.
Variable clock : nat -> nat.

Lemma extractProofsTurn_ids (txt : text) (st st' : proofScan) :
  ids_tracked st ->
  extractProofsTurn figureInContentHTML clock txt st = Continue st' ->
  ids_tracked st'.
Proof.
  intros (Hused & Hdistinct). unfold extractProofsTurn.
  destruct (pos st <? length txt); [|done].
  destruct (find_match m_begin_proof (substringFrom txt (pos st))) as [[[index ttl] len]|];
    [|done].
  destruct (scanProofEnd (S (length txt)) txt 1 (pos st + index + len)) as [[d [endPos|]]|];
    [| |done].
  - destruct (chooseStableId txt (pos st + index) ttl (usedIds st) (proofCounter st))
      as [id|] eqn:Eid; [|done].
    intros [= <-]. unfold ids_tracked. cbn [proofs usedIds]. split.
    + intros x. rewrite elem_of_union, elem_of_singleton, Hused.
      rewrite map_app, elem_of_app. simpl. rewrite list_elem_of_singleton. tauto.
    + intros i j p q Hij Hp Hq Heq.
      destruct (decide (j < length (proofs st))) as [Hj|Hj].
      * rewrite lookup_app_l in Hq by lia. rewrite lookup_app_l in Hp by lia.
        by apply (Hdistinct i j p q).
      * rewrite lookup_app_r in Hq by lia.
        assert (Hp' : proofs st !! i = Some p).
        { apply lookup_lt_Some in Hq as Hlen. simpl in Hlen.
          rewrite lookup_app_l in Hp by lia. done. }
        destruct (j - length (proofs st)) as [|j']; [|by destruct j'].
        injection Hq as <-. cbn [pf_stableId pf_proofNumber] in *.
        apply chooseStableId_fresh in Eid as [Hfresh | ->]; [|done].
        exfalso. apply Hfresh. apply Hused. rewrite <- Heq.
        apply list_elem_of_fmap. exists p. split; [done|].
        by eapply list_elem_of_lookup_2.
  - destruct (0 <? d); by intros [= <-].
Qed.

Lemma extractProofsLoop_ids (txt : text) (fuel : nat) :
  forall st final,
    ids_tracked st ->
    extractProofsLoop figureInContentHTML clock fuel txt st = Some final ->
    ids_tracked final.
Proof.
  induction fuel as [|fuel IH]; intros st final Hst; [done|].
  cbn [extractProofsLoop].
  destruct (extractProofsTurn figureInContentHTML clock txt st) as [|st'|] eqn:Et; [| |done].
  - by intros [= <-].
  - apply IH. by eapply extractProofsTurn_ids.
Qed.

(** X9 — two proofs of one document share a stable id only if the later
    one took the numeric fallback: the ids derived from labels and titles
    are disambiguated against everything assigned before them. *)
Lemma collisions_only_through_fallback (txt : text) (found : list proofElement) :
  extractProofs figureInContentHTML clock txt = Some found ->
  forall i j p q,
    i < j -> found !! i = Some p -> found !! j = Some q ->
    pf_stableId p = pf_stableId q ->
    pf_stableId q = lit "proof-num-" ++ decimal (pf_proofNumber q).
Proof.
  unfold extractProofs, extractProofsFrom.
  destruct (extractProofsLoop _ _ _ txt proofScan0) as [final|] eqn:El; [|done].
  intros [= <-].
  assert (H0 : ids_tracked proofScan0).
  { split; [|by intros i j p q _ Hp; cbn [proofs proofScan0] in Hp; rewrite lookup_nil in Hp].
    intros x. cbn [usedIds proofs proofScan0]. simpl. split; intros H.
    - by apply not_elem_of_empty in H.
    - by apply elem_of_nil in H. }
  by destruct (extractProofsLoop_ids txt _ _ _ H0 El) as [_ H].
Qed.
End CollisionFacts.

(** ** The start attribute of a nested enumerate *)

Lemma uint_digits (d : Decimal.uint) :
  forallb is_digit (list_ascii_of_string (NilEmpty.string_of_uint d)) = true.
Proof. induction d; simpl; by rewrite ?IHd. Qed.

Lemma decimal_digits (n : nat) : forallb is_digit (decimal n) = true.
Proof. apply uint_digits. Qed.

Lemma decimal_nonempty (n : nat) : decimal n <> [].
Proof.
  unfold decimal. intros H.
  assert (Hnil : Nat.to_uint n = Decimal.Nil).
  { destruct (Nat.to_uint n); simpl in H; done. }
  pose proof (Unsigned.of_to n) as Hn. rewrite Hnil in Hn. simpl in Hn. subst n. done.
Qed.

Lemma parseInt_uint (d : Decimal.uint) (acc : nat) :
  fold_left (fun acc c => 10 * acc + (nat_of_ascii c - 48))
            (list_ascii_of_string (NilEmpty.string_of_uint d)) acc
  = Nat.of_uint_acc d acc.
Proof.
  revert acc; induction d; intros acc; simpl fold_left; simpl Nat.of_uint_acc;
    rewrite ?Nat.tail_mul_spec; [done|..]; rewrite <- IHd; f_equal; simpl; lia.
Qed.

(** [parseInt] reads back what the template interpolation writes. *)
Lemma parseInt_decimal (n : nat) : parseInt (decimal n) = n.
Proof.
  unfold parseInt, decimal. rewrite parseInt_uint.
  change (Nat.of_uint_acc (Nat.to_uint n) 0) with (Nat.of_uint (Nat.to_uint n)).
  apply Unsigned.of_to.
Qed.

Lemma m_setcounter_enumi_at (n : nat) (rest : text) :
  m_setcounter_enumi (lit "\setcounter{enumi}{" ++ decimal n ++ lit "}" ++ rest)
  = Some (decimal n, 19 + length (decimal n) + 1).
Proof.
  unfold m_setcounter_enumi. rewrite after_app. cbv zeta.
  change (lit "}" ++ rest) with ("}"%char :: rest).
  rewrite take_while_app by (apply decimal_digits || reflexivity).
  pose proof (decimal_nonempty n) as Hne. destruct (decimal n) as [|c ds]; [done|].
  by rewrite drop_app_length.
Qed.

(** X14 — the callback of the nested enumerate replacement: when the
    first [\setcounter{enumi}{N}] of the matched environment sets the
    counter to [n], a number below [2^53], the list is given the start
    attribute [n + 1].  Below that bound the double-precision sum of the
    source is the sum of the natural numbers. *)
Lemma nested_enumerate_start
    (before behind enumContent : text) (optType : option text) (n : nat) :
  (Z.of_nat n < 2 ^ 53)%Z ->
  free_of [lit "\setcounter{enumi}{"] before = true ->
  exists listContent,
    nestedEnumerateHTML
      (before ++ lit "\setcounter{enumi}{" ++ decimal n ++ lit "}" ++ behind)
      optType enumContent
    = lit "<ol" ++ listStyleAttr optType ++ lit " start=`" ++ decimal (n + 1) ++ lit "`>"
      ++ listContent ++ lit "</ol>".
Proof.
  intros _ Hfree. unfold nestedEnumerateHTML. cbv zeta.
  rewrite (find_match_after m_setcounter_enumi before _ (decimal n)
             (19 + length (decimal n) + 1)).
  - rewrite parseInt_decimal.
    match goal with
    | |- exists _, _ ++ _ ++ _ ++ _ ++ ?lc ++ _ = _ => exists lc
    end.
    rewrite <- !app_assoc. reflexivity.
  - intros j Hj. unfold m_setcounter_enumi, after.
    assert (Hq : startsWith (lit "\setcounter{enumi}{")
                   (drop j before ++ lit "\setcounter{enumi}{" ++ decimal n ++ lit "}" ++ behind)
                 = false).
    { pose proof (quiet_free [lit "\setcounter{enumi}{"] before "\"
                    (drop 1 (lit "\setcounter{enumi}{") ++ decimal n ++ lit "}" ++ behind)
                    Hfree) as Hq.
      assert (Htails : Forall (fun p => "\"%char ∉ tail p) [lit "\setcounter{enumi}{"]).
      { apply tails_clear. reflexivity. }
      specialize (Hq Htails j Hj). rewrite occurs_at_false in Hq.
      apply (Hq (lit "\setcounter{enumi}{")). by left. }
    by rewrite Hq.
  - apply m_setcounter_enumi_at.
Qed.

(** ** The theorems at the sample documents *)

Lemma splice_offset_integrity_witness :
  well_placed twoSections 0 twoSectionElements /\
  html (spliceElements (generate noTopFigure) twoSections twoSectionElements)
    = lit "ab<h2>One</h2>cd<h3>Two</h3>ef" /\
  twoSections = weave (gapsOf twoSections 0 twoSectionElements) (map fullMatch twoSectionElements).
Proof.
  assert (Hwp : well_placed twoSections 0 twoSectionElements)
    by (vm_compute; repeat split; lia).
  destruct (splice_offset_integrity (generate noTopFigure) twoSections twoSectionElements Hwp)
    as (_ & Hhtml & Htxt & _).
  split_and!; [exact Hwp| |exact Htxt].
  rewrite Hhtml. vm_compute. reflexivity.
Defined.

Lemma splice_mismatch_skipped_witness :
  html (spliceFrom (generate noTopFigure) driftedState [sectionOne]) = html driftedState /\
  offset (spliceFrom (generate noTopFigure) driftedState [sectionOne]) = 0%Z /\
  length (errors (spliceFrom (generate noTopFigure) driftedState [sectionOne])) = 1.
Proof.
  assert (Hne : substringZ (html driftedState)
                  (Z.of_nat (startIndex sectionOne) + offset driftedState)
                  (Z.of_nat (startIndex sectionOne) + offset driftedState
                   + Z.of_nat (length (fullMatch sectionOne)))
                <> fullMatch sectionOne) by (vm_compute; discriminate).
  destruct (splice_mismatch_skipped (generate noTopFigure) driftedState sectionOne [] Hne)
    as (_ & _ & _ & Hhtml & Hoff & _).
  split_and!; [exact Hhtml|exact Hoff|vm_compute; reflexivity].
Defined.



(** * Further properties *)

(** ** Scans that find nothing, and matches written back unchanged *)

Section FixedFacts.
Context {A : Type} (m : matcher A).

(** A replacement whose callback returns every match as it stands leaves
    the text as it is. *)
Lemma replace_go_fixed (f : nat -> A -> text -> text) (s : text) :
  (forall j a n, m (drop j s) = Some (a, n) ->
     0 < n /\ forall k, f k a (take n (drop j s)) = take n (drop j s)) ->
  forall k skip, replace_go m f k skip s = drop skip s.
Proof.
  induction s as [|c s IH]; intros H k skip; [by rewrite drop_nil|].
  assert (Hs : forall j a n, m (drop j s) = Some (a, n) ->
             0 < n /\ forall k, f k a (take n (drop j s)) = take n (drop j s))
    by (intros j; apply (H (S j))).
  destruct skip as [|j]; simpl.
  - destruct (m (c :: s)) as [[a n]|] eqn:Em.
    + destruct (H 0 a n Em) as [Hn Hf]. rewrite drop_0 in Hf. rewrite Hf, IH by done.
      destruct n; [lia|]. simpl. rewrite Nat.sub_0_r. by rewrite take_drop.
    + by rewrite IH, drop_0.
  - by apply IH.
Qed.

Lemma matchless_tail (c : ascii) (s : text) : matchless m (c :: s) -> matchless m s.
Proof. intros H j. apply (H (S j)). Qed.

Lemma replace_all_matchless (f : nat -> A -> text -> text) (s : text) :
  matchless m s -> replace_all m f s = s.
Proof.
  intros H. unfold replace_all. rewrite replace_go_fixed; [apply drop_0|].
  intros j a n Hm. by rewrite H in Hm.
Qed.

Lemma find_match_matchless (s : text) : matchless m s -> find_match m s = None.
Proof.
  induction s as [|c s IH]; intros H; simpl.
  - pose proof (H 0) as H0. simpl in H0. by rewrite H0.
  - pose proof (H 0) as H0. rewrite drop_0 in H0. rewrite H0.
    by rewrite IH by (by eapply matchless_tail).
Qed.

Lemma replace_first_matchless (f : A -> text -> text) (s : text) :
  matchless m s -> replace_first m f s = s.
Proof. intros H. unfold replace_first. by rewrite find_match_matchless. Qed.

Lemma exec_go_matchless (s : text) :
  matchless m s -> forall i skip, exec_go m i skip s = [].
Proof.
  induction s as [|c s IH]; intros H i skip; [done|].
  simpl. pose proof (H 0) as H0. rewrite drop_0 in H0. rewrite H0.
  destruct skip; apply IH; by eapply matchless_tail.
Qed.

Lemma exec_all_matchless (s : text) : matchless m s -> exec_all m s = [].
Proof. intros H. by apply exec_go_matchless. Qed.

Lemma split_go_nonempty (s : text) : forall skip, split_go m skip s <> [].
Proof.
  induction s as [|c s IH]; intros skip; [done|].
  simpl. destruct skip; [|apply IH].
  destruct (m (c :: s)) as [[a n]|]; [done|].
  by destruct (split_go m 0 s).
Qed.

Lemma split_all_matchless (s : text) : matchless m s -> split_all m s = [s].
Proof.
  unfold split_all. induction s as [|c s IH]; intros H; [done|].
  simpl. pose proof (H 0) as H0. rewrite drop_0 in H0. rewrite H0.
  by rewrite IH by (by eapply matchless_tail).
Qed.
End FixedFacts.

(** ** The splice loop on arbitrary elements *)

Section SpliceAccounts.
Variable generate : element -> text.

Lemma spliceTurn_accounts (n : nat) (st : splice) (e : element) :
  Z.of_nat (length (html st)) = (Z.of_nat n + offset st)%Z ->
  Z.of_nat (length (html (spliceTurn generate st e)))
  = (Z.of_nat n + offset (spliceTurn generate st e))%Z /\
  length (errors (spliceTurn generate st e)) <= S (length (errors st)).
Proof.
  intros Hst. unfold spliceTurn. cbv zeta. unfold text_eqb.
  case_bool_decide as Heq; cbn [html offset errors].
  - split; [|lia].
    apply (f_equal length) in Heq. revert Heq.
    unfold substringZ, substringFromZ, substring.
    rewrite !length_app, !length_take, !length_drop. lia.
  - split; [done|]. rewrite length_app. simpl. lia.
Qed.

Lemma spliceFrom_accounts (n : nat) (els : list element) :
  forall st,
    Z.of_nat (length (html st)) = (Z.of_nat n + offset st)%Z ->
    Z.of_nat (length (html (spliceFrom generate st els)))
    = (Z.of_nat n + offset (spliceFrom generate st els))%Z /\
    length (errors (spliceFrom generate st els)) <= length els + length (errors st).
Proof.
  induction els as [|e els IH]; intros st Hst; [simpl; split; [done|lia]|].
  destruct (spliceTurn_accounts n st e Hst) as [Hlen Herr].
  destruct (IH _ Hlen) as [Hlen' Herr'].
  change (spliceFrom generate st (e :: els))
    with (spliceFrom generate (spliceTurn generate st e) els).
  split; [done|]. simpl. lia.
Qed.
End SpliceAccounts.

(** X1 — the bookkeeping of the splice loop, for any list of elements,
    well placed or not: after the loop the running [offset] is exactly the
    difference between the length of the working text and the length of
    the original, and no more diagnostics were written than there are
    elements. *)
Theorem splice_offset_is_length_drift
    (generate : element -> text) (txt : text) (els : list element) :
  let out := spliceElements generate txt els in
  Z.of_nat (length (html out)) = (Z.of_nat (length txt) + offset out)%Z /\
  length (errors out) <= length els.
Proof.
  intros out. subst out. unfold spliceElements.
  destruct (spliceFrom_accounts generate (length txt) els
              {| html := txt; offset := 0; errors := [] |}) as [Hlen Herr].
  - cbn [html offset]. lia.
  - split; [done|]. cbn [errors] in Herr. simpl in Herr. lia.
Qed.

(** ** Each extractor records the text it found *)

Lemma well_placed_mono (txt : text) (els : list element) (c c' : nat) :
  c' <= c -> well_placed txt c els -> well_placed txt c' els.
Proof.
  destruct els as [|e els]; [done|].
  simpl. intros Hc (H1 & H2 & H3 & H4). split_and!; [lia|done|done|done].
Qed.

Lemma well_placed_app (txt : text) (l1 l2 : list element) :
  forall c,
    well_placed txt c (l1 ++ l2) <->
    well_placed txt c l1 /\ well_placed txt (cursorAfter c l1) l2.
Proof.
  induction l1 as [|e l1 IH]; intros c; simpl.
  - unfold cursorAfter. simpl. tauto.
  - rewrite IH. unfold cursorAfter. simpl. tauto.
Qed.

Lemma cursorAfter_snoc (c : nat) (l : list element) (e : element) :
  cursorAfter c (l ++ [e]) = startIndex e + length (fullMatch e).
Proof. unfold cursorAfter. by rewrite fold_left_app. Qed.

(** The matches of a global [exec] loop lie in the text in their order,
    without overlapping, and each is the text of its span; so do elements
    that record the index and the text of these matches. *)
Lemma exec_go_placed {A : Type} (m : matcher A) (txt : text) :
  forall s i skip els,
    drop i txt = s ->
    map span els = map (fun x => (x.1.1, x.2)) (exec_go m i skip s) ->
    well_placed txt (i + skip) els.
Proof.
  induction s as [|c s IH]; intros i skip els Hs Hels.
  - destruct els; [done|discriminate].
  - assert (Hi : i < length txt).
    { apply (f_equal length) in Hs. rewrite length_drop in Hs. simpl in Hs. lia. }
    assert (Hs' : drop (S i) txt = s).
    { replace (S i) with (i + 1) by lia. by rewrite <- drop_drop, Hs. }
    simpl in Hels. destruct skip as [|j].
    + destruct (m (c :: s)) as [[a n]|] eqn:Em.
      * destruct els as [|e els]; [discriminate|].
        simpl in Hels. injection Hels as Hstart Hfull Hrest.
        simpl. rewrite Hstart, Hfull.
        assert (Hlen : length (take n (c :: s)) <= length (c :: s))
          by (rewrite length_take; lia).
        assert (Htxt : length (c :: s) = length txt - i)
          by (by rewrite <- Hs, length_drop).
        split_and!; [lia|lia| |].
        -- rewrite substring_from_to by lia.
           replace (i + length (take n (c :: s)) - i) with (length (take n (c :: s))) by lia.
           rewrite Hs, length_take.
           destruct (decide (n <= length (c :: s))) as [Hn|Hn].
           ++ by rewrite Nat.min_l by lia.
           ++ rewrite Nat.min_r by lia. by rewrite !take_ge by lia.
        -- apply (well_placed_mono _ _ (S i + (n - 1))).
           ++ rewrite length_take. lia.
           ++ by apply IH.
      * apply (well_placed_mono _ _ (S i + 0)); [lia|]. by apply IH.
    + replace (i + S j) with (S i + j) by lia. by apply IH.
Qed.

Lemma exec_all_placed {A : Type} (m : matcher A) (txt : text) (els : list element) :
  map span els = map (fun x => (x.1.1, x.2)) (exec_all m txt) ->
  well_placed txt 0 els.
Proof. intros H. by apply (exec_go_placed m txt txt 0 0). Qed.

Section TheoremSpans.
Variable figureInContentHTML : text -> text.
Variable labels : gmap text labelEntry.

Lemma extractTheorems_spans (txt : text) :
  map span (map ElTheorem (extractTheorems figureInContentHTML labels txt))
  = map (fun x => (x.1.1, x.2)) (exec_all m_theorem txt).
Proof.
  unfold extractTheorems.
  assert (Hgen : forall found st,
    map span (map ElTheorem
      (snd (fold_left (extractTheoremsTurn figureInContentHTML labels) found st)))
    = map span (map ElTheorem (snd st)) ++ map (fun x => (x.1.1, x.2)) found).
  { induction found as [|[[idx [[env ttl] body]] w] found IH]; intros [counts acc].
    - simpl. by rewrite app_nil_r.
    - simpl fold_left. rewrite IH. cbn [snd]. rewrite !map_app, <- app_assoc. done. }
  by rewrite Hgen.
Qed.
End TheoremSpans.

Section ProofSpans.
Variable figureInContentHTML : text -> text.
Variable clock : nat -> nat.

Lemma extractProofsTurn_placed (txt : text) (st st' : proofScan) :
  proofs_placed txt st ->
  extractProofsTurn figureInContentHTML clock txt st = Continue st' ->
  proofs_placed txt st'.
Proof.
  intros (Hwp & Hcur & Hcount & Hnum). unfold extractProofsTurn.
  destruct (pos st <? length txt) eqn:Hpos; [|done]. apply Nat.ltb_lt in Hpos.
  unfold substringFrom.
  destruct (find_match m_begin_proof (drop (pos st) txt)) as [[[index ttl] len]|] eqn:Ef;
    [|done].
  apply find_match_Some in Ef as (Hindex & Hm & _). rewrite length_drop in Hindex.
  apply m_begin_proof_bound in Hm. rewrite !length_drop in Hm.
  destruct (scanProofEnd (S (length txt)) txt 1 (pos st + index + len)) as [[d r]|] eqn:Hscan;
    [|done].
  apply scanProofEnd_result in Hscan; [|lia].
  destruct r as [endPos|].
  - destruct (chooseStableId txt (pos st + index) ttl (usedIds st) (proofCounter st));
      [|done].
    intros [= <-]. unfold proofs_placed. cbn [proofs pos proofCounter].
    rewrite map_app. cbn [map]. rewrite cursorAfter_snoc.
    cbn [startIndex fullMatch pf_startIndex pf_fullMatch].
    assert (Hfull : length (substring txt (pos st + index) (endPos + 11))
                    = endPos + 11 - (pos st + index)).
    { rewrite substring_from_to by token_lia. rewrite length_take, length_drop. token_lia. }
    split_and!.
    + apply well_placed_app. split; [done|]. simpl.
      rewrite Hfull. split_and!; [lia|token_lia| |done].
      f_equal. token_lia.
    + rewrite Hfull. token_lia.
    + rewrite length_app. simpl. lia.
    + intros i p Hp. destruct (decide (i < length (proofs st))) as [Hi|Hi].
      * rewrite lookup_app_l in Hp by lia. by apply Hnum.
      * rewrite lookup_app_r in Hp by lia.
        destruct (i - length (proofs st)) as [|k] eqn:Ek; [|by destruct k].
        injection Hp as <-. cbn [pf_proofNumber]. lia.
  - destruct (0 <? d) eqn:Ed; intros [= <-]; [|done].
    unfold proofs_placed. cbn [proofs pos proofCounter]. split_and!; [done|lia|done|done].
Qed.

Lemma extractProofsLoop_placed (txt : text) (fuel : nat) :
  forall st final,
    proofs_placed txt st ->
    extractProofsLoop figureInContentHTML clock fuel txt st = Some final ->
    proofs_placed txt final.
Proof.
  induction fuel as [|fuel IH]; intros st final Hst; [done|].
  cbn [extractProofsLoop].
  destruct (extractProofsTurn figureInContentHTML clock txt st) as [|st'|] eqn:Et; [| |done].
  - by intros [= <-].
  - apply IH. by eapply extractProofsTurn_placed.
Qed.

Lemma extractProofsTurn_opens (txt : text) (st st' : proofScan) :
  Forall (fun p => startsWith beginProof (pf_fullMatch p) = true) (proofs st) ->
  extractProofsTurn figureInContentHTML clock txt st = Continue st' ->
  Forall (fun p => startsWith beginProof (pf_fullMatch p) = true) (proofs st').
Proof.
  intros Hst. unfold extractProofsTurn.
  destruct (pos st <? length txt) eqn:Hpos; [|done].
  unfold substringFrom.
  destruct (find_match m_begin_proof (drop (pos st) txt)) as [[[index ttl] len]|] eqn:Ef;
    [|done].
  apply find_match_Some in Ef as (Hindex & Hm & _).
  pose proof (m_begin_proof_bound _ _ _ Hm) as Hlen.
  destruct (scanProofEnd (S (length txt)) txt 1 (pos st + index + len)) as [[d r]|] eqn:Hscan;
    [|done].
  apply scanProofEnd_result in Hscan; [|lia].
  destruct r as [endPos|].
  - destruct (chooseStableId txt (pos st + index) ttl (usedIds st) (proofCounter st));
      [|done].
    intros [= <-]. cbn [proofs]. apply Forall_app. split; [done|].
    repeat constructor. cbn [pf_fullMatch].
    rewrite substring_from_to by token_lia.
    unfold m_begin_proof in Hm.
    destruct (after beginProof (drop index (drop (pos st) txt))) as [r|] eqn:Ea; [|done].
    apply after_Some in Ea. rewrite drop_drop in Ea. rewrite Ea.
    rewrite take_app_ge by token_lia. apply startsWith_app.
  - destruct (0 <? d); by intros [= <-].
Qed.

Lemma extractProofsLoop_delimited (txt : text) (fuel : nat) :
  forall st final,
    Forall (fun p => startsWith beginProof (pf_fullMatch p) = true /\
                     endsWith endProof (pf_fullMatch p) = true) (proofs st) ->
    extractProofsLoop figureInContentHTML clock fuel txt st = Some final ->
    Forall (fun p => startsWith beginProof (pf_fullMatch p) = true /\
                     endsWith endProof (pf_fullMatch p) = true) (proofs final).
Proof.
  induction fuel as [|fuel IH]; intros st final Hst; [done|].
  cbn [extractProofsLoop].
  destruct (extractProofsTurn figureInContentHTML clock txt st) as [|st'|] eqn:Et; [| |done].
  - by intros [= <-].
  - apply IH. apply Forall_and. apply Forall_and in Hst as [Ho Hc]. split.
    + by eapply extractProofsTurn_opens.
    + apply (extractProofsTurn_shape figureInContentHTML clock) in Et
        as [(p & -> & _ & _ & Hp)|[-> _]]; [|done].
      apply Forall_app. split; [done|]. by repeat constructor.
Qed.

Lemma extractProofs_returns (txt : text) :
  exists final,
    extractProofsLoop figureInContentHTML clock (S (length txt)) txt proofScan0 = Some final /\
    extractProofs figureInContentHTML clock txt = Some (proofs final).
Proof.
  destruct (extractProofsLoop_total figureInContentHTML clock txt (S (length txt)) proofScan0)
    as [final Hfinal]; [lia|].
  exists final. split; [done|].
  unfold extractProofs, extractProofsFrom. by rewrite Hfinal.
Qed.
End ProofSpans.

(** X2 — what the five extractors built on a global [exec] loop return,
    for every text: the elements of one extractor lie in the text in list
    order without overlapping, none reaches beyond the end of the text,
    and the raw text each records is the text of its span.  (For the two
    list extractors the text is whatever they are given, here [txt]; in
    [convertLaTeXToHTML] it is the masked copy.) *)
Theorem regex_extractors_well_placed
    (figureInContentHTML : text -> text) (labels : gmap text labelEntry) (txt : text) :
  well_placed txt 0 (map ElTheorem (extractTheorems figureInContentHTML labels txt)) /\
  well_placed txt 0 (map ElSection (extractSections txt)) /\
  well_placed txt 0 (map ElFigure (extractFigures txt)) /\
  well_placed txt 0 (map ElEnumerate (extractEnumerates txt)) /\
  well_placed txt 0 (map ElItemize (extractItemizes txt)).
Proof.
  split_and!.
  - apply (exec_all_placed m_theorem). apply extractTheorems_spans.
  - apply (exec_all_placed m_section). unfold extractSections.
    rewrite !map_map. apply map_ext. by intros [[idx [level ttl]] w].
  - apply (exec_all_placed m_figure). unfold extractFigures.
    rewrite !map_map. apply map_ext. by intros [[idx body] w].
  - apply (exec_all_placed (env_opt beginEnumerate endEnumerate)). unfold extractEnumerates.
    rewrite !map_map. apply map_ext. by intros [[idx [opt body]] w].
  - apply (exec_all_placed (env_plain beginItemize endItemize)). unfold extractItemizes.
    rewrite !map_map. apply map_ext. by intros [[idx body] w].
Qed.

(** X3 — what [extractProofs] returns, for every text: a list of proofs
    that lie in the text in list order without overlapping, each recording
    the text of its own span, which begins with [\begin{proof}] and ends
    with [\end{proof}]; and the proof at index [i] of the list carries the
    proof number [i]. *)
Theorem extractProofs_well_placed
    (figureInContentHTML : text -> text) (clock : nat -> nat) (txt : text) :
  exists found,
    extractProofs figureInContentHTML clock txt = Some found /\
    well_placed txt 0 (map ElProof found) /\
    Forall (fun p => startsWith beginProof (pf_fullMatch p) = true /\
                     endsWith endProof (pf_fullMatch p) = true) found /\
    (forall i p, found !! i = Some p -> pf_proofNumber p = i).
Proof.
  destruct (extractProofs_returns figureInContentHTML clock txt) as (final & Hloop & Hfound).
  exists (proofs final). split; [done|].
  assert (Hd : Forall (fun p => startsWith beginProof (pf_fullMatch p) = true /\
                              endsWith endProof (pf_fullMatch p) = true) (proofs final)).
  { eapply extractProofsLoop_delimited; [|exact Hloop]. constructor. }
  assert (H0 : proofs_placed txt proofScan0).
  { unfold proofs_placed. cbn [proofs pos proofCounter proofScan0]. simpl.
    split_and!; [done|unfold cursorAfter; simpl; lia|done|].
    intros i p Hp. by rewrite lookup_nil in Hp. }
  destruct (extractProofsLoop_placed figureInContentHTML clock txt _ _ _ H0 Hloop)
    as (Hwp & _ & _ & Hnum).
  by split_and!.
Qed.

Lemma extractProofs_none
    (figureInContentHTML : text -> text) (clock : nat -> nat) (txt : text) :
  includes beginProof txt = false \/ includes endProof txt = false ->
  extractProofs figureInContentHTML clock txt = Some [].
Proof.
  intros Hfree.
  destruct (extractProofs_returns figureInContentHTML clock txt) as (final & Hloop & Hfound).
  rewrite Hfound. f_equal.
  assert (H0 : proofs_placed txt proofScan0).
  { unfold proofs_placed. cbn [proofs pos proofCounter proofScan0]. simpl.
    split_and!; [done|unfold cursorAfter; simpl; lia|done|].
    intros i p Hp. by rewrite lookup_nil in Hp. }
  destruct (extractProofsLoop_placed figureInContentHTML clock txt _ _ _ H0 Hloop)
    as (Hwp & _ & _ & _).
  assert (Hd : Forall (fun p => startsWith beginProof (pf_fullMatch p) = true /\
                              endsWith endProof (pf_fullMatch p) = true) (proofs final)).
  { eapply extractProofsLoop_delimited; [|exact Hloop]. constructor. }
  destruct (proofs final) as [|p rest]; [done|]. exfalso.
  apply Forall_cons in Hd as [[Hopen Hclose] _].
  simpl in Hwp. destruct Hwp as (_ & Hin & Hsub & _).
  rewrite substring_from_to in Hsub by lia.
  replace (pf_startIndex p + length (pf_fullMatch p) - pf_startIndex p)
    with (length (pf_fullMatch p)) in Hsub by lia.
  pose proof (take_drop (length (pf_fullMatch p)) (drop (pf_startIndex p) txt)) as Hsplit.
  rewrite Hsub in Hsplit.
  destruct Hfree as [Hb|He].
  - apply (includes_false _ _ (pf_startIndex p)) in Hb.
    rewrite <- Hsplit in Hb. by rewrite (startsWith_app_r _ _ _ Hopen) in Hb.
  - unfold endsWith in Hclose. apply startsWith_inv in Hclose.
    apply (f_equal (@rev ascii)) in Hclose. rewrite rev_app_distr, !rev_involutive in Hclose.
    set (x := rev (drop (length (rev endProof)) (rev (pf_fullMatch p)))) in Hclose.
    apply (includes_false _ _ (pf_startIndex p + length x)) in He.
    rewrite <- drop_drop, <- Hsplit, Hclose in He.
    rewrite <- app_assoc, drop_app_length in He.
    by rewrite startsWith_app in He.
Qed.

(** X4 — proof markup that cannot be completed is never extracted: in a
    text without any [\begin{proof}], or without any [\end{proof}],
    [extractProofs] finds no proof, however many unmatched delimiters of
    the other kind the text holds. *)
Theorem extractProofs_needs_both_delimiters
    (figureInContentHTML : text -> text) (clock : nat -> nat) (txt : text) :
  includes beginProof txt = false \/ includes endProof txt = false ->
  extractProofs figureInContentHTML clock txt = Some [].
Proof. apply extractProofs_none. Qed.

(** The theorem at a proof that is opened twice and closed nowhere. *)
Lemma extractProofs_needs_both_delimiters_witness :
  extractProofs noFigure (fun _ => 0) (lit "\begin{proof}a\begin{proof}[b]c") = Some [].
Proof.
  apply extractProofs_needs_both_delimiters. right. vm_compute. reflexivity.
Defined.

(** ** The slug of a title *)

Lemma take_while_stop (p : ascii -> bool) (s : text) (d : ascii) (r : text) :
  drop (length (take_while p s)) s = d :: r -> p d = false.
Proof.
  induction s as [|c s IH]; simpl; [done|].
  destruct (p c) eqn:E; simpl; [done|]. by intros [= <- <-].
Qed.

Lemma includes_cons (p : text) (c : ascii) (s : text) :
  includes p (c :: s) = false <-> startsWith p (c :: s) = false /\ includes p s = false.
Proof.
  unfold includes. simpl. destruct (startsWith p (c :: s)).
  - split; [done|]. by intros [? _].
  - destruct (indexOf p s); simpl; split; try done. by intros [_ ?].
Qed.

Lemma non_slug_dash (c : ascii) :
  negb (is_lower c || is_digit c) = true -> is_slug c = true -> c = "-"%char.
Proof.
  unfold is_slug. intros Hn Hs. apply negb_true_iff in Hn. rewrite Hn in Hs.
  simpl in Hs. by apply Ascii.eqb_eq in Hs.
Qed.

(** How the replacement of [sanitize] proceeds: a character of the slug
    alphabet other than the dash is copied, and a run of other characters
    becomes one dash. *)
Lemma sanitize_step (k : nat) (c : ascii) (s : text) :
  replace_go m_non_slug (fun _ _ _ => lit "-") k 0 (c :: s) =
  if negb (is_lower c || is_digit c)
  then "-"%char ::
       replace_go m_non_slug (fun _ _ _ => lit "-") (S k) 0
         (drop (length (take_while (fun c => negb (is_lower c || is_digit c)) s)) s)
  else c :: replace_go m_non_slug (fun _ _ _ => lit "-") k 0 s.
Proof.
  cbn [replace_go]. unfold m_non_slug at 1. cbn [take_while].
  destruct (negb (is_lower c || is_digit c)) eqn:Ec; [|done].
  cbn [length]. rewrite Nat.sub_succ, Nat.sub_0_r.
  rewrite (take_while_drop (fun c => negb (is_lower c || is_digit c)) s) at 2.
  by rewrite replace_go_skip.
Qed.

Lemma sanitize_shape (n : nat) :
  forall s k, length s <= n ->
    let out := replace_go m_non_slug (fun _ _ _ => lit "-") k 0 s in
    forallb is_slug out = true /\
    includes (lit "--") out = false /\
    (forall c s', s = c :: s' -> negb (is_lower c || is_digit c) = false ->
                  exists o, out = c :: o).
Proof.
  induction n as [|n IH]; intros s k Hlen out; subst out.
  - destruct s; [|simpl in Hlen; lia]. by split_and!.
  - destruct s as [|c s]; [by split_and!|].
    rewrite sanitize_step. simpl in Hlen.
    destruct (negb (is_lower c || is_digit c)) eqn:Ec.
    + set (rest := drop (length (take_while (fun c => negb (is_lower c || is_digit c)) s)) s).
      assert (Hrest : length rest <= n) by (unfold rest; rewrite length_drop; lia).
      destruct (IH rest (S k) Hrest) as (Hall & Hdd & Hhead).
      split_and!.
      * simpl. by rewrite Hall.
      * apply includes_cons. split; [|done].
        destruct rest as [|d r] eqn:Er; [done|].
        pose proof (take_while_stop _ _ _ _ Er) as Hd.
        destruct (Hhead d r eq_refl Hd) as [o ->].
        change (lit "--") with ["-"%char; "-"%char]. cbn [startsWith].
        destruct (Ascii.eqb "-" d) eqn:Edash; [|by rewrite andb_false_r].
        apply Ascii.eqb_eq in Edash as <-. done.
      * intros c' s' [= <- <-] Hc. by rewrite Hc in Ec.
    + destruct (IH s k ltac:(lia)) as (Hall & Hdd & Hhead).
      split_and!.
      * simpl. rewrite Hall. unfold is_slug. apply negb_false_iff in Ec. by rewrite Ec.
      * apply includes_cons. split; [|done].
        change (lit "--") with ["-"%char; "-"%char]. cbn [startsWith].
        destruct (Ascii.eqb "-" c) eqn:Edash; [|done].
        apply Ascii.eqb_eq in Edash as <-. done.
      * intros c' s' [= <- <-] _. by eexists.
Qed.

Lemma slug_lower (s : text) : forallb is_slug s = true -> toLowerCase s = s.
Proof.
  induction s as [|c s IH]; [done|]. simpl. intros [Hc Hs]%andb_true_iff.
  unfold toLowerCase in *. simpl. rewrite IH by done. f_equal.
  unfold to_lower. destruct (is_upper c) eqn:Eu; [|done].
  exfalso. revert Hc Eu. unfold is_slug, is_lower, is_digit, is_upper.
  destruct (Ascii.eqb c "-") eqn:Ed.
  - apply Ascii.eqb_eq in Ed as ->. by vm_compute.
  - rewrite orb_false_r. intros H1 H2.
    apply andb_true_iff in H2 as [H2 H3]. apply Nat.leb_le in H2, H3.
    apply orb_true_iff in H1 as [H1|H1]; apply andb_true_iff in H1 as [H4 H5];
      apply Nat.leb_le in H4, H5; lia.
Qed.

(** X10 — the slug [sanitize] makes of a proof or box title, for every
    title: it is written in lower-case letters, digits and dashes only, no
    two dashes stand side by side, and sanitizing it again changes
    nothing. *)
Theorem sanitize_makes_a_slug (title : text) :
  forallb is_slug (sanitize title) = true /\
  includes (lit "--") (sanitize title) = false /\
  sanitize (sanitize title) = sanitize title.
Proof.
  unfold sanitize, replace_all.
  destruct (sanitize_shape (length (toLowerCase title)) (toLowerCase title) 0 (le_n _))
    as (Hall & Hdd & _).
  set (out := replace_go m_non_slug (fun _ _ _ => lit "-") 0 0 (toLowerCase title)) in *.
  split_and!; [done|done|].
  rewrite (slug_lower out Hall).
  rewrite replace_go_fixed; [apply drop_0|].
  intros j a n Hm. unfold m_non_slug in Hm.
  destruct (drop j out) as [|c r] eqn:Ed; [done|].
  cbn [take_while] in Hm.
  destruct (negb (is_lower c || is_digit c)) eqn:Ec; [|done].
  injection Hm as _ <-.
  assert (Hc : c = "-"%char).
  { apply non_slug_dash; [done|].
    rewrite forallb_forall in Hall. apply Hall. apply list_elem_of_In.
    apply (list_elem_of_lookup_2 _ j). by apply lookup_drop_head in Ed. }
  subst c.
  assert (Hrun : take_while (fun c => negb (is_lower c || is_digit c)) r = []).
  { destruct r as [|d r']; [done|]. cbn [take_while].
    destruct (negb (is_lower d || is_digit d)) eqn:Edd; [|done].
    assert (Hd : d = "-"%char).
    { apply non_slug_dash; [done|].
      rewrite forallb_forall in Hall. apply Hall. apply list_elem_of_In.
      apply (list_elem_of_lookup_2 _ (S j)).
      rewrite <- (Nat.add_1_r j), <- lookup_drop, Ed. done. }
    subst d. apply (includes_false _ _ j) in Hdd. by rewrite Ed in Hdd. }
  rewrite Hrun. split; [simpl; lia|]. intros k. reflexivity.
Qed.

(** ** The items of a list *)

Lemma take_while_all (p : ascii -> bool) (s : text) :
  forallb p s = true -> take_while p s = s.
Proof.
  induction s as [|c s IH]; [done|]. simpl. intros [Hc Hs]%andb_true_iff.
  rewrite Hc. f_equal. by apply IH.
Qed.

Lemma drop_while_length (p : ascii -> bool) (s : text) :
  length (drop_while p s) <= length s.
Proof. induction s as [|c s IH]; simpl; [done|]. destruct (p c); simpl; lia. Qed.

Lemma trimStart_head (c : ascii) (s : text) :
  trimStart (c :: s) = c :: s -> is_space c = false.
Proof.
  unfold trimStart. simpl. destruct (is_space c); [|done].
  intros H. apply (f_equal length) in H.
  pose proof (drop_while_length is_space s). simpl in H. lia.
Qed.

Lemma m_item_None (s : text) : startsWith (lit "\item") s = false -> m_item s = None.
Proof. intros H. unfold m_item, after. by rewrite H. Qed.

Lemma m_item_at (blanks rest : text) :
  forallb is_space blanks = true ->
  match rest with c :: _ => is_space c = false | [] => True end ->
  m_item ((lit "\item" ++ blanks) ++ rest) = Some (tt, length (lit "\item" ++ blanks)).
Proof.
  intros Hb Hrest. unfold m_item. rewrite <- app_assoc, after_app. rewrite length_app.
  destruct rest as [|c r].
  - by rewrite app_nil_r, take_while_all.
  - by rewrite take_while_app.
Qed.

Lemma itemsSource_cons (it : text * text) (items : list (text * text)) :
  itemsSource (it :: items) = (lit "\item" ++ fst it) ++ snd it ++ itemsSource items.
Proof. unfold itemsSource. simpl. by rewrite <- !app_assoc. Qed.

Lemma itemsSource_head (items : list (text * text)) :
  match itemsSource items with
  | c :: _ => c = "\"%char
  | [] => True
  end.
Proof. destruct items as [|it items]; [done|]. by rewrite itemsSource_cons. Qed.

(** The first replacement of the item rewriting, on a list of items. *)
Lemma items_replaced (items : list (text * text)) :
  forallb (fun it => forallb is_space (fst it) && text_eqb (trimStart (snd it)) (snd it)
                     && free_of [lit "\item"] (snd it)) items = true ->
  forall k,
    replace_go m_item (fun _ _ _ => lit "</li><li>") k 0 (itemsSource items)
    = concat (map (fun it => lit "</li><li>" ++ snd it) items).
Proof.
  induction items as [|[b x] items IH]; intros Hok k; [done|].
  cbn [forallb fst snd] in Hok. apply andb_true_iff in Hok as [Hit Hok].
  apply andb_true_iff in Hit as [Hit Hfree]. apply andb_true_iff in Hit as [Hb Htrim].
  apply bool_decide_eq_true in Htrim.
  rewrite itemsSource_cons. cbn [fst snd].
  pose proof (itemsSource_head items) as Hhead.
  rewrite (replace_go_match m_item _ (lit "\item" ++ b) _ k tt).
  - cbn [map concat snd]. rewrite <- app_assoc. f_equal.
    rewrite replace_go_copy; [by rewrite IH|].
    intros j Hj. apply m_item_None.
    destruct (itemsSource items) as [|c r] eqn:Er.
    + pose proof (quiet_free_end [lit "\item"] x Hfree j Hj) as Hq.
      rewrite occurs_at_false in Hq. apply Hq. by left.
    + subst c.
      assert (Htails : Forall (fun p => "\"%char ∉ tail p) [lit "\item"])
        by (apply tails_clear; reflexivity).
      pose proof (quiet_free [lit "\item"] x "\" r Hfree Htails j Hj) as Hq.
      rewrite occurs_at_false in Hq. apply Hq. by left.
  - done.
  - apply m_item_at; [done|].
    destruct x as [|c x'].
    + simpl. destruct (itemsSource items) as [|c r]; [done|]. by subst c.
    + simpl. by apply trimStart_head in Htrim.
Qed.

Lemma items_closed (items : list (text * text)) (y : text) :
  y ++ concat (map (fun it => lit "</li><li>" ++ snd it) items) ++ lit "</li>"
  = y ++ lit "</li>" ++ itemsHTML items.
Proof.
  revert y; induction items as [|[b x] items IH]; intros y.
  - unfold itemsHTML. cbn [map concat]. by rewrite app_nil_r.
  - unfold itemsHTML in *. cbn [map concat snd].
    change (lit "</li><li>") with (lit "</li>" ++ lit "<li>") at 1.
    rewrite <- !app_assoc. do 2 f_equal.
    specialize (IH (lit "<li>" ++ x)). rewrite <- !app_assoc in IH. exact IH.
Qed.

Lemma items_last (items : list (text * text)) :
  forall b x it,
    last ((b, x) :: items) = Some it ->
    exists pre,
      lit "<li>" ++ x ++ concat (map (fun it => lit "</li><li>" ++ snd it) items)
      = pre ++ lit "<li>" ++ snd it.
Proof.
  induction items as [|[b2 x2] items IH]; intros b x it Hlast.
  - injection Hlast as <-. exists []. cbn [map concat snd]. by rewrite app_nil_r.
  - destruct (IH b2 x2 it Hlast) as [pre Hpre].
    exists (lit "<li>" ++ x ++ lit "</li>" ++ pre).
    cbn [map concat snd]. change (lit "</li><li>") with (lit "</li>" ++ lit "<li>") at 1.
    rewrite <- !app_assoc. do 3 f_equal. exact Hpre.
Qed.

(** Behind an opening item tag, a closing one can only lie in what
    follows the tag. *)
Lemma endsWith_behind_li (pre x : text) :
  endsWith (lit "</li>") (pre ++ lit "<li>" ++ x) = true -> endsWith (lit "</li>") x = true.
Proof.
  unfold endsWith. rewrite !rev_app_distr, <- app_assoc.
  change (rev (lit "</li>")) with [">"; "i"; "l"; "/"; "<"]%char.
  change (rev (lit "<li>")) with [">"; "i"; "l"; "<"]%char.
  destruct (rev x) as [|a [|b [|c [|d [|e r]]]]]; simpl; rewrite ?andb_false_r; done.
Qed.

Lemma items_to_li (items : list (text * text)) :
  ok_items items = true -> itemsToLi (itemsSource items) = itemsHTML items.
Proof.
  intros Hok. unfold ok_items in Hok. apply andb_true_iff in Hok as [Hall Hlast].
  unfold itemsToLi, replace_all. rewrite (items_replaced items Hall).
  destruct items as [|[b x] items]; [done|].
  destruct (last ((b, x) :: items)) as [it|] eqn:El; [|done].
  apply negb_true_iff in Hlast.
  destruct (items_last items b x it El) as [pre Hpre].
  pose proof (items_closed items (lit "<li>" ++ x)) as Hc.
  unfold itemsHTML. cbn [map concat snd].
  set (rest := concat (map (fun it => lit "</li><li>" ++ snd it) items)) in *.
  assert (Heq : (lit "</li><li>" ++ x) ++ rest = lit "</li>" ++ (lit "<li>" ++ x ++ rest))
    by (rewrite <- app_assoc; reflexivity).
  rewrite Heq. cbv zeta. rewrite startsWith_app.
  change (drop 5 (lit "</li>" ++ (lit "<li>" ++ x ++ rest))) with (lit "<li>" ++ x ++ rest).
  destruct (endsWith (lit "</li>") (lit "<li>" ++ x ++ rest)) eqn:Ee.
  - rewrite Hpre in Ee. apply endsWith_behind_li in Ee. by rewrite Ee in Hlast.
  - unfold itemsHTML in Hc.
    rewrite <- ?app_assoc in Hc. rewrite <- ?app_assoc. exact Hc.
Qed.

(** X12 — the item rewriting shared by [generateItemizeHTML],
    [generateEnumerateHTML] and [convertListsInContent], on ASCII text.
    When the content of a list is a sequence of items, each an [\item],
    blanks and a body that holds no further [\item], does not begin with
    a blank, and, for the last one, does not end in a closing item tag,
    the rewriting yields exactly one [<li>] element per item, holding its
    body; so a top-level itemize or enumerate with this content becomes a
    well-formed list. *)
Theorem items_become_list_elements (items : list (text * text)) :
  ascii_text (itemsSource items) = true ->
  ok_items items = true ->
  itemsToLi (itemsSource items) = itemsHTML items /\
  (forall e : itemizeElement,
     it_content e = itemsSource items ->
     generateItemizeHTML e = lit "<ul>" ++ itemsHTML items ++ lit "</ul>") /\
  (forall e : enumerateElement,
     en_content e = itemsSource items ->
     generateEnumerateHTML e
     = lit "<ol" ++ listStyleAttr (en_listType e) ++ lit ">" ++ itemsHTML items ++ lit "</ol>").
Proof.
  intros _ Hok. pose proof (items_to_li items Hok) as Hli.
  split_and!; [done| |].
  - intros e He. unfold generateItemizeHTML. by rewrite He, Hli.
  - intros e He. unfold generateEnumerateHTML. cbv zeta. rewrite He, Hli.
    reflexivity.
Qed.

(** The theorem at two items, the first followed by a line break. *)
Lemma items_become_list_elements_witness :
  generateItemizeHTML
    {| it_content := lit "\item one|\item  two"; it_fullMatch := []; it_startIndex := 0 |}
  = lit "<ul><li>one|</li><li>two</li></ul>".
Proof.
  destruct (items_become_list_elements [(lit " ", lit "one|"); (lit "  ", lit "two")])
    as (_ & Hul & _); [vm_compute; reflexivity|vm_compute; reflexivity|].
  etransitivity; [apply Hul|]; vm_compute; reflexivity.
Defined.

(** ** What the label table holds *)




Section TableFacts.
Variable fs : text -> option text.
Variable path_dirname : text -> text.
Variable path_join : text -> text -> text.

End TableFacts.



(** ** Reading back the lines of an aux file *)

Section ExecFacts.
Context {A : Type} (m : matcher A).

Lemma exec_go_skip (w rest : text) (i : nat) :
  exec_go m i (length w) (w ++ rest) = exec_go m (i + length w) 0 rest.
Proof.
  revert i; induction w as [|c w IH]; intros i; simpl.
  - rewrite Nat.add_0_r. by destruct rest.
  - rewrite IH. f_equal. lia.
Qed.

Lemma exec_go_copy (x rest : text) (i : nat) :
  (forall j, j < length x -> m (drop j x ++ rest) = None) ->
  exec_go m i 0 (x ++ rest) = exec_go m (i + length x) 0 rest.
Proof.
  revert i; induction x as [|c x IH]; intros i H.
  - simpl. by rewrite Nat.add_0_r.
  - assert (H0 : m (c :: x ++ rest) = None) by (apply (H 0); simpl; lia).
    simpl. rewrite H0. rewrite IH.
    + f_equal. lia.
    + intros j Hj. apply (H (S j)). simpl. lia.
Qed.

Lemma exec_go_match (w rest : text) (i : nat) (a : A) :
  w <> [] ->
  m (w ++ rest) = Some (a, length w) ->
  exec_go m i 0 (w ++ rest) = (i, a, w) :: exec_go m (i + length w) 0 rest.
Proof.
  destruct w as [|c w]; [done|]. intros _ Hm.
  change (exec_go m i 0 ((c :: w) ++ rest))
    with (match m ((c :: w) ++ rest) with
          | Some (a, n) => (i, a, take n ((c :: w) ++ rest)) :: exec_go m (S i) (n - 1) (w ++ rest)
          | None => exec_go m (S i) 0 (w ++ rest)
          end).
  rewrite Hm. rewrite take_app_length. simpl. rewrite Nat.sub_0_r.
  rewrite exec_go_skip. do 2 f_equal. lia.
Qed.
End ExecFacts.

Lemma delimited0_app (o c : ascii) (t rest : text) :
  forallb (not_char c) t = true ->
  delimited0 o c (o :: t ++ c :: rest) = Some (t, rest).
Proof.
  intros Ht. unfold delimited0. rewrite Ascii.eqb_refl. cbv zeta.
  rewrite take_while_app; [|done|unfold not_char; by rewrite Ascii.eqb_refl].
  rewrite drop_app_length. by rewrite Ascii.eqb_refl.
Qed.

Lemma m_newlabel_None (s : text) : startsWith (lit "\newlabel") s = false -> m_newlabel s = None.
Proof. intros H. unfold m_newlabel, after. by rewrite H. Qed.

(** The expression on a full line: it stops behind the anchor. *)
Lemma m_newlabel_at (l : text) (e : labelEntry) (rest : text) :
  ok_record (l, e) = true ->
  let w := lit "\newlabel{" ++ l ++ lit "}{{" ++ number e ++ lit "}{" ++ page e
           ++ lit "}{" ++ title e ++ lit "}{" ++ anchor e ++ lit "}" in
  m_newlabel (w ++ rest) = Some ((l, number e, page e, Some (title e, anchor e)), length w).
Proof.
  unfold ok_record. cbn [fst snd]. rewrite !andb_true_iff, !negb_true_iff.
  intros ((((((Hl & Hlb) & Hn) & Hp) & Ht) & Ha) & Hab).
  unfold ok_field in *. unfold text_eqb in Hl. apply bool_decide_eq_false in Hl.
  unfold m_newlabel.
  change (lit "\newlabel{") with (lit "\newlabel" ++ ["{"%char]).
  rewrite <- !app_assoc. rewrite after_app. cbn [mbind option_bind].
  change (lit "}{{") with ("}"%char :: lit "{" ++ ["{"%char]).
  change (lit "}{") with ["}"%char; "{"%char].
  change (lit "}") with ["}"%char].
  cbn [app]. rewrite <- !app_assoc. cbn [app].
  rewrite (delimited1_app "{" "}" l _ Hl Hlb). cbn [mbind option_bind].
  rewrite after_app. cbn [mbind option_bind]. cbn [app].
  rewrite (delimited0_app "{" "}" (number e) _ Hn). cbn [mbind option_bind].
  rewrite (delimited0_app "{" "}" (page e) _ Hp). cbn [mbind option_bind].
  rewrite (delimited0_app "{" "}" (title e) _ Ht).
  rewrite (delimited0_app "{" "}" (anchor e) _ Hab).
  do 2 f_equal. repeat first [rewrite length_app | rewrite length_cons].
  change (length (lit "\newlabel")) with 9. change (length (lit "{")) with 1.
  cbn [length]. lia.
Qed.

Lemma recordsOf_lines (recs : list (text * labelEntry)) :
  forallb ok_record recs = true ->
  forall i,
    map (fun '(_, (label, num, pg, extra), _) => (label, mkEntry label num pg extra))
        (exec_go m_newlabel i 0 (auxSource recs))
    = recs.
Proof.
  induction recs as [|[l e] recs IH]; intros Hok i; [done|].
  cbn [forallb] in Hok. apply andb_true_iff in Hok as [Hrec Hok].
  pose proof (m_newlabel_at l e) as Hat. specialize (Hat (lit "{}}|" ++ auxSource recs) Hrec).
  cbv zeta in Hat.
  set (w := lit "\newlabel{" ++ l ++ lit "}{{" ++ number e ++ lit "}{" ++ page e
            ++ lit "}{" ++ title e ++ lit "}{" ++ anchor e ++ lit "}") in *.
  assert (Hsrc : auxSource ((l, e) :: recs) = w ++ lit "{}}|" ++ auxSource recs).
  { unfold auxSource, newlabelLine, w. cbn [map concat fst snd].
    rewrite <- !app_assoc. reflexivity. }
  rewrite Hsrc.
  rewrite (exec_go_match m_newlabel w _ i _ ltac:(by unfold w) Hat).
  rewrite (exec_go_copy m_newlabel (lit "{}}|")).
  - cbn [map]. rewrite IH by done. f_equal. f_equal.
    unfold ok_record in Hrec. cbn [fst snd] in Hrec.
    rewrite !andb_true_iff, !negb_true_iff in Hrec.
    destruct Hrec as ((_ & Ha) & _). unfold text_eqb in Ha. apply bool_decide_eq_false in Ha.
    destruct e as [n p t a]. unfold mkEntry. cbn [number page title anchor] in *.
    by destruct a.
  - intros j Hj. apply m_newlabel_None.
    change (length (lit "{}}|")) with 4 in Hj.
    destruct j as [|[|[|[|j]]]]; [reflexivity..|lia].
Qed.

(** X18 — a round trip through the aux format.  For a list of records
    whose fields hold no closing brace and whose label and anchor are not
    empty, written one per line as
    [\newlabel{label}{{number}{page}{title}{anchor}{}}], the record
    expression of [parseAuxFile] reads back exactly these records, in
    order, with all four fields of every entry. *)
Theorem aux_lines_read_back (recs : list (text * labelEntry)) :
  forallb ok_record recs = true ->
  recordsOf (auxSource recs) = recs.
Proof. intros Hok. unfold recordsOf, exec_all. by apply recordsOf_lines. Qed.

(** The theorem at two lines for one label. *)
Lemma aux_lines_read_back_witness :
  recordsOf
    (lit "\newlabel{t:a}{{1.1}{3}{Main}{theorem.1.1}{}}|\newlabel{t:a}{{2}{5}{}{x}{}}|")
  = [ (lit "t:a", {| number := lit "1.1"; page := lit "3"; title := lit "Main";
                     anchor := lit "theorem.1.1" |});
      (lit "t:a", {| number := lit "2"; page := lit "5"; title := [];
                     anchor := lit "x" |}) ].
Proof.
  apply (aux_lines_read_back
           [ (lit "t:a", {| number := lit "1.1"; page := lit "3"; title := lit "Main";
                            anchor := lit "theorem.1.1" |});
             (lit "t:a", {| number := lit "2"; page := lit "5"; title := [];
                            anchor := lit "x" |}) ]).
  vm_compute. reflexivity.
Defined.

(** ** The envelope of the document *)

Lemma startsWith_take (p x : text) (k : nat) :
  startsWith p (take k x) = true -> startsWith p x = true.
Proof.
  intros H. rewrite <- (take_drop k x). by apply startsWith_app_r.
Qed.

Lemma m_postamble_None (s : text) : startsWith endDocument s = false -> m_postamble s = None.
Proof. intros H. unfold m_postamble, after. by rewrite H. Qed.

Lemma m_postamble_Some (s : text) (a : unit) (n : nat) :
  m_postamble s = Some (a, n) -> startsWith endDocument s = true /\ n = length s.
Proof.
  unfold m_postamble, after. destruct (startsWith endDocument s); [|done].
  cbn [mbind option_bind]. by intros [= <- <-].
Qed.

Lemma m_preamble_None (s : text) :
  startsWith (lit "\documentclass") s = false -> m_preamble s = None.
Proof. intros H. unfold m_preamble, after. by rewrite H. Qed.

(** X19 — after the two cuts at the head of [convertLaTeXToHTML] the text
    holds no [\end{document}] any more, whatever the text was: everything
    from the first one on has been dropped. *)
Theorem stripEnvelope_drops_the_end (texContent : text) :
  includes endDocument (stripEnvelope texContent) = false.
Proof.
  unfold stripEnvelope. cbv zeta.
  set (s := replace_first m_preamble (fun _ _ => []) texContent).
  unfold replace_first.
  destruct (find_match m_postamble s) as [[[i a] n]|] eqn:Ef.
  - apply find_match_Some in Ef as (Hi & Hm & Hfirst).
    apply m_postamble_Some in Hm as [_ ->]. rewrite length_drop.
    rewrite (drop_ge s) by lia. rewrite !app_nil_r.
    apply includes_false_intro. intros j.
    destruct (startsWith endDocument (drop j (take i s))) eqn:E; [|done].
    destruct (decide (j < i)) as [Hj|Hj].
    + replace i with (j + (i - j)) in E by lia.
      rewrite <- take_drop_commute in E. apply startsWith_take in E.
      specialize (Hfirst j Hj). unfold m_postamble, after in Hfirst.
      by rewrite E in Hfirst.
    + rewrite drop_ge in E by (rewrite length_take; lia). done.
  - apply includes_false_intro. intros j.
    destruct (decide (j <= length s)) as [Hj|Hj].
    + pose proof (find_match_None m_postamble s j Ef Hj) as Hm.
      destruct (startsWith endDocument (drop j s)) eqn:E; [|done].
      unfold m_postamble, after in Hm. by rewrite E in Hm.
    + by rewrite drop_ge by lia.
Qed.

Lemma quiet_one (p x rest : text) (j : nat) :
  free_of [p] x = true ->
  match rest with
  | c :: _ => c ∉ tail p
  | [] => True
  end ->
  j < length x ->
  startsWith p (drop j x ++ rest) = false.
Proof.
  intros Hfree Hrest Hj. destruct rest as [|c r].
  - pose proof (quiet_free_end [p] x Hfree j Hj) as Hq.
    rewrite occurs_at_false in Hq. apply Hq. by left.
  - assert (Htails : Forall (fun q => c ∉ tail q) [p]) by (by repeat constructor).
    pose proof (quiet_free [p] x c r Hfree Htails j Hj) as Hq.
    rewrite occurs_at_false in Hq. apply Hq. by left.
Qed.

Lemma backslash_not_in_tail (p : text) :
  forallb (not_char "\") (tail p) = true -> "\"%char ∉ tail p.
Proof.
  intros H Hin. rewrite forallb_forall in H.
  specialize (H _ (proj1 (list_elem_of_In _ _) Hin)). by vm_compute in H.
Qed.

Lemma indexOf_after (p x rest : text) :
  (forall j, j < length x -> startsWith p (drop j x ++ p ++ rest) = false) ->
  indexOf p (x ++ p ++ rest) = Some (length x).
Proof.
  intros H. apply indexOf_intro.
  - intros j Hj. rewrite drop_app_le by lia. by apply H.
  - rewrite drop_app_length. apply startsWith_app.
Qed.

(** X20 — the two cuts on a document of the usual shape: text [pre]
    without a [\documentclass], the [\documentclass] with whatever follows
    it up to the first [\begin{document}], a body, and [\end{document}]
    with whatever follows it.  When neither [pre] nor the body holds an
    [\end{document}], what is left is [pre] followed by the body: the
    text before the [\documentclass] stays in the document. *)
Theorem stripEnvelope_keeps_the_body (pre opts body post : text) :
  free_of [lit "\documentclass"] pre = true ->
  free_of [beginDocument] opts = true ->
  free_of [endDocument] (pre ++ body) = true ->
  stripEnvelope
    (pre ++ lit "\documentclass" ++ opts ++ beginDocument ++ body ++ endDocument ++ post)
  = pre ++ body.
Proof.
  intros Hpre Hopts Hbody. unfold stripEnvelope. cbv zeta.
  assert (Hfirst :
    replace_first m_preamble (fun _ _ => [])
      (pre ++ lit "\documentclass" ++ opts ++ beginDocument ++ body ++ endDocument ++ post)
    = (pre ++ body) ++ endDocument ++ post).
  { unfold replace_first.
    set (n := 14 + (length opts + length beginDocument)).
    rewrite (find_match_after m_preamble pre _ tt n).
    - rewrite take_app_length. rewrite drop_app_add'; [|done].
      change (lit "\documentclass" ++ opts ++ beginDocument ++ body ++ endDocument ++ post)
        with (lit "\documentclass" ++ (opts ++ beginDocument ++ body ++ endDocument ++ post)).
      replace n with (length (lit "\documentclass" ++ opts ++ beginDocument))
        by (rewrite !length_app; reflexivity).
      replace (lit "\documentclass" ++ opts ++ beginDocument ++ body ++ endDocument ++ post)
        with ((lit "\documentclass" ++ opts ++ beginDocument) ++ body ++ endDocument ++ post)
        by (by rewrite <- !app_assoc).
      rewrite drop_app_length. by rewrite <- app_assoc.
    - intros j Hj. apply m_preamble_None.
      apply quiet_one; [done| |done]. apply backslash_not_in_tail. reflexivity.
    - unfold m_preamble. rewrite after_app. cbn [mbind option_bind].
      unfold lazy_until. rewrite indexOf_after; [done|].
      intros j Hj. apply quiet_one; [done| |done]. apply backslash_not_in_tail. reflexivity. }
  rewrite Hfirst. unfold replace_first.
  rewrite (find_match_after m_postamble (pre ++ body) _ tt (length (endDocument ++ post))).
  - rewrite take_app_length. rewrite drop_ge by (rewrite !length_app; lia).
    by rewrite !app_nil_r.
  - intros j Hj. apply m_postamble_None.
    apply quiet_one; [done| |done]. apply backslash_not_in_tail. reflexivity.
  - unfold m_postamble. by rewrite after_app.
Qed.

(** The theorem at a small document with a comment before the class. *)
Lemma stripEnvelope_keeps_the_body_witness :
  stripEnvelope
    (lit "% notes|\documentclass{article}\usepackage{x}\begin{document}Hello\end{document}junk")
  = lit "% notes|Hello".
Proof.
  apply (stripEnvelope_keeps_the_body (lit "% notes|") (lit "{article}\usepackage{x}")
           (lit "Hello") (lit "junk")); vm_compute; reflexivity.
Defined.

(** ** The closing passes *)

(** X23 — the last pass of [convertLaTeXToHTML], which replaces every
    [\sub] at a word boundary by the string [\sub], changes nothing: it
    returns every text as it was given. *)
Theorem subPass_changes_nothing (html : text) : subPass html = html.
Proof.
  unfold subPass, replace_all. rewrite replace_go_fixed; [apply drop_0|].
  intros j a n Hm. unfold m_sub in Hm.
  destruct (after (lit "\sub") (drop j html)) as [r|] eqn:Ea; [|done].
  cbn [mbind option_bind] in Hm. apply after_Some in Ea.
  assert (Hn : n = 4) by (destruct r as [|c r]; [|destruct (is_word c)]; congruence).
  subst n. split; [lia|]. intros k. unfold constant. by rewrite Ea.
Qed.

Lemma drop_while_fixed (p : ascii -> bool) (s : text) :
  length (drop_while p s) = length s -> drop_while p s = s.
Proof.
  destruct s as [|c s]; [done|]. simpl. destruct (p c); [|done].
  pose proof (drop_while_length p s). simpl. lia.
Qed.

Lemma trimEnd_length (s : text) : length (trimEnd s) <= length s.
Proof.
  unfold trimEnd. rewrite length_rev.
  pose proof (drop_while_length is_space (rev s)) as H. by rewrite length_rev in H.
Qed.

(** A text that [trim] leaves alone has no blank at either end. *)
Lemma trim_fixed (s : text) : trim s = s -> trimStart s = s /\ trimEnd s = s.
Proof.
  unfold trim. intros H.
  assert (Hs : trimStart s = s).
  { apply drop_while_fixed. apply (f_equal length) in H.
    pose proof (trimEnd_length (trimStart s)).
    pose proof (drop_while_length is_space s). unfold trimStart in *. lia. }
  split; [done|]. by rewrite Hs in H.
Qed.

Lemma trimEnd_last (s : text) :
  trimEnd s = s -> s <> [] -> exists s' c, s = s' ++ [c] /\ is_space c = false.
Proof.
  unfold trimEnd. intros H Hne. apply (f_equal (@rev ascii)) in H.
  rewrite rev_involutive in H.
  destruct (rev s) as [|c q] eqn:Er.
  - apply (f_equal (@rev ascii)) in Er. rewrite rev_involutive in Er. done.
  - exists (rev q), c. split.
    + apply (f_equal (@rev ascii)) in Er. by rewrite rev_involutive in Er.
    + by apply (trimStart_head c q).
Qed.

Lemma take_while_stops (p : ascii -> bool) (r : text) (c : ascii) (rest : text) :
  p c = false -> take_while p ((r ++ [c]) ++ rest) = take_while p (r ++ [c]).
Proof.
  intros Hc. induction r as [|a r IH]; simpl.
  - by rewrite Hc.
  - destruct (p a); [by f_equal|done].
Qed.

(** Whether a blank line starts at the head of a text that ends in a
    character other than a blank does not depend on what follows it. *)
Lemma blank_line_local (y : text) (c : ascii) (rest : text) :
  is_space c = false -> m_blank_line ((y ++ [c]) ++ rest) = m_blank_line (y ++ [c]).
Proof.
  intros Hc. destruct y as [|a r]; simpl.
  - destruct (Ascii.eqb c newline) eqn:E; [|done].
    apply Ascii.eqb_eq in E. subst c. done.
  - destruct (Ascii.eqb a newline); [|done]. by rewrite take_while_stops.
Qed.

Section SplitFacts.
Context {A : Type} (m : matcher A).

Lemma split_go_skip (w rest : text) :
  split_go m (length w) (w ++ rest) = split_go m 0 rest.
Proof. induction w as [|c w IH]; simpl; [by destruct rest|done]. Qed.

Lemma split_go_copy (x rest : text) :
  (forall j, j < length x -> m (drop j x ++ rest) = None) ->
  split_go m 0 (x ++ rest)
  = match split_go m 0 rest with
    | piece :: pieces => (x ++ piece) :: pieces
    | [] => [x]
    end.
Proof.
  induction x as [|c x IH]; intros H.
  - simpl. pose proof (split_go_nonempty m rest 0). by destruct (split_go m 0 rest).
  - assert (H0 : m (c :: x ++ rest) = None) by (apply (H 0); simpl; lia).
    simpl. rewrite H0. rewrite IH by (intros j Hj; apply (H (S j)); simpl; lia).
    pose proof (split_go_nonempty m rest 0). by destruct (split_go m 0 rest).
Qed.

Lemma split_go_match (w rest : text) (a : A) :
  w <> [] ->
  m (w ++ rest) = Some (a, length w) ->
  split_go m 0 (w ++ rest) = [] :: split_go m 0 rest.
Proof.
  destruct w as [|c w]; [done|]. intros _ Hm.
  change (split_go m 0 ((c :: w) ++ rest))
    with (match m ((c :: w) ++ rest) with
          | Some (_, n) => [] :: split_go m (n - 1) (w ++ rest)
          | None =>
              match split_go m 0 (w ++ rest) with
              | piece :: pieces => (c :: piece) :: pieces
              | [] => [[c]]
              end
          end).
  rewrite Hm. simpl. rewrite Nat.sub_0_r. by rewrite split_go_skip.
Qed.
End SplitFacts.

Lemma ok_paragraph_inv (para : text) :
  ok_paragraph para = true ->
  para <> [] /\ trim para = para /\ find_match m_blank_line para = None.
Proof.
  unfold ok_paragraph, text_eqb. rewrite !andb_true_iff, negb_true_iff.
  intros [[Hne Htrim] Hblank].
  apply bool_decide_eq_false in Hne. apply bool_decide_eq_true in Htrim.
  by destruct (find_match m_blank_line para).
Qed.

Lemma paragraph_head (para : text) :
  ok_paragraph para = true -> exists c r, para = c :: r /\ is_space c = false.
Proof.
  intros (Hne & Htrim & _)%ok_paragraph_inv.
  apply trim_fixed in Htrim as [Hstart _].
  destruct para as [|c r]; [done|]. exists c, r. split; [done|].
  by apply (trimStart_head c r).
Qed.

(** No blank line starts inside a paragraph, whatever follows it. *)
Lemma paragraph_quiet (para rest : text) (j : nat) :
  ok_paragraph para = true -> j < length para ->
  m_blank_line (drop j para ++ rest) = None.
Proof.
  intros (Hne & Htrim & Hblank)%ok_paragraph_inv Hj.
  apply trim_fixed in Htrim as [_ Hend].
  destruct (trimEnd_last para Hend Hne) as (p' & c & -> & Hc).
  rewrite length_app in Hj. simpl in Hj.
  pose proof (find_match_None m_blank_line _ j Hblank) as Hm.
  rewrite length_app in Hm. simpl in Hm. specialize (Hm ltac:(lia)).
  rewrite drop_app_le in Hm |- * by lia.
  by rewrite blank_line_local.
Qed.

Lemma join_cons (sep x y : text) (rest : list text) :
  join sep (x :: y :: rest) = x ++ sep ++ join sep (y :: rest).
Proof. reflexivity. Qed.

Lemma split_paragraphs (ps : list text) :
  ps <> [] -> forallb ok_paragraph ps = true ->
  split_all m_blank_line (join (lit "||") ps) = ps.
Proof.
  unfold split_all. induction ps as [|p ps IH]; [done|]. intros _ Hok.
  cbn [forallb] in Hok. apply andb_true_iff in Hok as [Hp Hps].
  destruct ps as [|q ps].
  - simpl. apply (split_all_matchless m_blank_line). intros j.
    destruct (decide (j < length p)) as [Hj|Hj].
    + pose proof (paragraph_quiet p [] j Hp Hj) as H. by rewrite app_nil_r in H.
    + by rewrite drop_ge by lia.
  - rewrite join_cons.
    rewrite split_go_copy by (intros j Hj; by apply paragraph_quiet).
    assert (Hq : ok_paragraph q = true) by (cbn [forallb] in Hps; by apply andb_true_iff in Hps as [? _]).
    destruct (paragraph_head q Hq) as (c & r & Hqc & Hc).
    rewrite (split_go_match m_blank_line (lit "||") _ tt); [|done|].
    + rewrite IH by done. by rewrite app_nil_r.
    + assert (Hj : exists r', join (lit "||") (q :: ps) = c :: r').
      { destruct ps; [by exists r|]. rewrite join_cons, Hqc. by eexists. }
      destruct Hj as [r' ->].
      change (lit "||" ++ c :: r') with (newline :: newline :: c :: r').
      unfold m_blank_line. rewrite Ascii.eqb_refl. cbn [take_while].
      change (is_space newline) with true. cbn iota. rewrite Hc. reflexivity.
Qed.

Lemma ok_paragraphs_kept (ps : list text) :
  forallb ok_paragraph ps = true ->
  filter (fun para => 0 < length para) (map trim ps) = ps.
Proof.
  induction ps as [|p ps IH]; [done|]. intros Hok.
  cbn [forallb] in Hok. apply andb_true_iff in Hok as [Hp Hps].
  apply ok_paragraph_inv in Hp as (Hne & Htrim & _).
  cbn [map]. rewrite Htrim. rewrite filter_cons_True by (destruct p; [done|simpl; lia]).
  by rewrite IH.
Qed.

Lemma paragraphs_of (ps : list text) :
  forallb ok_paragraph ps = true ->
  paragraphs (join (lit "||") ps) = join (lit "|") (map wrapParagraph ps).
Proof.
  intros Hok. unfold paragraphs. destruct ps as [|p ps]; [done|].
  rewrite split_paragraphs by done. by rewrite ok_paragraphs_kept.
Qed.

(** X21 — the paragraph pass on an ASCII text made of paragraphs
    separated by one empty line each, where a paragraph is any non-empty
    text without a blank at either end and without a blank line inside:
    every
    paragraph that begins with one of the block tags ([<figure], [<h]
    and a digit, [<div], [<ol], [<ul]) is passed on as it stands, every
    other one is wrapped into [<p>] and [</p>], and the results are joined
    by single line feeds in the order of the paragraphs. *)
Theorem paragraphs_wrap_each_paragraph (ps : list text) :
  forallb ascii_text ps = true ->
  forallb ok_paragraph ps = true ->
  paragraphs (join (lit "||") ps) = join (lit "|") (map wrapParagraph ps).
Proof. intros _. apply paragraphs_of. Qed.

(** The theorem at a heading, a paragraph of two lines and a list. *)
Lemma paragraphs_wrap_each_paragraph_witness :
  paragraphs (lit "<h2>One</h2>||first line|second line||<ol><li>a</li></ol>")
  = lit "<h2>One</h2>|<p>first line|second line</p>|<ol><li>a</li></ol>".
Proof.
  pose proof (paragraphs_wrap_each_paragraph
                [lit "<h2>One</h2>"; lit "first line|second line"; lit "<ol><li>a</li></ol>"])
    as H.
  specialize (H ltac:(vm_compute; reflexivity) ltac:(vm_compute; reflexivity)).
  etransitivity; [exact H|]. vm_compute. reflexivity.
Defined.

(** ** Prose without commands *)

Lemma after_without (p s : text) (c : ascii) (j : nat) :
  head p = Some c -> forallb (not_char c) s = true -> after p (drop j s) = None.
Proof.
  intros Hp Hs. destruct p as [|a p']; [done|]. injection Hp as ->.
  unfold after. destruct (drop j s) as [|d r] eqn:Ed; [done|].
  cbn [startsWith].
  assert (Hd : not_char c d = true).
  { rewrite forallb_forall in Hs. apply Hs. apply list_elem_of_In.
    apply (list_elem_of_lookup_2 _ j). by apply lookup_drop_head in Ed. }
  unfold not_char in Hd. apply negb_true_iff in Hd.
  by rewrite Ascii.eqb_sym, Hd.
Qed.

Lemma startsWith_without (p s : text) (c : ascii) (j : nat) :
  head p = Some c -> forallb (not_char c) s = true -> startsWith p (drop j s) = false.
Proof.
  intros Hp Hs. pose proof (after_without p s c j Hp Hs) as H.
  unfold after in H. by destruct (startsWith p (drop j s)).
Qed.

Lemma includes_without (p s : text) (c : ascii) :
  head p = Some c -> forallb (not_char c) s = true -> includes p s = false.
Proof.
  intros Hp Hs. apply includes_false_intro. intros j. by eapply startsWith_without.
Qed.

Section Without.
Variable c : ascii.
Variable s : text.
Hypothesis Hs : forallb (not_char c) s = true.

Lemma env_opt_without (opn cls : text) :
  head opn = Some c -> matchless (env_opt opn cls) s.
Proof. intros Ho j. unfold env_opt. by rewrite (after_without opn s c j). Qed.

Lemma env_plain_without (opn cls : text) :
  head opn = Some c -> matchless (env_plain opn cls) s.
Proof. intros Ho j. unfold env_plain. by rewrite (after_without opn s c j). Qed.

Lemma m_braced_without (cmd : text) (star : bool) :
  head cmd = Some c -> matchless (m_braced cmd star) s.
Proof. intros Ho j. unfold m_braced. by rewrite (after_without cmd s c j). Qed.

Lemma m_then_blanks_without (cmd : text) :
  head cmd = Some c -> matchless (m_then_blanks cmd) s.
Proof. intros Ho j. unfold m_then_blanks. by rewrite (after_without cmd s c j). Qed.

Lemma m_literal_without (p : text) :
  head p = Some c -> matchless (m_literal p) s.
Proof. intros Ho j. unfold m_literal. by rewrite (after_without p s c j). Qed.
End Without.

Section WithoutBackslash.
Variable s : text.
Hypothesis Hs : forallb (not_char "\") s = true.

Lemma m_preamble_without : matchless m_preamble s.
Proof. intros j. unfold m_preamble. by rewrite (after_without _ s "\" j). Qed.

Lemma m_postamble_without : matchless m_postamble s.
Proof. intros j. unfold m_postamble. by rewrite (after_without _ s "\" j). Qed.

Lemma m_figure_without : matchless m_figure s.
Proof. intros j. unfold m_figure. by rewrite (after_without _ s "\" j). Qed.

Lemma m_theorem_without : matchless m_theorem s.
Proof.
  intros j. unfold m_theorem. apply first_some_None. intros env _.
  by rewrite (env_opt_without "\" s Hs (lit "\begin{" ++ env ++ lit "}") _ eq_refl j).
Qed.

Lemma m_section_without : matchless m_section s.
Proof.
  intros j. unfold m_section. apply first_some_None. intros level _.
  by rewrite (after_without _ s "\" j).
Qed.

Lemma m_ref_without : matchless m_ref s.
Proof.
  intros j. unfold m_ref. apply first_some_None. intros cmd Hcmd.
  rewrite (after_without cmd s "\" j); [done| |done].
  unfold refCommands in Hcmd. apply list_elem_of_fmap in Hcmd as (name & -> & Hname).
  repeat (apply elem_of_cons in Hname as [->|Hname]; [reflexivity|]).
  by apply elem_of_nil in Hname.
Qed.

Lemma m_math_block_without : matchless m_math_block s.
Proof.
  intros j. unfold m_math_block, m_math_delim.
  rewrite first_some_None; [done|]. intros name _.
  by rewrite (after_without _ s "\" j).
Qed.

Lemma m_sub_without : matchless m_sub s.
Proof. intros j. unfold m_sub. by rewrite (after_without _ s "\" j). Qed.

Lemma umlautPasses_without : umlautPasses s = s.
Proof.
  unfold umlautPasses.
  assert (Hall : forallb (fun pg => bool_decide (head (fst pg) = Some "\"%char)) umlauts = true)
    by reflexivity.
  induction umlauts as [|[p glyph] l IH]; [done|].
  cbn [forallb fst] in Hall. apply andb_true_iff in Hall as [Hp Hl].
  apply bool_decide_eq_true in Hp.
  cbn [fold_left]. unfold replaceLiteral at 2.
  rewrite replace_all_matchless by (by apply (m_literal_without "\")).
  by apply IH.
Qed.

Lemma layoutPasses_without : layoutPasses s = s.
Proof.
  unfold layoutPasses, replaceLiteral. cbv zeta.
  rewrite (replace_all_matchless (env_plain _ _)) by (by apply (env_plain_without "\")).
  rewrite (replace_all_matchless (m_braced _ true)) by (by apply (m_braced_without "\")).
  rewrite (replace_all_matchless (m_braced _ false)) by (by apply (m_braced_without "\")).
  rewrite (replace_all_matchless (m_then_blanks _)) by (by apply (m_then_blanks_without "\")).
  by rewrite !(replace_all_matchless _ _ s) by (by apply (m_literal_without "\")).
Qed.

Lemma markupPasses_without : markupPasses s = s.
Proof.
  unfold markupPasses, inlineMarkup. cbv zeta.
  by rewrite !(replace_all_matchless _ _ s) by (by apply (m_braced_without "\")).
Qed.

Lemma linkReferences_without (labels : gmap text labelEntry) : linkReferences labels s = s.
Proof.
  unfold linkReferences, mathReferences, processReferences.
  rewrite (replace_all_matchless m_math_block) by apply m_math_block_without.
  by rewrite replace_all_matchless by apply m_ref_without.
Qed.

Lemma stripEnvelope_without : stripEnvelope s = s.
Proof.
  unfold stripEnvelope. cbv zeta.
  rewrite (replace_first_matchless m_preamble) by apply m_preamble_without.
  by rewrite replace_first_matchless by apply m_postamble_without.
Qed.

Lemma spliceDocument_without
    (figureInContentHTML : text -> text) (generateFigureHTML : figureElement -> text)
    (clock : nat -> nat) (labels : gmap text labelEntry) :
  spliceDocument figureInContentHTML generateFigureHTML clock labels s
  = Some {| html := s; offset := 0; errors := [] |}.
Proof.
  unfold spliceDocument, collectElements.
  rewrite (extractProofs_none figureInContentHTML clock s)
    by (left; by apply (includes_without _ _ "\")).
  cbn [mbind option_bind]. cbv zeta.
  unfold extractFigures, extractTheorems, extractSections.
  rewrite (exec_all_matchless m_figure) by apply m_figure_without.
  rewrite (exec_all_matchless m_theorem) by apply m_theorem_without.
  rewrite (exec_all_matchless m_section) by apply m_section_without.
  cbn [map fold_left snd app].
  change (maskedTextOf s [] []) with s.
  unfold extractEnumerates, extractItemizes.
  rewrite (exec_all_matchless (env_opt _ _)) by (by apply (env_opt_without "\")).
  rewrite (exec_all_matchless (env_plain _ _)) by (by apply (env_plain_without "\")).
  reflexivity.
Qed.
End WithoutBackslash.

Lemma without_join (c : ascii) (sep : text) (ps : list text) :
  forallb (not_char c) sep = true ->
  forallb (fun para => forallb (not_char c) para) ps = true ->
  forallb (not_char c) (join sep ps) = true.
Proof.
  intros Hsep. induction ps as [|p ps IH]; [done|]. intros Hps.
  cbn [forallb] in Hps. apply andb_true_iff in Hps as [Hp Hps].
  destruct ps as [|q ps]; [done|]. rewrite join_cons, !forallb_app.
  rewrite Hp, Hsep. by rewrite IH.
Qed.

Lemma ok_prose_inv (ps : list text) :
  forallb ok_prose ps = true ->
  forallb ok_paragraph ps = true /\
  forallb (fun para => forallb (not_char "\") para) ps = true /\
  forallb (fun para => forallb (not_char "<") para) ps = true.
Proof.
  induction ps as [|p ps IH]; [done|]. cbn [forallb]. unfold ok_prose at 1.
  rewrite !andb_true_iff. intros [[Hp Hc] Hps].
  destruct (IH Hps) as (H1 & H2 & H3). split_and!; try done.
  - rewrite forallb_forall in Hc |- *. intros x Hx. specialize (Hc x Hx).
    by apply andb_true_iff in Hc as [? _].
  - rewrite forallb_forall in Hc |- *. intros x Hx. specialize (Hc x Hx).
    by apply andb_true_iff in Hc as [_ ?].
Qed.

Lemma wrap_prose (ps : list text) :
  forallb (fun para => forallb (not_char "<") para) ps = true ->
  map wrapParagraph ps = map (fun para => lit "<p>" ++ para ++ lit "</p>") ps.
Proof.
  intros H. apply map_ext_in. intros p Hp.
  rewrite forallb_forall in H. specialize (H p Hp).
  unfold wrapParagraph, isBlock.
  pose proof (after_without (lit "<") p "<" 0 eq_refl H) as Ha. rewrite drop_0 in Ha.
  by rewrite Ha.
Qed.

(** X24 — [convertLaTeXToHTML] on plain prose, from the text of the
    source file to the body handed to [generateHTMLDocument].  When the
    text is ASCII and consists of paragraphs separated by one empty line
    each, and no paragraph holds a backslash or an opening angle bracket,
    no extractor
    finds an element, no pass finds a command, and the body is the same
    paragraphs, each wrapped into [<p>] and [</p>], joined by single line
    feeds: whatever the label table, the clock and the figure renderers
    are. *)
Theorem prose_becomes_paragraphs
    (figureInContentHTML : text -> text) (generateFigureHTML : figureElement -> text)
    (clock : nat -> nat) (labels : gmap text labelEntry) (ps : list text) :
  forallb ascii_text ps = true ->
  forallb ok_prose ps = true ->
  bodyContent figureInContentHTML generateFigureHTML clock labels (join (lit "||") ps)
  = Some (join (lit "|") (map (fun para => lit "<p>" ++ para ++ lit "</p>") ps)).
Proof.
  intros _ (Hpar & Hback & Hangle)%ok_prose_inv.
  assert (Hs : forallb (not_char "\") (join (lit "||") ps) = true)
    by (by apply without_join).
  assert (Hlt : forallb (not_char "<") (join (lit "||") ps) = true)
    by (by apply without_join).
  unfold bodyContent. rewrite (stripEnvelope_without _ Hs).
  rewrite (spliceDocument_without _ Hs). cbn [mbind option_bind html].
  rewrite (linkReferences_without _ Hs). f_equal.
  unfold closingPasses, padFigures.
  rewrite (replace_all_matchless (env_plain _ _)) by (by apply (env_plain_without "<")).
  rewrite (paragraphs_of ps Hpar), (wrap_prose ps Hangle).
  set (out := join (lit "|") (map (fun para => lit "<p>" ++ para ++ lit "</p>") ps)).
  assert (Hout : forallb (not_char "\") out = true).
  { apply without_join; [done|]. rewrite forallb_forall in Hback |- *.
    intros x Hx. apply in_map_iff in Hx as (p & <- & Hp).
    rewrite !forallb_app. by rewrite (Hback p Hp). }
  rewrite (layoutPasses_without _ Hout), (umlautPasses_without _ Hout).
  rewrite (markupPasses_without _ Hout).
  unfold subPass. by rewrite replace_all_matchless by (by apply m_sub_without).
Qed.

(** The theorem at two paragraphs, the second of two lines. *)
Lemma prose_becomes_paragraphs_witness :
  bodyContent noFigure noTopFigure (fun _ => 0) oneLabel
    (lit "A first paragraph.||A second one,|on two lines.")
  = Some (lit "<p>A first paragraph.</p>|<p>A second one,|on two lines.</p>").
Proof.
  apply (prose_becomes_paragraphs noFigure noTopFigure (fun _ => 0) oneLabel
           [lit "A first paragraph."; lit "A second one,|on two lines."]).
  - vm_compute. reflexivity.
  - vm_compute. reflexivity.
Defined.

(** ** The file name of an image *)

Lemma drop_while_idem (p : ascii -> bool) (s : text) :
  drop_while p (drop_while p s) = drop_while p s.
Proof.
  induction s as [|c s IH]; [done|]. simpl. destruct (p c) eqn:E; [done|].
  simpl. by rewrite E.
Qed.

Lemma drop_while_snoc (p : ascii -> bool) (l : text) (a : ascii) :
  p a = false -> drop_while p (l ++ [a]) = drop_while p l ++ [a].
Proof.
  intros Ha. induction l as [|c l IH]; simpl; [by rewrite Ha|].
  by destruct (p c).
Qed.

Lemma trimEnd_cons (a : ascii) (s : text) :
  is_space a = false -> trimEnd (a :: s) = a :: trimEnd s.
Proof.
  intros Ha. unfold trimEnd. simpl. rewrite drop_while_snoc by done.
  by rewrite rev_app_distr.
Qed.

Lemma drop_while_head (p : ascii -> bool) (s : text) :
  match drop_while p s with
  | a :: _ => p a = false
  | [] => True
  end.
Proof. induction s as [|c s IH]; [done|]. simpl. by destruct (p c) eqn:E. Qed.

(** What [trim] returns has no blank at either end. *)
Lemma trim_trimmed (s : text) :
  trimStart (trim s) = trim s /\ trimEnd (trim s) = trim s.
Proof.
  unfold trim. split.
  - pose proof (drop_while_head is_space s) as Hh. unfold trimStart at 2 3.
    destruct (drop_while is_space s) as [|a r]; [done|].
    rewrite trimEnd_cons by done. unfold trimStart. simpl. by rewrite Hh.
  - unfold trimEnd. rewrite rev_involutive. by rewrite drop_while_idem.
Qed.

Lemma trim_png (x : text) :
  match x with
  | a :: _ => is_space a = false
  | [] => True
  end ->
  trim (x ++ lit ".png") = x ++ lit ".png".
Proof.
  intros Hx. unfold trim.
  assert (Hs : trimStart (x ++ lit ".png") = x ++ lit ".png").
  { destruct x as [|a x]; [reflexivity|]. unfold trimStart. simpl. by rewrite Hx. }
  rewrite Hs. unfold trimEnd. rewrite rev_app_distr.
  change (rev (lit ".png")) with ("g"%char :: lit "np.").
  cbn [app drop_while]. change (is_space "g") with false. cbn iota.
  change ("g"%char :: lit "np." ++ rev x) with (rev (lit ".png") ++ rev x).
  by rewrite <- rev_app_distr, rev_involutive.
Qed.

Lemma toLowerCase_app (a b : text) :
  toLowerCase (a ++ b) = toLowerCase a ++ toLowerCase b.
Proof. apply map_app. Qed.

Lemma endsWith_app (p x : text) : endsWith p (x ++ p) = true.
Proof. unfold endsWith. rewrite rev_app_distr. apply startsWith_app. Qed.

Lemma png_has_extension (x : text) : hasImageExtension (x ++ lit ".png") = true.
Proof.
  unfold hasImageExtension, imageExtensions. cbn [map existsb].
  rewrite toLowerCase_app. change (toLowerCase (lit ".png")) with (lit ".png").
  by rewrite endsWith_app.
Qed.

Lemma png_not_pdf (x : text) : isPdf (x ++ lit ".png") = false.
Proof.
  unfold isPdf, endsWith. rewrite toLowerCase_app, rev_app_distr. reflexivity.
Qed.

(** A name that is trimmed, has a known extension and is no [.pdf] is
    left as it is. *)
Lemma imageFile_fixed (r : text) :
  trim r = r -> hasImageExtension r = true -> isPdf r = false -> imageFile r = r.
Proof. intros Ht He Hp. unfold imageFile. cbv zeta. by rewrite Ht, He, Hp. Qed.

Lemma imageFile_cases (filename : text) :
  let r := imageFile filename in
  trim r = r /\ hasImageExtension r = true /\ isPdf r = false.
Proof.
  unfold imageFile. cbv zeta.
  destruct (trim_trimmed filename) as [Hstart Hend].
  set (c := trim filename) in *.
  assert (Hc : trim c = c) by (unfold trim; by rewrite Hstart, Hend).
  assert (Hhead : forall k, match take k c with
                            | a :: _ => is_space a = false
                            | [] => True
                            end).
  { intros k. destruct c as [|a c']; [by destruct k|]. destruct k; [done|].
    simpl. by apply (trimStart_head a c'). }
  destruct (hasImageExtension c) eqn:He.
  - destruct (isPdf c) eqn:Hp.
    + split_and!; [apply trim_png; apply Hhead|apply png_has_extension|apply png_not_pdf].
    + by split_and!.
  - rewrite png_not_pdf. split_and!; [|apply png_has_extension|apply png_not_pdf].
    apply trim_png. specialize (Hhead (length c)). by rewrite firstn_all in Hhead.
Qed.

(** X25 — the file name [processImages], [generateFigureHTML] and
    [processFiguresInContent] put into the [src] of an image, for every
    captured name: it always ends, in whatever case, in one of [.png],
    [.jpg], [.jpeg], [.gif], [.svg], never in [.pdf], has no blank at
    either end, and normalising it again changes nothing. *)
Theorem imageFile_is_normal (filename : text) :
  hasImageExtension (imageFile filename) = true /\
  isPdf (imageFile filename) = false /\
  trim (imageFile filename) = imageFile filename /\
  imageFile (imageFile filename) = imageFile filename.
Proof.
  destruct (imageFile_cases filename) as (Ht & He & Hp).
  split_and!; [done|done|done|]. by apply imageFile_fixed.
Qed.

(** ** The depth of an output path *)

Section PathFacts.
Variable sep : ascii.

Lemma splitPath_free (x : text) :
  forallb (not_char sep) x = true -> splitPath sep x = [x].
Proof.
  induction x as [|c x IH]; [done|]. simpl. intros [Hc Hx]%andb_true_iff.
  unfold not_char in Hc. apply negb_true_iff in Hc. rewrite Hc. by rewrite IH.
Qed.

Lemma splitPath_app (x rest : text) :
  forallb (not_char sep) x = true ->
  splitPath sep (x ++ sep :: rest) = x :: splitPath sep rest.
Proof.
  induction x as [|c x IH]; simpl.
  - by rewrite Ascii.eqb_refl.
  - intros [Hc Hx]%andb_true_iff.
    unfold not_char in Hc. apply negb_true_iff in Hc. rewrite Hc. by rewrite IH.
Qed.

(** Splitting a path gives back the components it was joined from. *)
Lemma splitPath_join (parts : list text) :
  parts <> [] ->
  forallb (fun part => forallb (not_char sep) part) parts = true ->
  splitPath sep (joinPath sep parts) = parts.
Proof.
  unfold joinPath. induction parts as [|x parts IH]; [done|]. intros _ Hok.
  cbn [forallb] in Hok. apply andb_true_iff in Hok as [Hx Hparts].
  destruct parts as [|y parts]; [by apply splitPath_free|].
  rewrite join_cons. cbn [app]. rewrite splitPath_app by done. by rewrite IH.
Qed.

Lemma indexOfPart_at (name : text) (before rest : list text) :
  name ∉ before -> indexOfPart name (before ++ name :: rest) = Some (length before).
Proof.
  induction before as [|x before IH]; intros Hnot; simpl.
  - unfold text_eqb. by rewrite bool_decide_eq_true_2.
  - apply not_elem_of_cons in Hnot as [Hx Hnot].
    unfold text_eqb. rewrite bool_decide_eq_false_2 by done. by rewrite IH.
Qed.

Lemma indexOfPart_None (name : text) (parts : list text) :
  name ∉ parts -> indexOfPart name parts = None.
Proof.
  induction parts as [|x parts IH]; intros Hnot; [done|]. simpl.
  apply not_elem_of_cons in Hnot as [Hx Hnot].
  unfold text_eqb. rewrite bool_decide_eq_false_2 by done. by rewrite IH.
Qed.

Lemma getPathDepth_join (parts : list text) :
  parts <> [] ->
  forallb (fun part => forallb (not_char sep) part) parts = true ->
  getPathDepth sep (joinPath sep parts)
  = match indexOfPart (lit "html_preview") parts with
    | None => 1%Z
    | Some i => (Z.of_nat (length parts) - Z.of_nat i - 2)%Z
    end.
Proof. intros Hne Hok. unfold getPathDepth. by rewrite splitPath_join. Qed.

Lemma joinPath_nonempty (parts : list text) :
  forallb (fun part => forallb (not_char sep) part) parts = true ->
  lit "html_preview" ∈ parts ->
  exists c r, joinPath sep parts = c :: r.
Proof.
  intros Hok Hin.
  assert (Hne : parts <> []) by (intros ->; by apply elem_of_nil in Hin).
  pose proof (splitPath_join parts Hne Hok) as Hsplit.
  destruct (joinPath sep parts) as [|c r]; [|by eexists _, _].
  simpl in Hsplit. subst parts. apply list_elem_of_singleton in Hin. done.
Qed.
End PathFacts.

(** X26 — [getPathDepth] and the path prefix of [generateHTMLDocument] on
    a path given by its components, none of which holds the separator.
    When [html_preview] is a component, followed by some directories and
    a file name, the depth is the number of these directories and the
    prefix is that many [../]; when the path ends with the first
    [html_preview], the depth is [-1] and computing the prefix fails (the
    [RangeError] of [repeat]); when no component is [html_preview], the
    depth is [1]. *)
Theorem getPathDepth_counts_directories
    (sep : ascii) (before dirs : list text) (file : text) :
  forallb (fun part => forallb (not_char sep) part)
          (before ++ [lit "html_preview"] ++ dirs ++ [file]) = true ->
  lit "html_preview" ∉ before ->
  let outputPath := joinPath sep (before ++ [lit "html_preview"] ++ dirs ++ [file]) in
  getPathDepth sep outputPath = Z.of_nat (length dirs) /\
  pathPrefix sep (Some outputPath) = Some (concat (replicate (length dirs) (lit "../"))) /\
  getPathDepth sep (joinPath sep (before ++ [lit "html_preview"])) = (-1)%Z /\
  pathPrefix sep (Some (joinPath sep (before ++ [lit "html_preview"]))) = None /\
  (before <> [] -> getPathDepth sep (joinPath sep before) = 1%Z).
Proof.
  intros Hok Hnot outputPath.
  assert (Hok2 : forallb (fun part => forallb (not_char sep) part)
                   (before ++ [lit "html_preview"]) = true).
  { rewrite forallb_forall in Hok |- *. intros x Hx. apply Hok.
    rewrite in_app_iff in Hx |- *. destruct Hx as [Hx|Hx]; [by left|right].
    rewrite in_app_iff. by left. }
  assert (Hok3 : forallb (fun part => forallb (not_char sep) part) before = true).
  { rewrite forallb_forall in Hok |- *. intros x Hx. apply Hok.
    rewrite in_app_iff. by left. }
  assert (Hdepth : getPathDepth sep outputPath = Z.of_nat (length dirs)).
  { unfold outputPath. rewrite getPathDepth_join; [|by destruct before|done].
    change (before ++ [lit "html_preview"] ++ dirs ++ [file])
      with (before ++ lit "html_preview" :: dirs ++ [file]).
    rewrite indexOfPart_at by done.
    rewrite !length_app. cbn [length]. rewrite length_app. cbn [length]. lia. }
  assert (Hshort : getPathDepth sep (joinPath sep (before ++ [lit "html_preview"])) = (-1)%Z).
  { rewrite getPathDepth_join; [|by destruct before|done].
    rewrite indexOfPart_at by done. rewrite length_app. cbn [length]. lia. }
  split_and!; [done| |done| |].
  - destruct (joinPath_nonempty sep (before ++ [lit "html_preview"] ++ dirs ++ [file]) Hok)
      as (c & r & Hpath).
    { apply elem_of_app. right. by left. }
    unfold pathPrefix. fold outputPath in Hpath. rewrite Hpath, <- Hpath, Hdepth.
    destruct (Z.of_nat (length dirs) <? 0)%Z eqn:E; [apply Z.ltb_lt in E; lia|].
    by rewrite Nat2Z.id.
  - destruct (joinPath_nonempty sep (before ++ [lit "html_preview"]) Hok2) as (c & r & Hpath).
    { apply elem_of_app. right. by left. }
    unfold pathPrefix. rewrite Hpath, <- Hpath, Hshort. reflexivity.
  - intros Hne. rewrite getPathDepth_join by done. by rewrite indexOfPart_None.
Qed.

(** The theorem at a page two directories below [html_preview]. *)
Lemma getPathDepth_counts_directories_witness :
  pathPrefix "/" (Some (lit "site/html_preview/01-measure/sub/basics.html"))
  = Some (lit "../../").
Proof.
  destruct (getPathDepth_counts_directories "/" [lit "site"]
              [lit "01-measure"; lit "sub"] (lit "basics.html")) as (_ & H & _).
  - vm_compute. reflexivity.
  - intros Hin. apply list_elem_of_singleton in Hin. by vm_compute in Hin.
  - etransitivity; [exact H|]. vm_compute. reflexivity.
Defined.

(** ** The running numbers of the theorem-like boxes *)

Section TypeCounts.
Variable figureInContentHTML : text -> text.
Variable labels : gmap text labelEntry.

Lemma extractTheoremsTurn_ordered
    (st : gmap text nat * list theoremElement)
    (found : nat * (text * option text * text) * text) :
  counts_ordered st ->
  counts_ordered (extractTheoremsTurn figureInContentHTML labels st found).
Proof.
  destruct st as [counts acc]. destruct found as [[idx [[env ttl] body]] w].
  intros [Hbound Horder]. cbn [fst snd] in Hbound, Horder.
  unfold extractTheoremsTurn. cbv zeta. unfold counts_ordered. cbn [fst snd]. split.
  - intros t [Ht|Ht]%elem_of_app.
    + specialize (Hbound t Ht). destruct (decide (th_envName t = env)) as [He|Hne].
      * rewrite He in Hbound |- *. rewrite lookup_insert_eq. simpl. lia.
      * by rewrite lookup_insert_ne.
    + apply list_elem_of_singleton in Ht as ->. cbn [th_typeCount th_envName].
      rewrite lookup_insert_eq. simpl. lia.
  - intros i j t u Hij Ht Hu Henv.
    destruct (decide (j < length acc)) as [Hj|Hj].
    + rewrite lookup_app_l in Hu by lia. rewrite lookup_app_l in Ht by lia.
      by apply (Horder i j t u).
    + rewrite lookup_app_r in Hu by lia.
      assert (Ht' : acc !! i = Some t).
      { apply lookup_lt_Some in Hu as Hlen. simpl in Hlen.
        rewrite lookup_app_l in Ht by lia. done. }
      destruct (j - length acc) as [|k]; [|by destruct k].
      injection Hu as <-. cbn [th_typeCount th_envName] in *.
      specialize (Hbound t (list_elem_of_lookup_2 _ _ _ Ht')). rewrite Henv in Hbound. lia.
Qed.

Lemma extractTheorems_ordered (txt : text) :
  forall i j t u,
    i < j ->
    extractTheorems figureInContentHTML labels txt !! i = Some t ->
    extractTheorems figureInContentHTML labels txt !! j = Some u ->
    th_envName t = th_envName u -> th_typeCount t < th_typeCount u.
Proof.
  unfold extractTheorems.
  assert (Hgen : forall found st,
            counts_ordered st ->
            counts_ordered (fold_left (extractTheoremsTurn figureInContentHTML labels) found st)).
  { induction found as [|x found IH]; intros st Hst; [done|].
    simpl. apply IH. by apply extractTheoremsTurn_ordered. }
  assert (H0 : counts_ordered (∅, [])).
  { split; cbn [fst snd].
    - intros t Ht. by apply elem_of_nil in Ht.
    - intros i j t u _ Ht. by rewrite lookup_nil in Ht. }
  exact (proj2 (Hgen _ _ H0)).
Qed.
End TypeCounts.

(** X15 — the running number [typeCount] that [extractTheorems] gives to
    the boxes of one environment grows strictly along the document.  So
    two boxes of the same environment that have neither a label nor a
    title never share the id under which [generateTheoremHTML] stores
    their open state. *)
Theorem typeCounts_tell_boxes_apart
    (figureInContentHTML : text -> text) (labels : gmap text labelEntry) (txt : text)
    (i j : nat) (t u : theoremElement) :
  i < j ->
  extractTheorems figureInContentHTML labels txt !! i = Some t ->
  extractTheorems figureInContentHTML labels txt !! j = Some u ->
  th_envName t = th_envName u ->
  th_typeCount t < th_typeCount u /\
  (th_label t = None -> th_title t = None -> th_label u = None -> th_title u = None ->
   collapsibleId t <> collapsibleId u).
Proof.
  intros Hij Ht Hu Henv.
  pose proof (extractTheorems_ordered figureInContentHTML labels txt i j t u Hij Ht Hu Henv)
    as Hlt.
  split; [done|]. intros Hlt1 Htt Hlu Htu. unfold collapsibleId.
  rewrite Hlt1, Htt, Hlu, Htu, Henv. intros Heq.
  apply app_inv_head in Heq. apply app_inv_head in Heq. apply app_inv_head in Heq.
  apply decimal_inj in Heq. lia.
Qed.

(** The theorem at two remarks without label or title. *)
Lemma typeCounts_tell_boxes_apart_witness :
  exists t u,
    extractTheorems noFigure noLabels (lit "\begin{remark}a\end{remark}\begin{remark}b\end{remark}")
      !! 0 = Some t /\
    extractTheorems noFigure noLabels (lit "\begin{remark}a\end{remark}\begin{remark}b\end{remark}")
      !! 1 = Some u /\
    collapsibleId t = lit "collapsible-remark-1" /\
    collapsibleId u = lit "collapsible-remark-2" /\
    collapsibleId t <> collapsibleId u.
Proof.
  eexists _, _. split_and!; [vm_compute; reflexivity|vm_compute; reflexivity|
                             vm_compute; reflexivity|vm_compute; reflexivity|].
  eapply (typeCounts_tell_boxes_apart noFigure noLabels
            (lit "\begin{remark}a\end{remark}\begin{remark}b\end{remark}") 0 1).
  - lia.
  - vm_compute. reflexivity.
  - vm_compute. reflexivity.
  - reflexivity.
  - reflexivity.
  - reflexivity.
  - reflexivity.
  - reflexivity.
Defined.

(** ** Proofs nested one level deep *)


Lemma lazy_until_at (stop x rest : text) :
  free_of [stop] x = true ->
  match stop with
  | c :: _ => c ∉ tail stop
  | [] => False
  end ->
  lazy_until stop (x ++ stop ++ rest) = Some (x, length x + length stop).
Proof.
  intros Hfree Hstop. unfold lazy_until.
  rewrite indexOf_after.
  - by rewrite take_app_length.
  - intros j Hj. apply quiet_one; [done| |done].
    destruct stop as [|c stop']; [done|]. exact Hstop.
Qed.






(** ** Section headers from extraction to rendering *)

Lemma first_some_Some {A B : Type} (f : A -> option B) (l : list A) (v : B) :
  first_some f l = Some v -> exists x, x ∈ l /\ f x = Some v.
Proof.
  induction l as [|x l IH]; [done|]. simpl.
  destruct (f x) as [y|] eqn:E.
  - intros [= <-]. exists x. split; [by left|done].
  - intros H. destruct (IH H) as (x' & Hin & Hx'). exists x'. split; [by right|done].
Qed.

(** X16 — section headers from [extractSections] to
    [generateSectionHTML].  Every element [extractSections] returns has
    one of the three levels, a non-empty title, and as raw text the
    command with or without a star and the braced title; and
    [generateSectionHTML] renders it as the title between [<h2>], [<h3>]
    or [<h4>] tags, by its level: the fallback to [h2] for an unknown
    level is never taken. *)
Theorem extracted_sections_render (txt : text) (s : sectionElement) :
  s ∈ extractSections txt ->
  exists tag star,
    (sec_level s, tag) ∈ [ (lit "section", lit "h2"); (lit "subsection", lit "h3");
                           (lit "subsubsection", lit "h4") ] /\
    star ∈ [ []; lit "*" ] /\
    sec_title s <> [] /\
    sec_fullMatch s = lit "\" ++ sec_level s ++ star ++ lit "{" ++ sec_title s ++ lit "}" /\
    generateSectionHTML s
    = lit "<" ++ tag ++ lit ">" ++ sec_title s ++ lit "</" ++ tag ++ lit ">".
Proof.
  unfold extractSections. intros Hin.
  apply list_elem_of_fmap in Hin as ([[idx [level ttl]] w] & -> & Hexec).
  apply exec_all_spec in Hexec as (_ & n & Hm & ->).
  cbn [sec_level sec_title sec_fullMatch].
  unfold m_section in Hm. apply first_some_Some in Hm as (lv & Hlv & Hm).
  destruct (after (lit "\" ++ lv) (drop idx txt)) as [r|] eqn:Ea; [|done].
  cbn [mbind option_bind] in Hm. apply after_Some in Ea.
  set (st := match r with "*"%char :: _ => 1 | _ => 0 end) in Hm.
  destruct (delimited1 "{" "}" (drop st r)) as [[ttl' rest]|] eqn:Ed; [|done].
  cbn [mbind option_bind] in Hm. injection Hm as -> -> <-.
  apply delimited1_Some in Ed as (Hr & Hne & _).
  assert (Hstar : exists star, star ∈ [ []; lit "*" ] /\ r = star ++ drop st r
                               /\ length star = st).
  { destruct r as [|c r']; [exists []; split_and!; [by left|done|done]|].
    destruct (Ascii.eqb c "*") eqn:Ec.
    - apply Ascii.eqb_eq in Ec. subst c. exists (lit "*").
      split_and!; [right; by left|done|done].
    - exists []. assert (Hst : st = 0).
      { unfold st. destruct c as [[] [] [] [] [] [] [] []]; try done. }
      rewrite Hst. split_and!; [by left|done|done]. }
  destruct Hstar as (star & Hstar & Hrs & Hlen).
  assert (Htag : exists tag,
            (level, tag) ∈ [ (lit "section", lit "h2"); (lit "subsection", lit "h3");
                             (lit "subsubsection", lit "h4") ] /\
            generateSectionHTML
              {| sec_level := level; sec_title := ttl;
                 sec_fullMatch := take (1 + length level + st + (length ttl + 2)) (drop idx txt);
                 sec_startIndex := idx |}
            = lit "<" ++ tag ++ lit ">" ++ ttl ++ lit "</" ++ tag ++ lit ">").
  { repeat (apply elem_of_cons in Hlv as [->|Hlv];
            [eexists; split; [|reflexivity]; set_unfold; tauto|]).
    by apply elem_of_nil in Hlv. }
  destruct Htag as (tag & Htag & Hgen).
  exists tag, star. split_and!; [done|done|done| |done].
  rewrite Ea, Hrs, Hr. rewrite <- !app_assoc.
  change (lit "{" ++ ttl ++ lit "}") with ("{"%char :: ttl ++ ["}"%char]).
  replace (lit "\" ++ level ++ star ++ "{"%char :: ttl ++ "}"%char :: rest)
    with ((lit "\" ++ level ++ star ++ "{"%char :: ttl ++ ["}"%char]) ++ rest)
    by (rewrite <- !app_assoc; cbn [app]; by rewrite <- !app_assoc).
  rewrite take_app_length'; [done|].
  rewrite !length_app. cbn [length]. rewrite length_app. cbn [length].
  change (length (lit "\")) with 1. lia.
Qed.

(** The theorem at a starred subsection. *)
Lemma extracted_sections_render_witness :
  exists s,
    extractSections (lit "ab\subsection*{Two}ef") = [s] /\
    sec_fullMatch s = lit "\subsection*{Two}" /\
    generateSectionHTML s = lit "<h3>Two</h3>".
Proof.
  eexists. split; [vm_compute; reflexivity|].
  destruct (extracted_sections_render (lit "ab\subsection*{Two}ef")
              {| sec_level := lit "subsection"; sec_title := lit "Two";
                 sec_fullMatch := lit "\subsection*{Two}"; sec_startIndex := 2 |})
    as (tag & star & _ & _ & _ & Hfull & Hgen).
  - vm_compute. by left.
  - split; [reflexivity|]. vm_compute. reflexivity.
Defined.

(** ** The suffix that tells two stable ids apart *)

Lemma firstUnused_least (fuel : nat) (used : gset text) (base : text) :
  forall cur counter id,
    firstUnused fuel used base cur counter = Some id ->
    (id = cur /\ cur ∉ used) \/
    (exists k, counter <= k /\ id = base ++ lit "-" ++ decimal k /\ (id ∉ used) /\ (cur ∈ used) /\
               forall i, counter <= i < k -> (base ++ lit "-" ++ decimal i) ∈ used).
Proof.
  induction fuel as [|fuel IH]; intros cur counter id; [done|].
  cbn [firstUnused]. case_bool_decide as Hin; [|intros [= <-]; by left].
  intros H. right. apply IH in H as [[-> Hfree]|(k & Hk & -> & Hfree & Hcur & Hbelow)].
  - exists counter. split_and!; [lia|done|done|done|]. intros i Hi. lia.
  - exists k. split_and!; [lia|done|done|done|].
    intros i Hi. destruct (decide (i = counter)) as [->|Hne]; [done|].
    apply Hbelow. lia.
Qed.

(** X7 — how [extractProofs] chooses the stable id of a proof, for every
    text, position, optional title and set of ids in use.  The base is
    [proof-for-] and the label when a label stands before the proof with
    none of the guarded environments ending after it, else [proof-] and
    the slug of the title when there is a title.  The id is the base when
    the base is not in use; otherwise it is the base with the suffix
    [-k] for the least [k >= 1] for which this is not in use.  In both
    cases the id is not in use.  Without such a label and without a title
    the id is [proof-num-] and the proof counter, in use or not. *)
Theorem stable_id_takes_the_least_free_suffix
    (txt : text) (startPos : nat) (optionalTitle : option text)
    (used : gset text) (counter : nat) :
  exists id,
    chooseStableId txt startPos optionalTitle used counter = Some id /\
    match find_match m_free_label (substring txt 0 startPos), optionalTitle with
    | Some (_, label, _), _ =>
        let base := lit "proof-for-" ++ label in
        (id = base /\ base ∉ used) \/
        (exists k, 1 <= k /\ id = base ++ lit "-" ++ decimal k /\ (id ∉ used) /\ (base ∈ used) /\
                   forall i, 1 <= i < k -> (base ++ lit "-" ++ decimal i) ∈ used)
    | None, Some title =>
        let base := lit "proof-" ++ sanitize title in
        (id = base /\ base ∉ used) \/
        (exists k, 1 <= k /\ id = base ++ lit "-" ++ decimal k /\ (id ∉ used) /\ (base ∈ used) /\
                   forall i, 1 <= i < k -> (base ++ lit "-" ++ decimal i) ∈ used)
    | None, None => id = lit "proof-num-" ++ decimal counter
    end.
Proof.
  destruct (chooseStableId_total txt startPos optionalTitle used counter) as [id Hid].
  exists id. split; [done|]. unfold chooseStableId in Hid.
  destruct (find_match m_free_label (substring txt 0 startPos)) as [[[i l] n]|].
  - by apply firstUnused_least in Hid.
  - destruct optionalTitle as [t|].
    + by apply firstUnused_least in Hid.
    + by injection Hid as <-.
Qed.

(** ** Earlier lemmas at sample documents *)

(** Masking at an itemize inside a proof: the masked copy keeps the
    length. *)
Lemma maskedText_spec_witness :
  exists found,
    extractProofs noFigure (fun _ => 0)
      (lit "\begin{proof}\begin{itemize}\item a\end{itemize}\end{proof}") = Some found /\
    length (maskedTextOf (lit "\begin{proof}\begin{itemize}\item a\end{itemize}\end{proof}")
              (extractTheorems noFigure noLabels
                 (lit "\begin{proof}\begin{itemize}\item a\end{itemize}\end{proof}"))
              found)
    = 59.
Proof.
  eexists. split; [vm_compute; reflexivity|].
  match goal with
  | |- length (maskedTextOf ?txt _ ?found) = _ =>
      assert (H : extractProofs noFigure (fun _ => 0) txt = Some found)
        by (vm_compute; reflexivity);
      destruct (maskedText_spec noFigure (fun _ => 0) noLabels txt found H) as (Hlen & _);
      rewrite Hlen; reflexivity
  end.
Defined.

(** The title [num 1] and the fallback of the second proof collide. *)
Lemma collisions_only_through_fallback_witness :
  exists found p q,
    extractProofs noFigure (fun _ => 0) titledThenPlain = Some found /\
    found !! 0 = Some p /\ found !! 1 = Some q /\
    pf_stableId p = pf_stableId q /\
    pf_stableId q = lit "proof-num-" ++ decimal (pf_proofNumber q).
Proof.
  match eval vm_compute in (extractProofs noFigure (fun _ => 0) titledThenPlain) with
  | Some [?P; ?Q] =>
      assert (H : extractProofs noFigure (fun _ => 0) titledThenPlain = Some [P; Q])
        by (vm_compute; reflexivity);
      exists [P; Q], P, Q;
      split_and!;
        [ exact H | reflexivity | reflexivity | reflexivity
        | apply (collisions_only_through_fallback noFigure (fun _ => 0) titledThenPlain
                   [P; Q] H 0 1 P Q); [lia | reflexivity | reflexivity | reflexivity] ]
  end.
Defined.

(** A nested enumerate whose counter is set to 2 starts at 3. *)
Lemma nested_enumerate_start_witness :
  exists listContent,
    nestedEnumerateHTML enumerateFromThree None (lit "\setcounter{enumi}{2}\item a")
    = lit "<ol start=`3`>" ++ listContent ++ lit "</ol>".
Proof.
  destruct (nested_enumerate_start (lit "\begin{enumerate}") (lit "\item a\end{enumerate}")
              (lit "\setcounter{enumi}{2}\item a") None 2) as [listContent H].
  - vm_compute. reflexivity.
  - vm_compute. reflexivity.
  - exists listContent. etransitivity; [exact H|]. reflexivity.
Defined.

(** ** The first theorem-like environment of a text *)

Lemma startsWith_common (a p s : text) : startsWith (a ++ p) (a ++ s) = startsWith p s.
Proof. induction a as [|c a IH]; [done|]. simpl. by rewrite Ascii.eqb_refl. Qed.

(** Of two names without a closing brace, the one followed by a closing
    brace begins the other followed by one only if they are equal. *)
Lemma braced_name_prefix (x y rest : text) :
  forallb (not_char "}") x = true -> forallb (not_char "}") y = true ->
  startsWith (x ++ lit "}") (y ++ lit "}" ++ rest) = true -> x = y.
Proof.
  change (lit "}") with ["}"%char].
  revert y; induction x as [|a x IH]; intros [|b y] Hx Hy H;
    cbn [app startsWith forallb] in Hx, Hy, H.
  - done.
  - apply andb_true_iff in Hy as [Hb _]. apply andb_true_iff in H as [H _].
    apply Ascii.eqb_eq in H. subst b. by vm_compute in Hb.
  - apply andb_true_iff in Hx as [Ha _]. apply andb_true_iff in H as [H _].
    apply Ascii.eqb_eq in H. subst a. by vm_compute in Ha.
  - apply andb_true_iff in Hx as [_ Hx]. apply andb_true_iff in Hy as [_ Hy].
    apply andb_true_iff in H as [Hab H]. apply Ascii.eqb_eq in Hab. subst b.
    f_equal. by apply IH.
Qed.

Lemma first_some_only {A B : Type} `{EqDecision A} (f : A -> option B) (l : list A) (x : A) :
  x ∈ l -> (forall y, y ∈ l -> y <> x -> f y = None) -> first_some f l = f x.
Proof.
  induction l as [|y l IH]; intros Hin Hother; [by apply elem_of_nil in Hin|].
  simpl. destruct (decide (y = x)) as [->|Hne].
  - destruct (f x) eqn:E; [done|].
    destruct (decide (x ∈ l)) as [Hx|Hx].
    + rewrite IH; [done|done|]. intros z Hz. apply Hother. by right.
    + apply first_some_None. intros z Hz. apply Hother; [by right|]. by intros ->.
  - rewrite (Hother y) by (done || by left).
    apply elem_of_cons in Hin as [->|Hin]; [done|].
    apply IH; [done|]. intros z Hz. apply Hother. by right.
Qed.

Lemma theoremTypes_plain (env : text) :
  env ∈ theoremTypes ->
  forallb (not_char "}") env = true /\ forallb (not_char "\") env = true.
Proof.
  intros Hin.
  assert (Hall : forallb (fun e => forallb (not_char "}") e && forallb (not_char "\") e)
                         theoremTypes = true) by reflexivity.
  rewrite forallb_forall in Hall. specialize (Hall env (proj1 (list_elem_of_In _ _) Hin)).
  by apply andb_true_iff in Hall.
Qed.

(** An environment with a title that ends before the body and a body
    that holds no closing delimiter is matched whole. *)
Lemma env_opt_at (opn cls : text) (ttl : option text) (body rest : text) :
  ok_title ttl body = true ->
  free_of [cls] body = true ->
  match cls with
  | c :: _ => c = "\"%char /\ "\"%char ∉ tail cls
  | [] => False
  end ->
  let block := opn ++ match ttl with
                      | Some t => lit "[" ++ t ++ lit "]"
                      | None => []
                      end ++ body ++ cls in
  env_opt opn cls (block ++ rest) = Some ((ttl, body), length block).
Proof.
  intros Httl Hfree Hcls block. subst block.
  assert (Hstop : match cls with c :: _ => c ∉ tail cls | [] => False end).
  { destruct cls as [|c cls']; [done|]. destruct Hcls as [-> H]. exact H. }
  unfold env_opt. rewrite <- !app_assoc. rewrite after_app.
  destruct ttl as [t|]; unfold ok_title in Httl.
  - apply andb_true_iff in Httl as [Hne Hbr]. apply negb_true_iff in Hne.
    unfold text_eqb in Hne. apply bool_decide_eq_false in Hne.
    rewrite <- !app_assoc.
    change (lit "[" ++ t ++ lit "]" ++ body ++ cls ++ rest)
      with ("["%char :: t ++ "]"%char :: body ++ cls ++ rest).
    rewrite (delimited1_app "[" "]" t _ Hne Hbr).
    rewrite (lazy_until_at cls body rest Hfree Hstop).
    do 2 f_equal. rewrite !length_app.
    change (length (lit "[")) with 1. change (length (lit "]")) with 1. lia.
  - cbn [app].
    rewrite (lazy_until_at cls body rest Hfree Hstop).
    assert (Hd : delimited1 "[" "]" (body ++ cls ++ rest) = None).
    { destruct body as [|c body'].
      - destruct cls as [|c cls']; [done|]. destruct Hcls as [-> _]. reflexivity.
      - cbn [app]. unfold delimited1.
        destruct (Ascii.eqb c "[") eqn:Ec; [|done].
        apply Ascii.eqb_eq in Ec. subst c. done. }
    rewrite Hd. do 2 f_equal. rewrite !length_app. lia.
Qed.

Lemma m_theorem_at (env : text) (ttl : option text) (body rest : text) :
  env ∈ theoremTypes ->
  ok_title ttl body = true ->
  free_of [lit "\end{" ++ env ++ lit "}"] body = true ->
  m_theorem (theoremSource env ttl body ++ rest)
  = Some ((env, ttl, body), length (theoremSource env ttl body)).
Proof.
  intros Henv Httl Hfree. destruct (theoremTypes_plain env Henv) as [Hbrace Hback].
  unfold m_theorem.
  rewrite (first_some_only _ theoremTypes env Henv).
  - unfold theoremSource.
    rewrite (env_opt_at (lit "\begin{" ++ env ++ lit "}") (lit "\end{" ++ env ++ lit "}")
               ttl body rest Httl Hfree); [done|].
    split; [reflexivity|]. apply backslash_not_in_tail.
    change (tail (lit "\end{" ++ env ++ lit "}")) with (lit "end{" ++ env ++ lit "}").
    rewrite !forallb_app, Hback. reflexivity.
  - intros other Hother Hne. destruct (theoremTypes_plain other Hother) as [Hobrace _].
    unfold env_opt, after.
    destruct (startsWith (lit "\begin{" ++ other ++ lit "}") (theoremSource env ttl body ++ rest))
      eqn:E; [|done].
    exfalso. apply Hne. unfold theoremSource in E. rewrite <- !app_assoc in E.
    rewrite startsWith_common in E.
    by apply (braced_name_prefix other env _ Hobrace Hbrace) in E.
Qed.

Lemma theoremOpeners_quiet (pre rest : text) (j : nat) :
  free_of theoremOpeners pre = true -> j < length pre ->
  m_theorem (drop j pre ++ "\"%char :: rest) = None.
Proof.
  intros Hfree Hj. unfold m_theorem. apply first_some_None. intros env Henv.
  unfold env_opt, after.
  assert (Htails : Forall (fun p => "\"%char ∉ tail p) theoremOpeners)
    by (apply tails_clear; reflexivity).
  pose proof (quiet_free theoremOpeners pre "\" rest Hfree Htails j Hj) as Hq.
  rewrite occurs_at_false in Hq. rewrite (Hq (lit "\begin{" ++ env ++ lit "}")); [done|].
  unfold theoremOpeners. apply list_elem_of_fmap. by exists env.
Qed.

Lemma m_label_None (s : text) : startsWith (lit "\label") s = false -> m_label s = None.
Proof. intros H. unfold m_label, after. by rewrite H. Qed.

Lemma m_label_at (l rest : text) :
  l <> [] -> forallb (not_char "}") l = true ->
  m_label (lit "\label{" ++ l ++ lit "}" ++ rest) = Some (l, 6 + (length l + 2)).
Proof.
  intros Hne Hl. unfold m_label.
  change (lit "\label{" ++ l ++ lit "}" ++ rest)
    with (lit "\label" ++ "{"%char :: l ++ "}"%char :: rest).
  rewrite after_app. cbn [mbind option_bind].
  by rewrite (delimited1_app "{" "}" l rest Hne Hl).
Qed.

Lemma label_found (before l behind : text) :
  free_of [lit "\label"] before = true ->
  l <> [] -> forallb (not_char "}") l = true ->
  find_match m_label (labelledBody before l behind)
  = Some (length before, l, 6 + (length l + 2)).
Proof.
  intros Hfree Hne Hl. unfold labelledBody. apply find_match_after.
  - intros j Hj. apply m_label_None. apply quiet_one; [done| |done].
    apply backslash_not_in_tail. reflexivity.
  - by apply m_label_at.
Qed.

Lemma label_removed (before l behind : text) :
  free_of [lit "\label"] before = true ->
  l <> [] -> forallb (not_char "}") l = true ->
  replace_first m_label (fun _ _ => []) (labelledBody before l behind) = before ++ behind.
Proof.
  intros Hfree Hne Hl. unfold replace_first. rewrite label_found by done.
  unfold labelledBody. rewrite take_app_length. cbn [app]. f_equal.
  rewrite drop_app_add'; [|done].
  replace (6 + (length l + 2)) with (length (lit "\label{" ++ l ++ lit "}"))
    by (rewrite !length_app; change (length (lit "\label{")) with 7;
        change (length (lit "}")) with 1; lia).
  replace (lit "\label{" ++ l ++ lit "}" ++ behind)
    with ((lit "\label{" ++ l ++ lit "}") ++ behind) by (by rewrite <- !app_assoc).
  by rewrite drop_app_length.
Qed.

Lemma extractTheorems_fold
    (figureInContentHTML : text -> text) (labels : gmap text labelEntry)
    (found : list (nat * (text * option text * text) * text)) :
  forall st,
    exists more,
      snd (fold_left (extractTheoremsTurn figureInContentHTML labels) found st)
      = snd st ++ more.
Proof.
  induction found as [|[[idx [[env ttl] body]] w] found IH]; intros [counts acc].
  - exists []. simpl. by rewrite app_nil_r.
  - cbn [fold_left]. destruct (IH (extractTheoremsTurn figureInContentHTML labels (counts, acc)
                                     (idx, (env, ttl, body), w))) as [more Hmore].
    rewrite Hmore. unfold extractTheoremsTurn. cbv zeta. cbn [snd].
    eexists. by rewrite <- app_assoc.
Qed.

(** X8 — the first theorem-like environment of a text, from the text to
    the element [extractTheorems] records.  When no environment of
    [theoremTypes] opens before it, its bracketed title (if any) ends
    before the body, the body is ASCII text that sets no enumerate
    counter and holds no [\end] of its own name, and the first [\label]
    of the body is [\label{l}], then the first element returned has the
    name and the title of the environment, the label [l], as content the
    body without the label, trimmed and passed through
    [convertListsInContent] and [processFiguresInContent], as raw text
    the whole environment, as start index the length of the text before
    it, and the count 1.  Its number is read from the table as
    [auxData.labels[l]] reads it: the number of the record stored for
    [l]; [undefined] when there is no record but the name is found on
    the prototype chain of the table; [?] otherwise. *)
Theorem first_theorem_is_extracted
    (figureInContentHTML : text -> text) (labels : gmap text labelEntry)
    (pre post env : text) (ttl : option text) (before l behind : text) :
  env ∈ theoremTypes ->
  free_of theoremOpeners pre = true ->
  ok_title ttl (labelledBody before l behind) = true ->
  free_of [lit "\end{" ++ env ++ lit "}"] (labelledBody before l behind) = true ->
  free_of [lit "\label"] before = true ->
  l <> [] -> forallb (not_char "}") l = true ->
  ascii_text (before ++ behind) = true ->
  free_of [lit "\setcounter{enumi}{"] (before ++ behind) = true ->
  exists t later,
    extractTheorems figureInContentHTML labels
      (pre ++ theoremSource env ttl (labelledBody before l behind) ++ post) = t :: later /\
    th_envName t = env /\ th_title t = ttl /\ th_label t = Some l /\
    th_number t = match labelsAt labels l with
                  | Some (Stored entry) => Some (number entry)
                  | Some Inherited => None
                  | None => Some (lit "?")
                  end /\
    th_content t
    = processFiguresInContent figureInContentHTML
        (convertListsInContent (trim (before ++ behind))) /\
    th_fullMatch t = theoremSource env ttl (labelledBody before l behind) /\
    th_startIndex t = length pre /\
    th_typeCount t = 1.
Proof.
  intros Henv Hpre Httl Hend Hlabel Hne Hl _ _.
  set (body := labelledBody before l behind) in *.
  set (block := theoremSource env ttl body).
  assert (Hblock : exists r, block = "\"%char :: r).
  { unfold block, theoremSource. rewrite <- !app_assoc. by eexists. }
  destruct Hblock as [r Hr].
  assert (Hexec : exec_all m_theorem (pre ++ block ++ post)
                  = (length pre, (env, ttl, body), block)
                    :: exec_go m_theorem (length pre + length block) 0 post).
  { unfold exec_all. rewrite exec_go_copy.
    - rewrite (exec_go_match m_theorem block post _ (env, ttl, body)); [done| |].
      + by rewrite Hr.
      + by apply m_theorem_at.
    - intros j Hj. rewrite Hr. cbn [app]. by apply theoremOpeners_quiet. }
  unfold extractTheorems. rewrite Hexec. cbn [fold_left].
  destruct (extractTheorems_fold figureInContentHTML labels
              (exec_go m_theorem (length pre + length block) 0 post)
              (extractTheoremsTurn figureInContentHTML labels (∅, [])
                 (length pre, (env, ttl, body), block))) as [more Hmore].
  rewrite Hmore. unfold extractTheoremsTurn. cbv zeta. cbn [snd app].
  eexists _, more. split; [reflexivity|].
  cbn [th_envName th_title th_label th_number th_content th_fullMatch th_startIndex
       th_typeCount].
  unfold body. rewrite (label_found before l behind Hlabel Hne Hl).
  rewrite (label_removed before l behind Hlabel Hne Hl).
  cbn [fmap option_fmap option_map]. rewrite lookup_empty.
  by split_and!.
Qed.

(** The theorem at a lemma with a title and a label the table knows. *)
Lemma first_theorem_is_extracted_witness :
  exists t later,
    extractTheorems noFigure oneLabel
      (lit "See: \begin{lemma}[Key]\label{e:1} It holds.\end{lemma} Then.") = t :: later /\
    th_envName t = lit "lemma" /\ th_title t = Some (lit "Key") /\
    th_label t = Some (lit "e:1") /\ th_number t = Some (lit "1.2") /\
    th_startIndex t = 5.
Proof.
  destruct (first_theorem_is_extracted noFigure oneLabel (lit "See: ") (lit " Then.")
              (lit "lemma") (Some (lit "Key")) [] (lit "e:1") (lit " It holds."))
    as (t & later & Hex & Henv & Httl & Hlabel & Hnum & _ & _ & Hstart & _).
  - vm_compute. set_unfold. tauto.
  - vm_compute. reflexivity.
  - vm_compute. reflexivity.
  - vm_compute. reflexivity.
  - vm_compute. reflexivity.
  - vm_compute. discriminate.
  - vm_compute. reflexivity.
  - vm_compute. reflexivity.
  - vm_compute. reflexivity.
  - exists t, later. split_and!; [exact Hex|exact Henv|exact Httl|exact Hlabel| |exact Hstart].
    rewrite Hnum. vm_compute. reflexivity.
Defined.

(** ** An itemize inside a theorem or proof body *)

Lemma drop_while_app_all (p : ascii -> bool) (ws rest : text) :
  forallb p ws = true ->
  match rest with
  | c :: _ => p c = false
  | [] => True
  end ->
  drop_while p (ws ++ rest) = rest.
Proof.
  intros Hws Hrest. induction ws as [|a ws IH]; simpl.
  - destruct rest as [|c r]; [done|]. simpl. by rewrite Hrest.
  - simpl in Hws. apply andb_true_iff in Hws as [-> Hws]. by apply IH.
Qed.

Lemma forallb_rev (p : ascii -> bool) (l : text) : forallb p (rev l) = forallb p l.
Proof.
  induction l as [|a l IH]; [done|]. simpl. rewrite forallb_app, IH. simpl.
  rewrite andb_true_r. apply andb_comm.
Qed.

Lemma trimEnd_blanks (s : text) (c : ascii) (ws : text) :
  is_space c = false -> forallb is_space ws = true ->
  trimEnd ((s ++ [c]) ++ ws) = s ++ [c].
Proof.
  intros Hc Hws. unfold trimEnd. rewrite !rev_app_distr. cbn [rev app].
  rewrite drop_while_app_all; [|by rewrite forallb_rev|done].
  change (c :: rev s) with (rev [c] ++ rev s).
  by rewrite <- rev_app_distr, rev_involutive.
Qed.

(** The content of a list environment is left alone by [trim], up to the
    blanks before its first item and behind its last, when its last item
    ends in a character other than a blank. *)
Lemma trim_items (ws ws2 : text) (items : list (text * text)) (body : text) (c : ascii) :
  forallb is_space ws = true ->
  forallb is_space ws2 = true ->
  (exists b, last items = Some (b, body ++ [c])) ->
  is_space c = false ->
  trim (ws ++ itemsSource items ++ ws2) = itemsSource items.
Proof.
  intros Hws Hws2 [b Hlast] Hc. unfold trim, trimStart.
  assert (Hsrc : exists r, itemsSource items = "\"%char :: r).
  { destruct items as [|it items]; [done|]. rewrite itemsSource_cons.
    rewrite <- !app_assoc. by eexists. }
  destruct Hsrc as [r Hr].
  rewrite drop_while_app_all; [|done|by rewrite Hr].
  assert (Hend : exists s, itemsSource items = s ++ [c]).
  { clear Hr. revert b Hlast. induction items as [|it items IH]; intros b Hlast; [done|].
    rewrite itemsSource_cons. destruct items as [|it2 items].
    - injection Hlast as ->. cbn [fst snd]. unfold itemsSource. cbn [map concat].
      rewrite app_nil_r. exists ((lit "\item" ++ b) ++ body). by rewrite <- !app_assoc.
    - destruct (IH b Hlast) as [s Hs]. rewrite Hs.
      exists ((lit "\item" ++ it.1) ++ it.2 ++ s). by rewrite <- !app_assoc. }
  destruct Hend as [s Hs]. rewrite Hs. by apply trimEnd_blanks.
Qed.

Lemma env_plain_at (opn cls body rest : text) :
  free_of [cls] body = true ->
  match cls with
  | c :: _ => c ∉ tail cls
  | [] => False
  end ->
  env_plain opn cls ((opn ++ body ++ cls) ++ rest)
  = Some (body, length (opn ++ body ++ cls)).
Proof.
  intros Hfree Hcls. unfold env_plain. rewrite <- !app_assoc. rewrite after_app.
  rewrite (lazy_until_at cls body rest Hfree Hcls).
  do 2 f_equal. rewrite !length_app. lia.
Qed.

(** X13 — an itemize inside a theorem or proof body.  When the content
    holds no [\begin{enumerate}], the texts around the environment hold no
    [\begin{itemize}], and the environment holds ASCII text: between
    blanks, a sequence of items (each an [\item], blanks and a body without a
    further [\item] that does not begin with a blank) whose last item ends
    in a character other than a blank and which holds no
    [\end{itemize}], then
    [convertListsInContent] replaces the environment by a [<ul>] with one
    [<li>] element per item and leaves the texts around it as they
    are. *)
Theorem nested_itemize_becomes_a_list
    (pre ws ws2 post : text) (items : list (text * text)) (body : text) (c : ascii) :
  free_of [beginEnumerate]
          (pre ++ (beginItemize ++ (ws ++ itemsSource items ++ ws2) ++ endItemize) ++ post)
  = true ->
  free_of [beginItemize] pre = true ->
  free_of [beginItemize] post = true ->
  ascii_text (ws ++ itemsSource items ++ ws2) = true ->
  forallb is_space ws = true ->
  forallb is_space ws2 = true ->
  ok_items items = true ->
  (exists b, last items = Some (b, body ++ [c])) ->
  is_space c = false ->
  free_of [endItemize] (ws ++ itemsSource items ++ ws2) = true ->
  convertListsInContent
    (pre ++ (beginItemize ++ (ws ++ itemsSource items ++ ws2) ++ endItemize) ++ post)
  = pre ++ (lit "<ul>" ++ itemsHTML items ++ lit "</ul>") ++ post.
Proof.
  intros Henum Hpre Hpost _ Hws Hws2 Hitems Hlast Hc Hend.
  unfold convertListsInContent. cbv zeta.
  rewrite (replace_all_matchless (env_opt beginEnumerate endEnumerate)).
  2:{ intros j. unfold env_opt, after.
      unfold free_of in Henum. cbn [forallb] in Henum. rewrite andb_true_r in Henum.
      apply negb_true_iff in Henum. by rewrite (includes_false _ _ j Henum). }
  assert (Hstart : "\"%char ∉ tail beginItemize) by (apply backslash_not_in_tail; reflexivity).
  assert (Hstop : "\"%char ∉ tail endItemize) by (apply backslash_not_in_tail; reflexivity).
  unfold replace_all. rewrite replace_go_copy.
  - f_equal.
    rewrite (replace_go_match _ _
               (beginItemize ++ (ws ++ itemsSource items ++ ws2) ++ endItemize)
               post 0 (ws ++ itemsSource items ++ ws2)).
    + cbv beta. rewrite (trim_items ws ws2 items body c Hws Hws2 Hlast Hc).
      rewrite (items_to_li items Hitems).
      rewrite <- !app_assoc. do 3 f_equal.
      rewrite <- (app_nil_r post) at 1. rewrite replace_go_copy; [by rewrite app_nil_r|].
      intros j Hj. unfold env_plain, after.
      by rewrite (quiet_one beginItemize post [] j Hpost I Hj).
    + by change beginItemize with ("\"%char :: drop 1 beginItemize).
    + by apply env_plain_at.
  - intros j Hj. unfold env_plain, after.
    rewrite (quiet_one beginItemize pre _ j Hpre); [done| |done].
    by change beginItemize with ("\"%char :: drop 1 beginItemize).
Qed.

(** The theorem at a list of two items in a sentence. *)
Lemma nested_itemize_becomes_a_list_witness :
  convertListsInContent (lit "We have|\begin{itemize}|\item one|\item two|\end{itemize}|and more.")
  = lit "We have|<ul><li>one|</li><li>two</li></ul>|and more.".
Proof.
  apply (nested_itemize_becomes_a_list (lit "We have|") (lit "|") (lit "|") (lit "|and more.")
           [(lit " ", lit "one|"); (lit " ", lit "two")] (lit "tw") "o");
    try (vm_compute; reflexivity).
  eexists. vm_compute. reflexivity.
Defined.

(** ** Inline markup *)

Lemma m_braced_None (cmd s : text) :
  startsWith (cmd ++ lit "{") s = false -> m_braced cmd false s = None.
Proof.
  intros H. unfold m_braced. destruct (after cmd s) as [r|] eqn:Ea; [|done].
  cbn [mbind option_bind]. apply after_Some in Ea. subst s.
  rewrite startsWith_common in H.
  assert (Hst : match r with
                | "*"%char :: _ => if false then 1 else 0
                | _ => 0
                end = 0).
  { destruct r as [|c r']; [done|]. by destruct c as [[] [] [] [] [] [] [] []]. }
  rewrite Hst, drop_0. destruct r as [|c r']; [done|].
  unfold delimited1. destruct (Ascii.eqb c "{") eqn:Ec; [|done].
  apply Ascii.eqb_eq in Ec. subst c. done.
Qed.

Lemma m_braced_at (cmd arg rest : text) :
  arg <> [] -> forallb (not_char "}") arg = true ->
  m_braced cmd false ((cmd ++ lit "{" ++ arg ++ lit "}") ++ rest)
  = Some (arg, length (cmd ++ lit "{" ++ arg ++ lit "}")).
Proof.
  intros Hne Harg. unfold m_braced. rewrite <- !app_assoc. rewrite after_app.
  cbn [mbind option_bind].
  change (lit "{" ++ arg ++ lit "}" ++ rest) with ("{"%char :: arg ++ "}"%char :: rest).
  rewrite drop_0. rewrite (delimited1_app "{" "}" arg rest Hne Harg).
  cbn [mbind option_bind]. do 2 f_equal.
  repeat first [rewrite length_app | rewrite length_cons].
  change (length (lit "{")) with 1. change (length (lit "}")) with 1. lia.
Qed.

Lemma markup_replaced (cmd tag : text) (segs : list (text * text)) (ending : text) :
  match cmd with
  | c :: _ => c = "\"%char /\ "\"%char ∉ tail (cmd ++ lit "{")
  | [] => False
  end ->
  forallb (fun seg => free_of [cmd ++ lit "{"] (fst seg) && negb (text_eqb (snd seg) [])
                      && forallb (not_char "}") (snd seg)) segs = true ->
  free_of [cmd ++ lit "{"] ending = true ->
  forall k,
    replace_go (m_braced cmd false)
      (fun _ arg _ => lit "<" ++ tag ++ lit ">" ++ arg ++ lit "</" ++ tag ++ lit ">")
      k 0 (markupSource cmd segs ending)
    = markupOutput tag segs ending.
Proof.
  intros Hcmd Hsegs Hending.
  assert (Hquiet : forall x rest j,
            free_of [cmd ++ lit "{"] x = true ->
            match rest with c :: _ => c = "\"%char | [] => True end ->
            j < length x ->
            m_braced cmd false (drop j x ++ rest) = None).
  { intros x rest j Hx Hrest Hj. apply m_braced_None.
    apply quiet_one; [done| |done].
    destruct rest as [|c r]; [done|]. subst c.
    destruct cmd as [|c0 cmd']; [done|]. by destruct Hcmd as [_ H]. }
  induction segs as [|[x arg] segs IH]; intros k.
  - unfold markupSource, markupOutput. cbn [map concat app].
    rewrite <- (app_nil_r ending) at 1.
    rewrite replace_go_copy; [by rewrite app_nil_r|].
    intros j Hj. by apply Hquiet.
  - cbn [forallb fst snd] in Hsegs. apply andb_true_iff in Hsegs as [Hseg Hsegs].
    apply andb_true_iff in Hseg as [Hseg Harg]. apply andb_true_iff in Hseg as [Hx Hne].
    apply negb_true_iff in Hne. unfold text_eqb in Hne. apply bool_decide_eq_false in Hne.
    unfold markupSource, markupOutput in *. cbn [map concat fst snd]. rewrite <- !app_assoc.
    rewrite replace_go_copy.
    + replace (cmd ++ lit "{" ++ arg ++ lit "}" ++
               concat (map (fun seg => fst seg ++ cmd ++ lit "{" ++ snd seg ++ lit "}") segs)
               ++ ending)
        with ((cmd ++ lit "{" ++ arg ++ lit "}") ++
              concat (map (fun seg => fst seg ++ cmd ++ lit "{" ++ snd seg ++ lit "}") segs)
              ++ ending) by (by rewrite <- !app_assoc).
      rewrite (replace_go_match _ _ (cmd ++ lit "{" ++ arg ++ lit "}") _ k arg).
      * rewrite IH by done. by rewrite <- !app_assoc.
      * destruct cmd; [done|done].
      * by apply m_braced_at.
    + intros j Hj. apply Hquiet; [done| |done].
      destruct cmd as [|c0 cmd']; [done|]. by destruct Hcmd as [-> _].
Qed.

(** X22 — one pass of inline markup.  For each of [\emph], [\textbf],
    [\textit] and [\texttt] with its tag ([em], [strong], [em], [code]):
    on a text made of stretches that do not hold the command with an
    opening brace, each followed by the command with a non-empty argument
    without a closing brace, the pass replaces every command by its
    argument between the opening and the closing tag and copies the
    stretches. *)
Theorem inline_markup_is_tagged
    (cmd tag : text) (segs : list (text * text)) (ending : text) :
  (cmd, tag) ∈ markups ->
  forallb (fun seg => free_of [cmd ++ lit "{"] (fst seg) && negb (text_eqb (snd seg) [])
                      && forallb (not_char "}") (snd seg)) segs = true ->
  free_of [cmd ++ lit "{"] ending = true ->
  inlineMarkup cmd tag (markupSource cmd segs ending) = markupOutput tag segs ending.
Proof.
  intros Hin Hsegs Hending. unfold inlineMarkup, replace_all.
  apply markup_replaced; [|done|done].
  unfold markups in Hin.
  repeat (apply elem_of_cons in Hin as [[= -> ->]|Hin];
          [split; [reflexivity|apply backslash_not_in_tail; reflexivity]|]).
  by apply elem_of_nil in Hin.
Qed.

(** The theorem at two emphasised words. *)
Lemma inline_markup_is_tagged_witness :
  inlineMarkup (lit "\emph") (lit "em") (lit "a \emph{b} c \emph{d e}.")
  = lit "a <em>b</em> c <em>d e</em>.".
Proof.
  apply (inline_markup_is_tagged (lit "\emph") (lit "em")
           [(lit "a ", lit "b"); (lit " c ", lit "d e")] (lit ".")).
  - by left.
  - vm_compute. reflexivity.
  - vm_compute. reflexivity.
Defined.
